(** * Sliding-tile boards, hill climbing and simulated annealing

    A shallow embedding of [main.go]: the [Board] type with its scorer
    [DiffN], the neighbour generator [FindNeighbors], the two searches
    [MinDiffHC] and [MinDiffSA], and the channel the experiments collect
    their results on.

    Conventions of the embedding.
    - A Go [int] is a [Z].  The only arithmetic the program does on ints is
      index arithmetic ([i-1], [i+1], [i*n]) and a counter bounded by the
      number of cells, so no operation wraps on a board that fits in memory.
    - Memory is not modelled: [make] fails on a negative length only. What
      is stated of a constructor at a size of the caller's choice is stated
      for sizes whose cell count is at most [math.MaxInt32].
    - A run-time panic (index out of range, nil dereference, the explicit
      [panic] of [DiffN]) is [None] in the [option] monad.
    - A [*Board] that the program may leave nil is an [option Board].
    - A slice is a list. The program writes only into the rows of a board
      it is building or has just copied, so no write shows through another
      slice, and a board can be taken as a value.
    - The float64 operations and the generator of math/rand are interfaces
      ([Float64Ops], [Rand]); the searches take the generator state and the
      readings of the clock as arguments. *)

From Stdlib Require Import QArith.
From stdpp Require Import base tactics option list list_numbers gmap.

Open Scope Z_scope.

(** * The program *)

(** ** Boards *)

Record Board := mkBoard { size : Z; state : list (list Z) }.

(** [s[i]] on a slice: out of range is a panic. *)
Definition at_index {A} (l : list A) (i : Z) : option A :=
  if bool_decide (0 ≤ i) then l !! Z.to_nat i else None.

(** [b.state[i][j]] *)
Definition cell (b : Board) (i j : Z) : option Z :=
  row ← at_index (state b) i; at_index row j.

(** [st[i][j] = v] *)
Definition set_cell (st : list (list Z)) (i j v : Z) : option (list (list Z)) :=
  row ← at_index st i;
  _ ← at_index row j;
  Some (<[Z.to_nat i := <[Z.to_nat j := v]> row]> st).

(** [for _, x := range l { s = body x s }], where the body may panic, and
    [for i := 0; i < n; i++ { s = body i s }]. *)
Fixpoint for_each {A S} (l : list A) (body : A → S → option S) (s : S) : option S :=
  match l with
  | [] => Some s
  | i :: l' => s' ← body i s; for_each l' body s'
  end.

Definition for_range {S} (n : Z) (body : Z → S → option S) (s : S) : option S :=
  for_each (seqZ 0 n) body s.

(** The same loop when the body may [return] a value from the enclosing
    function: [Some (Some a)] is the early return, [Some None] falls through. *)
Fixpoint first_of {A} (l : list Z) (body : Z → option (option A)) : option (option A) :=
  match l with
  | [] => Some None
  | i :: l' =>
      r ← body i;
      match r with
      | Some a => Some (Some a)
      | None => first_of l' body
      end
  end.

(** [make([]T, n)] panics on a negative length. It also panics on a length
    beyond what the allocator can give; that limit is left out here, so
    this agrees with the code on every length that is the size of a board
    in memory. Where the length is an argument of the caller's choice, in
    [NewBoard] and [NewBoardRand], the statements below carry the bound
    [n*n <= math.MaxInt32] on the size. *)
Definition make {A} (n : Z) (zero : A) : option (list A) :=
  if bool_decide (n < 0) then None else Some (replicate (Z.to_nat n) zero).

(** [NewBoard] *)
Definition NewBoard (n : Z) : option Board :=
  st ← make n ([] : list Z);
  st ← for_range n (λ i st,
          row ← make n 0;
          _ ← at_index st i;
          let st := <[Z.to_nat i := row]> st in
          for_range n (λ j st, set_cell st i j (i * n + j)) st) st;
  Some (mkBoard n st).

(** [pieces[lo:hi]]: the bounds must satisfy [0 <= lo <= hi <= cap]. The
    slices taken here are of a freshly made slice, whose capacity is its
    length. *)
Definition slice {A} (l : list A) (lo hi : Z) : option (list A) :=
  if bool_decide (0 ≤ lo ∧ lo ≤ hi ∧ hi ≤ Z.of_nat (length l))
  then Some (take (Z.to_nat (hi - lo)) (drop (Z.to_nat lo) l))
  else None.

(** [NewBoardRand], given the slice [pieces] that [rand.Perm(n*n)] returned. *)
Definition NewBoardRand (n : Z) (pieces : list Z) : option Board :=
  st ← make n ([] : list Z);
  st ← for_range n (λ i st,
          row ← slice pieces (i * n) (i * n + n);
          _ ← at_index st i;
          Some (<[Z.to_nat i := row]> st)) st;
  Some (mkBoard n st).

(** [copy(dst, src)] copies [min(len(dst), len(src))] elements. *)
Definition copy_into {A} (dst src : list A) : list A :=
  take (length dst) src ++ drop (length src) dst.

(** [Copy] *)
Definition Copy (b : Board) : option Board :=
  let s := size b in
  st ← make s ([] : list Z);
  st ← for_range s (λ i st,
          row ← make s 0;
          _ ← at_index st i;
          let st := <[Z.to_nat i := row]> st in
          dst ← at_index st i;
          src ← at_index (state b) i;
          Some (<[Z.to_nat i := copy_into dst src]> st)) st;
  Some (mkBoard s st).

(** [DiffN] *)
Definition DiffN (b target : Board) : option Z :=
  if bool_decide (size b ≠ size target) then None
  else
    for_range (size b) (λ i c,
      for_range (size b) (λ j c,
        x ← cell b i j;
        if bool_decide (x = 0) then Some c
        else
          y ← cell target i j;
          Some (if bool_decide (x ≠ y) then c + 1 else c)) c) 0.

(** [tileIndx]: the inner loop, over the cells of row [i], and the function. *)
Definition tileIndx_row (b : Board) (n i : Z) : option (option (Z * Z)) :=
  first_of (seqZ 0 (size b)) (λ j,
    x ← cell b i j;
    Some (if bool_decide (x = n) then Some (i, j) else None)).

Definition tileIndx (b : Board) (n : Z) : option (Z * Z * bool) :=
  r ← first_of (seqZ 0 (size b)) (tileIndx_row b n);
  Some (match r with
        | Some (i, j) => (i, j, true)
        | None => (-1, -1, false)
        end).

(** [c.state[i][j], c.state[i'][j'] = b.state[i'][j'], b.state[i][j]] *)
Definition swap_from (b c : Board) (i j i' j' : Z) : option Board :=
  _ ← cell c i j;
  _ ← cell c i' j';
  v ← cell b i' j';
  w ← cell b i j;
  st ← set_cell (state c) i j v;
  st ← set_cell st i' j' w;
  Some (mkBoard (size c) st).

(** One direction of [FindNeighbors]: copy, swap, append. *)
Definition push_neighbor (b : Board) (i j i' j' : Z) (ns : list Board)
  : option (list Board) :=
  c ← Copy b;
  c ← swap_from b c i j i' j';
  Some (ns ++ [c]).

(** [FindNeighbors]; the nil slice is the empty list. *)
Definition FindNeighbors (b : Board) (x : Z) : option (list Board) :=
  '(i, j, ok) ← tileIndx b x;
  if negb ok then Some []
  else
    let ns := [] in
    (* Up *)
    ns ← (if bool_decide (i - 1 >= 0) then push_neighbor b i j (i - 1) j ns
          else Some ns);
    (* Down *)
    ns ← (if bool_decide (i + 1 < size b) then push_neighbor b i j (i + 1) j ns
          else Some ns);
    (* Left *)
    ns ← (if bool_decide (j - 1 >= 0) then push_neighbor b i j i (j - 1) ns
          else Some ns);
    (* Right *)
    ns ← (if bool_decide (j + 1 < size b) then push_neighbor b i j i (j + 1) ns
          else Some ns);
    Some ns.

(** ** The environment of a search: float64, math/rand and the clock *)

(** The float64 operations [MinDiffSA] and [AcceptCandidate] use. The one
    law the claims need: a number strictly above another is not equal to it. *)
Class Float64Ops (F : Type) := {
  f_zero : F;                (* the constant 0 *)
  f_one : F;                 (* the constant 1.00 *)
  f_eq : F → F → bool;       (* x == y *)
  f_lt : F → F → bool;       (* x < y *)
  f_of_int : Z → F;          (* float64(n) *)
  f_neg : F → F;             (* -x *)
  f_div : F → F → F;         (* x / y *)
  f_mul : F → F → F;         (* x * y *)
  f_exp : F → F;             (* math.Exp(x) *)
  f_lt_neq x y : f_lt x y = true → f_eq y x = false;
}.

(** The shared generator of math/rand, as a state [G] that each draw
    advances. [rand.Intn(n)] panics unless [0 < n], and returns a number
    in [[0, n)]. *)
Class Rand (G F : Type) := {
  rand_Intn : Z → G → option (Z * G);
  rand_Float64 : G → F * G;
  rand_Intn_range n g k g' : rand_Intn n g = Some (k, g') → 0 ≤ k < n;
  rand_Intn_pos n g : 0 < n → is_Some (rand_Intn n g);
}.

(** How a call of a looping function ends: it returns, it panics, or the
    fuel given to the model ran out first. *)
Inductive run (A : Type) : Type :=
  | Returned (a : A)
  | Panicked
  | Unfinished.
Arguments Returned {A} a.
Arguments Panicked {A}.
Arguments Unfinished {A}.

(** [FindNeighborRand]: nil when there is no neighbour. *)
Definition FindNeighborRand `{Rand G F} (b : Board) (x : Z) (g : G)
  : option (option Board * G) :=
  ns ← FindNeighbors b x;
  match ns with
  | [] => Some (None, g)
  | _ :: _ =>
      '(i, g) ← rand_Intn (Z.of_nat (length ns)) g;
      c ← at_index ns i;
      Some (Some c, g)
  end.

(** ** Hill climbing *)

Definition MaxInt32 : Z := 2147483647.

(** The body of the loop over the candidates, on the pair [(nextBoard, h)],
    and the loop. *)
Definition scan_candidate (target c : Board) (st : option Board * Z)
  : option (option Board * Z) :=
  let '(nextBoard, h) := st in
  diff ← DiffN c target;
  Some (if bool_decide (diff < h) then (Some c, diff) else (nextBoard, h)).

Definition best_candidate (target : Board) (candidates : list Board)
  : option (option Board * Z) :=
  for_each candidates (scan_candidate target) (None, MaxInt32).

(** What one pass of the outer loop of [MinDiffHC] does. *)
Inductive hc_next : Type :=
  | Emit (currentH : Z)
  | Continue (nextBoard : option Board).

Definition hc_iter (currentBoard : option Board) (target : Board) : option hc_next :=
  cur ← currentBoard;
  candidates ← FindNeighbors cur 0;
  '(nextBoard, h) ← best_candidate target candidates;
  currentH ← DiffN cur target;
  Some (if bool_decide (h >= currentH) then Emit currentH else Continue nextBoard).

Fixpoint hc_loop (fuel : nat) (currentBoard : option Board) (target : Board)
  : run (list Z) :=
  match fuel with
  | O => Unfinished
  | S fuel =>
      match hc_iter currentBoard target with
      | None => Panicked
      | Some (Emit currentH) => Returned [currentH]
      | Some (Continue nextBoard) => hc_loop fuel nextBoard target
      end
  end.

(** [MinDiffHC]: the values sent on [ch], in order. *)
Definition MinDiffHC (fuel : nat) (b target : Board) : run (list Z) :=
  hc_loop fuel (Some b) target.

(** The successive values of [currentBoard] in [MinDiffHC], at most [fuel]
    of them. *)
Fixpoint trajectory (fuel : nat) (b target : Board) : list Board :=
  match fuel with
  | O => []
  | S fuel =>
      b :: match hc_iter (Some b) target with
           | Some (Continue (Some nextBoard)) => trajectory fuel nextBoard target
           | _ => []
           end
  end.

(** ** Simulated annealing *)

Record SimulatedAnnealParams (F : Type) := mkParams {
  Objective : Board;
  TemperatureMin : F;
  Alpha : F;
  Iterations : Z;
  MaxTime : Z;
}.
Arguments mkParams {F}.
Arguments Objective {F}.
Arguments TemperatureMin {F}.
Arguments Alpha {F}.
Arguments Iterations {F}.
Arguments MaxTime {F}.

(** [AcceptCandidate] *)
Definition AcceptCandidate `{Float64Ops F, Rand G F}
  (current candidate : Z) (temp : F) (g : G) : bool * G :=
  if bool_decide (candidate < current) then (true, g)
  else if f_eq temp f_zero then (false, g)
  else
    let d := f_of_int (candidate - current) in
    let p := f_exp (f_div (f_neg d) temp) in
    let '(u, g) := rand_Float64 g in
    (f_lt u p, g).

(** The variables of [MinDiffSA] that the inner loop updates. *)
Record sa_state := mkSA {
  currentBoard : Board;
  currentDiff : Z;
  minDiff : Z;
}.

(** The body of the inner loop. A nil [candidateBoard] panics in [DiffN]. *)
Definition sa_inner `{Float64Ops F, Rand G F}
  (p : SimulatedAnnealParams F) (t : F) (_ : Z) (sg : sa_state * G)
  : option (sa_state * G) :=
  let '(s, g) := sg in
  '(candidateBoard, g) ← FindNeighborRand (currentBoard s) 0 g;
  c ← candidateBoard;
  candidateDiff ← DiffN c (Objective p);
  let minDiff' :=
    if bool_decide (candidateDiff < minDiff s) then candidateDiff else minDiff s in
  let '(ok, g) := AcceptCandidate (currentDiff s) candidateDiff t g in
  Some (if ok then (mkSA c candidateDiff minDiff', g)
        else (mkSA (currentBoard s) (currentDiff s) minDiff', g)).

(** The outer loop. [clock k] is [time.Since(start)] as read after the
    [k]-th temperature level. The result is the final state and the values
    sent on [ch], in order. *)
Fixpoint sa_loop `{Float64Ops F, Rand G F} (fuel : nat)
  (p : SimulatedAnnealParams F) (clock : nat → Z)
  (k : nat) (t : F) (s : sa_state) (g : G) : run (sa_state * list Z) :=
  match fuel with
  | O => Unfinished
  | S fuel =>
      if f_lt (TemperatureMin p) t then
        match for_range (Iterations p) (sa_inner p t) (s, g) with
        | None => Panicked
        | Some (s, g) =>
            let t := f_mul t (Alpha p) in
            if bool_decide (clock k > MaxTime p) then
              let sent := [] in
              let sent :=
                if bool_decide (minDiff s < currentDiff s)
                then sent ++ [minDiff s] else sent in
              let sent := sent ++ [currentDiff s] in
              Returned (s, sent)
            else sa_loop fuel p clock (S k) t s g
        end
      else
        let sent := [] in
        let sent :=
          if bool_decide (minDiff s < currentDiff s)
          then sent ++ [minDiff s] else sent in
        let sent := sent ++ [currentDiff s] in
        Returned (s, sent)
  end.

(** [MinDiffSA] *)
Definition MinDiffSA `{Float64Ops F, Rand G F} (fuel : nat) (b : Board)
  (p : SimulatedAnnealParams F) (clock : nat → Z) (g : G)
  : run (sa_state * list Z) :=
  match DiffN b (Objective p) with
  | None => Panicked
  | Some currentDiff =>
      sa_loop fuel p clock 0 f_one (mkSA b currentDiff currentDiff) g
  end.

(** ** The results channel and the drain loop

    An experiment after its launch loop: the buffered channel [ch], what
    each goroutine has still to send on it, the counter of the drain loop
    and the histogram. A schedule is a list of events; an event that
    cannot happen in a state (a send on a full buffer, a receive on an
    empty one) has no successor: the goroutine is blocked there. *)

Record experiment := mkExp {
  capacity : Z;             (* make(chan int, n) *)
  buffer : list Z;          (* sent and not yet received *)
  pending : list (list Z);  (* per goroutine: the values still to send *)
  drain_i : Z;              (* the counter of the drain loop *)
  drain_n : Z;              (* its bound *)
  diffs : gmap Z Z;         (* the histogram *)
}.

Inductive event : Type :=
  | Send (p : nat)          (* goroutine [p] sends its next value *)
  | Recv.                   (* [m := <-ch; diffs[m]++] *)

Definition step (e : event) (σ : experiment) : option experiment :=
  match e with
  | Send p =>
      match pending σ !! p with
      | Some (v :: rest) =>
          if bool_decide (Z.of_nat (length (buffer σ)) < capacity σ)
          then Some (mkExp (capacity σ) (buffer σ ++ [v]) (<[p := rest]> (pending σ))
                           (drain_i σ) (drain_n σ) (diffs σ))
          else None
      | _ => None
      end
  | Recv =>
      if bool_decide (drain_i σ < drain_n σ) then
        match buffer σ with
        | m :: buf =>
            Some (mkExp (capacity σ) buf (pending σ) (drain_i σ + 1) (drain_n σ)
                        (<[m := default 0 (diffs σ !! m) + 1]> (diffs σ)))
        | [] => None
        end
      else None
  end.

Fixpoint exec (es : list event) (σ : experiment) : option experiment :=
  match es with
  | [] => Some σ
  | e :: es' => σ' ← step e σ; exec es' σ'
  end.

(** [diffs := make(map[int]int, size)] and the loop that zeroes the keys. *)
Definition new_diffs (size : Z) : gmap Z Z :=
  foldl (λ diffs i, <[i := 0]> diffs) ∅ (seqZ 0 (size * size)).

(** The state after the launch loop of an experiment with [n] trials, where
    [sends] lists, per trial, the values its search sends. *)
Definition launched (size n : Z) (sends : list (list Z)) : experiment :=
  mkExp n [] sends 0 n (new_diffs size).

(** [RunHillClimb]: [size := 3], [n := 5000000]. *)
Definition RunHillClimb_launched (sends : list (list Z)) : experiment :=
  launched 3 5000000 sends.

(** [RunSimAnneal]: [size := 3], [n := 100]. *)
Definition RunSimAnneal_launched (sends : list (list Z)) : experiment :=
  launched 3 100 sends.

(** ** A trial and the report of an experiment *)

(** One trial of [RunHillClimb]: [b2 := NewBoardRand(size)], with [pieces]
    the permutation drawn, then [b2.MinDiffHC(b1, ch)]. *)
Definition hc_trial (fuel : nat) (size : Z) (b1 : Board) (pieces : list Z)
  : run (list Z) :=
  match NewBoardRand size pieces with
  | None => Panicked
  | Some b2 => MinDiffHC fuel b2 b1
  end.

(** One trial of [RunSimAnneal]: [b2 := NewBoardRand(size)], with [pieces]
    the permutation drawn, then [b2.MinDiffSA(&params, ch)]. *)
Definition sa_trial `{Float64Ops F, Rand G F} (fuel : nat) (size : Z)
    (params : SimulatedAnnealParams F) (pieces : list Z) (clock : nat → Z) (g : G)
  : run (sa_state * list Z) :=
  match NewBoardRand size pieces with
  | None => Panicked
  | Some b2 => MinDiffSA fuel b2 params clock g
  end.

(** The rows of the report,
    [for i := size*size - 1; i >= 0; i-- { d := diffs[i]; ... }]:
    the diff value [i] and its count [d], a key missing from the map
    reading as 0. The percentage and the printing are left out. *)
Definition report (size : Z) (diffs : gmap Z Z) : list (Z * Z) :=
  (λ i, (i, default 0 (diffs !! i))) <$> reverse (seqZ 0 (size * size)).

(** * What the claims speak of *)

(** ** Boards and their cells *)

(** The grid of a board is [size] rows of [size] cells. *)
Definition wf (b : Board) : Prop :=
  0 ≤ size b ∧
  length (state b) = Z.to_nat (size b) ∧
  Forall (λ row, length row = Z.to_nat (size b)) (state b).

(** A valid board: a non-empty grid holding each of [0 .. size²-1] once. *)
Definition valid (b : Board) : Prop :=
  wf b ∧ 0 < size b ∧ concat (state b) ≡ₚ seqZ 0 (size b * size b).

(** Validity as a check that computes. *)
Definition validb (b : Board) : bool :=
  bool_decide (0 < size b ∧
               length (state b) = Z.to_nat (size b) ∧
               Forall (λ row, length row = Z.to_nat (size b)) (state b) ∧
               NoDup (concat (state b)) ∧
               Forall (λ v, 0 ≤ v < size b * size b) (concat (state b))).

(** The tile at a cell, for reading a grid in statements. *)
Definition tile (b : Board) (i j : Z) : Z := default 0 (cell b i j).

(** All cells of an [n]×[n] grid, row by row. *)
Definition cells (n : Z) : list (Z * Z) :=
  seqZ 0 n ≫= λ i, pair i <$> seqZ 0 n.

(** A cell of an [n]×[n] grid. *)
Definition in_grid (n : Z) (p : Z * Z) : Prop := 0 ≤ p.1 < n ∧ 0 ≤ p.2 < n.

Global Instance in_grid_dec n p : Decision (in_grid n p).
Proof. unfold in_grid. apply _. Defined.

(** Where a cell lies in an [n]×[n] grid. *)
Definition on_border (n k : Z) : Prop := k = 0 ∨ k = n - 1.
Definition corner (n : Z) (p : Z * Z) : Prop := on_border n p.1 ∧ on_border n p.2.
Definition edge (n : Z) (p : Z * Z) : Prop :=
  (on_border n p.1 ∧ ¬ on_border n p.2) ∨ (¬ on_border n p.1 ∧ on_border n p.2).
Definition interior (n : Z) (p : Z * Z) : Prop := ¬ on_border n p.1 ∧ ¬ on_border n p.2.

(** The tiles of a board as one list, row by row. *)
Definition tiles (b : Board) : list Z :=
  (λ c, tile b c.1 c.2) <$> cells (size b).

(** The board whose cell number [k] (counting row by row) holds [f k]. *)
Definition grid_of (f : Z → Z) (n : Z) : Board :=
  mkBoard n ((λ i, (λ j, f (i * n + j)) <$> seqZ 0 n) <$> seqZ 0 n).

(** The canonical board of size [n], as [NewBoard] builds it: cell [k]
    holds the tile [k]. *)
Definition canonical (n : Z) : Board := grid_of (λ k, k) n.

(** The canonical board with every tile moved one cell back: cell [k] holds
    [k + 1], and the last cell holds the blank. *)
Definition shifted (n : Z) : Board :=
  grid_of (λ k, (k + 1) `mod` (n * n)) n.

(** The rows [Copy] builds: row [i] of the board, cut or filled with 0 to
    the size of the board. *)
Definition copied_rows (b : Board) : list (list Z) :=
  (λ i, copy_into (replicate (Z.to_nat (size b)) 0)
                  (default [] (at_index (state b) i))) <$> seqZ 0 (size b).

(** ** Counting cells *)

Fixpoint sumZ {A} (f : A → Z) (l : list A) : Z :=
  match l with
  | [] => 0
  | x :: l' => f x + sumZ f l'
  end.

Definition count_if {A} (p : A → bool) (l : list A) : Z :=
  sumZ (λ x, if p x then 1 else 0) l.

(** A cell that counts towards the diff: [b] holds a tile other than the
    blank there, and [t] holds something else. *)
Definition off_target (b t : Board) (c : Z * Z) : bool :=
  bool_decide (tile b c.1 c.2 ≠ 0 ∧ tile b c.1 c.2 ≠ tile t c.1 c.2).

Definition diff_count (b t : Board) : Z :=
  count_if (off_target b t) (cells (size b)).

(** The number of blanks on a board. *)
Definition blanks (b : Board) : Z :=
  count_if (λ c, bool_decide (tile b c.1 c.2 = 0)) (cells (size b)).

(** ** Neighbours *)

(** The four directions in the order [FindNeighbors] tries them: up, down,
    left, right. *)
Definition directions (p : Z * Z) : list (Z * Z) :=
  [(p.1 - 1, p.2); (p.1 + 1, p.2); (p.1, p.2 - 1); (p.1, p.2 + 1)].

(** [c] is [b] with the tiles of the cells [p] and [q] exchanged. *)
Definition swap_of (b : Board) (p q : Z * Z) (c : Board) : Prop :=
  wf c ∧ size c = size b ∧
  ∀ r s, tile c r s =
         if decide ((r, s) = q) then tile b p.1 p.2
         else if decide ((r, s) = p) then tile b q.1 q.2
         else tile b r s.

(** The exchange of the cells [p] and [q]. *)
Definition transpose (p q c : Z * Z) : Z * Z :=
  if decide (c = q) then p else if decide (c = p) then q else c.

(** ** Runs of the searches *)

(** [k] is the first position of [ds] that holds the least value of [ds]. *)
Definition first_min (ds : list Z) (k : nat) : Prop :=
  ∃ d, ds !! k = Some d ∧
       (∀ k' d', ds !! k' = Some d' → d ≤ d') ∧
       (∀ k' d', (k' < k)%nat → ds !! k' = Some d' → d < d').

(** Along [tr] each board has a strictly smaller diff against [target] than
    the board before it. *)
Definition decreasing (target : Board) (tr : list Board) : Prop :=
  ∀ k c c' d d', tr !! k = Some c → tr !! S k = Some c' →
                 DiffN c target = Some d → DiffN c' target = Some d' → d' < d.

(** What [hc_terminates] establishes of a run from [b]. *)
Definition hc_run (target b : Board) (m moves : nat) (tr : list Board) (e : Board)
  : Prop :=
  (moves ≤ m)%nat ∧
  (∀ fuel, (moves < fuel)%nat →
     hc_loop fuel (Some b) target = Returned [diff_count e target] ∧
     trajectory fuel b target = tr) ∧
  length tr = S moves ∧ head tr = Some b ∧ last tr = Some e ∧
  Forall (λ c, valid c ∧ size c = size b) tr ∧
  (∀ k c c', tr !! k = Some c → tr !! S k = Some c' →
             diff_count c' target < diff_count c target).

(** What [hc_climb] establishes of a run from [b]: it makes [moves] moves,
    each lowering the diff by one, and stops on the board [e], whose
    neighbours [ns] do not score below it. *)
Definition hc_climbs (target b : Board) (moves : nat) (e : Board) (ns : list Board)
  : Prop :=
  (∀ fuel, (moves < fuel)%nat →
     hc_loop fuel (Some b) target = Returned [diff_count e target] ∧
     length (trajectory fuel b target) = S moves ∧
     last (trajectory fuel b target) = Some e) ∧
  (∀ fuel, (fuel ≤ moves)%nat → hc_loop fuel (Some b) target = Unfinished) ∧
  valid e ∧ size e = size b ∧
  diff_count e target = diff_count b target - Z.of_nat moves ∧
  FindNeighbors e 0 = Some ns ∧
  Forall (λ c, valid c ∧ size c = size b ∧
               diff_count e target ≤ diff_count c target) ns.

(** The current board of an annealing run is a valid board of size [n]. *)
Definition sa_ok (n : Z) (s : sa_state) : Prop :=
  valid (currentBoard s) ∧ size (currentBoard s) = n.

(** The invariant of an annealing run against [objective] from a board
    whose diff is [d0]: the current board is a valid board of the size of
    the objective, [currentDiff] is its diff, and the running minimum lies
    between 0 and both the current and the start diff. *)
Definition sa_inv (objective : Board) (d0 : Z) (s : sa_state) : Prop :=
  sa_ok (size objective) s ∧
  currentDiff s = diff_count (currentBoard s) objective ∧
  0 ≤ minDiff s ≤ currentDiff s ∧ minDiff s ≤ d0.

(** ** The history of an annealing run *)

(** One step of the inner loop of [MinDiffSA] as the history records it:
    the candidate board drawn, its diff against the objective, and whether
    [AcceptCandidate] took it. *)
Definition sa_step `{Float64Ops F, Rand G F}
    (p : SimulatedAnnealParams F) (t : F) (sg : sa_state * G)
  : option (Board * Z * bool) :=
  '(candidateBoard, g) ← FindNeighborRand (currentBoard sg.1) 0 sg.2;
  c ← candidateBoard;
  d ← DiffN c (Objective p);
  Some (c, d, (AcceptCandidate (currentDiff sg.1) d t g).1).

(** The steps of one inner loop, from the state [sg]. *)
Fixpoint inner_history `{Float64Ops F, Rand G F}
    (p : SimulatedAnnealParams F) (t : F) (l : list Z) (sg : sa_state * G)
  : list (Board * Z * bool) :=
  match l with
  | [] => []
  | i :: l' =>
      match sa_step p t sg, sa_inner p t i sg with
      | Some e, Some sg' => e :: inner_history p t l' sg'
      | _, _ => []
      end
  end.

(** The steps of a run, temperature level by temperature level, as
    [sa_loop] goes through them. *)
Fixpoint sa_history `{Float64Ops F, Rand G F} (fuel : nat)
    (p : SimulatedAnnealParams F) (clock : nat → Z)
    (k : nat) (t : F) (s : sa_state) (g : G) : list (Board * Z * bool) :=
  match fuel with
  | O => []
  | S fuel =>
      if f_lt (TemperatureMin p) t then
        inner_history p t (seqZ 0 (Iterations p)) (s, g) ++
        match for_range (Iterations p) (sa_inner p t) (s, g) with
        | Some (s, g) =>
            if bool_decide (clock k > MaxTime p) then []
            else sa_history fuel p clock (S k) (f_mul t (Alpha p)) s g
        | None => []
        end
      else []
  end.

(** The diffs scored in a history, and the last candidate accepted in it
    with its diff: the start board [b] with its diff [d0] when none was. *)
Definition scored (h : list (Board * Z * bool)) : list Z := (λ e, e.1.2) <$> h.

Definition last_accepted (b : Board) (d0 : Z) (h : list (Board * Z * bool))
  : Board * Z :=
  default (b, d0) (last (fst <$> filter (λ e, e.2 = true) h)).

(** The state [s] of a run from [b], of diff [d0], after the history [h]:
    the current board is the last candidate accepted, [currentDiff] is its
    diff, and [minDiff] is the least diff scored. *)
Definition sa_after {F} (p : SimulatedAnnealParams F) (b : Board) (d0 : Z)
    (h : list (Board * Z * bool)) (s : sa_state) : Prop :=
  (currentBoard s, currentDiff s) = last_accepted b d0 h ∧
  DiffN (currentBoard s) (Objective p) = Some (currentDiff s) ∧
  minDiff s ∈ d0 :: scored h ∧
  Forall (λ d, minDiff s ≤ d) (d0 :: scored h).

(** ** States of an experiment *)

(** Goroutine [p] has a value to send and the buffer is full. *)
Definition blocked_send (σ : experiment) (p : nat) : Prop :=
  ∃ v rest, pending σ !! p = Some (v :: rest) ∧
            capacity σ ≤ Z.of_nat (length (buffer σ)).

(** The values still to be sent, and the sum of the histogram. *)
Definition unsent (σ : experiment) : Z :=
  sumZ (λ l : list Z, Z.of_nat (length l)) (pending σ).

Definition hist_total (diffs : gmap Z Z) : Z :=
  map_fold (λ _ v acc, v + acc) 0 diffs.

(** Every value in the buffer or still to be sent is a key of the
    histogram of a board size whose square is [N]. *)
Definition values_in_range (N : Z) (σ : experiment) : Prop :=
  Forall (λ v, 0 ≤ v < N) (buffer σ) ∧
  Forall (Forall (λ v, 0 ≤ v < N)) (pending σ).

(** * An environment to run the searches in

    Rationals for float64, with a rational function in the place of
    [math.Exp], and a tape of numbers for the generator. The theorems hold
    for every environment; this one serves to evaluate the model. *)

Definition Q_exp (x : Q) : Q := (1 / (1 - x))%Q.

#[global] Program Instance Q_float : Float64Ops Q := {|
  f_zero := 0%Q;
  f_one := 1%Q;
  f_eq := Qeq_bool;
  f_lt x y := negb (Qle_bool y x);
  f_of_int := inject_Z;
  f_neg := Qopp;
  f_div := Qdiv;
  f_mul := Qmult;
  f_exp := Q_exp;
|}.
Next Obligation.
  intros x y Hlt. apply negb_true_iff in Hlt.
  destruct (Qeq_bool y x) eqn:Heq; [|done].
  apply Qeq_bool_iff in Heq.
  assert (Qle_bool y x = true) as Hle; [|congruence].
  apply Qle_bool_iff. rewrite Heq. apply Qle_refl.
Qed.

Definition tape_Intn (n : Z) (g : list Z) : option (Z * list Z) :=
  if bool_decide (0 < n) then Some (hd 0 g `mod` n, tl g) else None.

Definition tape_Float64 (g : list Z) : Q * list Z :=
  (Qmake (hd 0 g `mod` 1000) 1000, tl g).

#[global] Program Instance tape_rand : Rand (list Z) Q := {|
  rand_Intn := tape_Intn;
  rand_Float64 := tape_Float64;
|}.
Next Obligation.
  intros n g k g'. unfold tape_Intn. case_bool_decide; [|done].
  intros [= <- _]. by apply Z.mod_pos_bound.
Qed.
Next Obligation.
  intros n g Hn. unfold tape_Intn. by rewrite bool_decide_true.
Qed.

(** Parameters for sample runs: two temperature levels of three steps. *)
Definition sample_params (objective : Board) : SimulatedAnnealParams Q :=
  mkParams objective (1 # 4)%Q (1 # 2)%Q 3 10.

(** The parameters of [RunSimAnneal] in the sample environment, and a tape
    of draws. *)
Definition RunSimAnneal_params : SimulatedAnnealParams Q :=
  mkParams (canonical 3) (1 # 100000000000)%Q (99 # 100)%Q 1000 10000000000.

Definition sample_tape (n : Z) : list Z :=
  (λ i, (i * 7919 + 13) `mod` 1009) <$> seqZ 0 n.

(** Sample boards. *)
Definition board_1x1 : Board := mkBoard 1 [[0]].
Definition board_2x2 : Board := mkBoard 2 [[1; 0]; [2; 3]].
Definition board_3x3 : Board := mkBoard 3 [[1; 2; 3]; [4; 0; 5]; [6; 7; 8]].

(** * Proofs *)

(** ** Loops *)

Lemma for_each_app {A S} (l1 l2 : list A) (body : A → S → option S) s :
  for_each (l1 ++ l2) body s = s' ← for_each l1 body s; for_each l2 body s'.
Proof.
  revert s. induction l1 as [|x l1 IH]; intros s; simpl; [done|].
  destruct (body x s); simpl; auto.
Qed.

Lemma for_each_sum {A} (l : list A) (f : A → Z) (body : A → Z → option Z) c :
  (∀ x c, x ∈ l → body x c = Some (c + f x)) →
  for_each l body c = Some (c + sumZ f l).
Proof.
  revert c. induction l as [|x l IH]; intros c Hb; simpl.
  - f_equal. lia.
  - rewrite Hb by left. simpl. rewrite IH.
    + f_equal. lia.
    + intros y c' Hy. apply Hb. by right.
Qed.

Lemma sumZ_app {A} (f : A → Z) l1 l2 : sumZ f (l1 ++ l2) = sumZ f l1 + sumZ f l2.
Proof. induction l1; simpl; lia. Qed.

Lemma sumZ_fmap {A B} (g : A → B) (f : B → Z) l : sumZ f (g <$> l) = sumZ (f ∘ g) l.
Proof. induction l; csimpl; [done|]. by rewrite IHl. Qed.

Lemma sumZ_bind {A B} (g : A → list B) (f : B → Z) l :
  sumZ f (l ≫= g) = sumZ (λ x, sumZ f (g x)) l.
Proof. induction l; csimpl; [done|]. rewrite sumZ_app. lia. Qed.

Lemma sumZ_ext {A} (f g : A → Z) l :
  (∀ x, x ∈ l → f x = g x) → sumZ f l = sumZ g l.
Proof.
  induction l as [|x l IH]; intros H; simpl; [done|].
  rewrite H by left. rewrite IH; [done|]. intros y Hy. apply H. by right.
Qed.

Lemma sumZ_perm {A} (f : A → Z) l1 l2 : l1 ≡ₚ l2 → sumZ f l1 = sumZ f l2.
Proof. induction 1; simpl; lia. Qed.

Lemma sumZ_add {A} (f g : A → Z) l : sumZ (λ x, f x + g x) l = sumZ f l + sumZ g l.
Proof. induction l; simpl; lia. Qed.

Lemma count_if_bounds {A} (p : A → bool) l : 0 ≤ count_if p l ≤ Z.of_nat (length l).
Proof. unfold count_if. induction l as [|x l IH]; simpl; [lia|]. destruct (p x); lia. Qed.

(** ** Reading a well-formed grid *)

Lemma at_index_neg {A} (l : list A) i : ¬ 0 ≤ i → at_index l i = None.
Proof. intros. unfold at_index. by rewrite bool_decide_false. Qed.

Lemma at_index_nonneg {A} (l : list A) i : 0 ≤ i → at_index l i = l !! Z.to_nat i.
Proof. intros. unfold at_index. by rewrite bool_decide_true. Qed.

Lemma at_index_Some {A} (l : list A) i x :
  at_index l i = Some x ↔ 0 ≤ i ∧ l !! Z.to_nat i = Some x.
Proof.
  unfold at_index. case_bool_decide; [tauto|].
  split; [done|]. intros [? _]. lia.
Qed.

Lemma at_index_lt {A} (l : list A) i :
  0 ≤ i < Z.of_nat (length l) → is_Some (at_index l i).
Proof.
  intros H. unfold at_index. rewrite bool_decide_true by lia.
  apply lookup_lt_is_Some. lia.
Qed.

Lemma wf_row b i :
  wf b → 0 ≤ i < size b →
  ∃ row, at_index (state b) i = Some row ∧ length row = Z.to_nat (size b).
Proof.
  intros (Hn & Hlen & Hrows) Hi.
  destruct (at_index_lt (state b) i) as [row Hrow]; [lia|].
  exists row. split; [done|].
  apply at_index_Some in Hrow as [_ Hrow].
  by eapply (Forall_lookup_1 _ _ _ _ Hrows Hrow).
Qed.

Lemma wf_cell b i j :
  wf b → 0 ≤ i < size b → 0 ≤ j < size b → cell b i j = Some (tile b i j).
Proof.
  intros Hwf Hi Hj. unfold tile, cell.
  destruct (wf_row b i Hwf Hi) as (row & -> & Hlen). simpl.
  destruct (at_index_lt row j) as [x ->]; [lia|]. done.
Qed.

(** ** [DiffN] counts the cells that are off target *)

Lemma DiffN_count b t :
  wf b → wf t → size b = size t → DiffN b t = Some (diff_count b t).
Proof.
  intros Hb Ht Hsz. unfold DiffN, diff_count, cells, count_if, for_range.
  rewrite bool_decide_false by (intros ?; done).
  rewrite sumZ_bind.
  erewrite for_each_sum; [done|].
  intros i c Hi. apply elem_of_seqZ in Hi.
  erewrite for_each_sum; [rewrite sumZ_fmap; done|].
  intros j c' Hj. apply elem_of_seqZ in Hj. cbn.
  rewrite (wf_cell b i j) by (done || lia). simpl.
  unfold off_target. simpl.
  case_bool_decide as H0.
  - rewrite bool_decide_false by tauto. f_equal. lia.
  - rewrite (wf_cell t i j) by (done || lia). simpl.
    f_equal. repeat case_bool_decide; tauto || lia.
Qed.

(** ** The tiles of a board as one list *)

Lemma index_fmap {A} (d : A) (l : list A) :
  (λ i, default d (at_index l i)) <$> seqZ 0 (Z.of_nat (length l)) = l.
Proof.
  apply list_eq. intros k. rewrite list_lookup_fmap.
  destruct (decide (k < length l)%nat) as [Hk|Hk].
  - rewrite lookup_seqZ_lt by lia. simpl. unfold at_index.
    rewrite bool_decide_true by lia.
    replace (Z.to_nat (0 + Z.of_nat k)) with k by lia.
    destruct (lookup_lt_is_Some_2 l k Hk) as [x ->]. done.
  - rewrite lookup_seqZ_ge by lia. simpl.
    symmetry. apply lookup_ge_None. lia.
Qed.

Lemma concat_fmap_bind {A B} (g : A → list B) (l : list A) :
  concat (g <$> l) = l ≫= g.
Proof. induction l; csimpl; [done|]. by rewrite IHl. Qed.

Lemma bind_ext_in {A B} (f g : A → list B) (l : list A) :
  (∀ x, x ∈ l → f x = g x) → l ≫= f = l ≫= g.
Proof.
  induction l as [|x l IH]; intros H; csimpl; [done|].
  rewrite H by left. rewrite IH; [done|]. intros y Hy. apply H. by right.
Qed.

Lemma fmap_ext_in' {A B} (f g : A → B) (l : list A) :
  (∀ x, x ∈ l → f x = g x) → f <$> l = g <$> l.
Proof.
  induction l as [|x l IH]; intros H; csimpl; [done|].
  rewrite H by left. rewrite IH; [done|]. intros y Hy. apply H. by right.
Qed.

Lemma fmap_of_bind {A B C} (f : B → C) (g : A → list B) (l : list A) :
  f <$> (l ≫= g) = l ≫= λ x, f <$> g x.
Proof. induction l; csimpl; [done|]. by rewrite fmap_app, IHl. Qed.

Lemma tiles_concat b : wf b → tiles b = concat (state b).
Proof.
  intros Hwf. unfold tiles, cells.
  rewrite fmap_of_bind.
  rewrite <- (index_fmap [] (state b)) at 1.
  rewrite concat_fmap_bind.
  destruct Hwf as (Hn & Hlen & Hrows) eqn:E. clear E.
  rewrite Hlen, Z2Nat.id by done.
  apply bind_ext_in. intros i Hi. apply elem_of_seqZ in Hi.
  destruct (wf_row b i) as (row & Hrow & Hrl); [done|lia|].
  rewrite Hrow. simpl.
  rewrite <- (index_fmap 0 row) at 1.
  rewrite Hrl, Z2Nat.id by done.
  rewrite <- list_fmap_compose.
  apply fmap_ext_in'. intros j Hj. simpl.
  unfold tile, cell. rewrite Hrow. done.
Qed.

Lemma length_cells n : 0 ≤ n → Z.of_nat (length (cells n)) = n * n.
Proof.
  intros Hn. unfold cells.
  assert (∀ l : list Z,
    Z.of_nat (length (l ≫= λ i, pair i <$> seqZ 0 n)) = Z.of_nat (length l) * n) as H.
  { induction l as [|x l IH]; csimpl; [done|].
    rewrite length_app, length_fmap, length_seqZ. lia. }
  rewrite H, length_seqZ. lia.
Qed.

Lemma elem_of_cells n i j : (i, j) ∈ cells n ↔ 0 ≤ i < n ∧ 0 ≤ j < n.
Proof.
  unfold cells. rewrite list_elem_of_bind. split.
  - intros (i' & Hin & Hi'). apply elem_of_seqZ in Hi'.
    apply list_elem_of_fmap in Hin as (j' & Heq & Hj'). apply elem_of_seqZ in Hj'.
    simplify_eq. lia.
  - intros [Hi Hj]. exists i. split.
    + apply list_elem_of_fmap. exists j. split; [done|]. apply elem_of_seqZ. lia.
    + apply elem_of_seqZ. lia.
Qed.

Lemma count_seqZ_below (v m n : Z) :
  v < m → count_if (λ x, bool_decide (x = v)) (seqZ m n) = 0.
Proof.
  intros Hv. unfold count_if.
  rewrite (sumZ_ext _ (λ _, 0)).
  - induction (seqZ m n); simpl; lia.
  - intros x Hx. apply elem_of_seqZ in Hx. rewrite bool_decide_false; [done|lia].
Qed.

Lemma valid_blanks b : valid b → blanks b = 1.
Proof.
  intros (Hwf & Hpos & Hperm). unfold blanks, count_if.
  transitivity (sumZ (λ x, if bool_decide (x = 0) then 1 else 0) (tiles b)).
  { unfold tiles. by rewrite sumZ_fmap. }
  rewrite tiles_concat by done.
  rewrite (sumZ_perm _ _ _ Hperm).
  rewrite seqZ_cons by lia. simpl.
  fold (count_if (λ x, bool_decide (x = 0)) (seqZ (Z.succ 0) (Z.pred (size b * size b)))).
  rewrite count_seqZ_below by lia. done.
Qed.

(** Every cell is off target, or blank, or neither, never both. *)
Lemma diff_count_blanks_le b t :
  0 ≤ size b → diff_count b t + blanks b ≤ size b * size b.
Proof.
  intros Hn. unfold diff_count, blanks, count_if.
  rewrite <- sumZ_add.
  rewrite <- (length_cells (size b)) by done.
  induction (cells (size b)) as [|c l IH]; simpl; [lia|].
  unfold off_target in *. repeat case_bool_decide; lia.
Qed.

Lemma diff_count_self b : diff_count b b = 0.
Proof.
  unfold diff_count, count_if.
  rewrite (sumZ_ext _ (λ _, 0)).
  - induction (cells (size b)); simpl; lia.
  - intros c _. unfold off_target. rewrite bool_decide_false; [done|]. tauto.
Qed.

(** The blank is counted on the receiver only, so the two directions of the
    diff differ by the difference of the numbers of blanks. *)
Lemma diff_count_swap b t :
  size b = size t → diff_count b t + blanks b = diff_count t b + blanks t.
Proof.
  intros Hsz. unfold diff_count, blanks, count_if. rewrite <- Hsz.
  rewrite <- !sumZ_add. apply sumZ_ext. intros c _.
  unfold off_target. repeat case_bool_decide; lia.
Qed.

(** ** Loops that fill a slice cell by cell *)

Lemma for_range_fill_prefix {A} (body : Z → list A → option (list A))
    (g : Z → A) (n : Z) (st0 : list A) (m : nat) :
  length st0 = Z.to_nat n →
  (∀ i st, 0 ≤ i < n → length st = Z.to_nat n →
           body i st = Some (<[Z.to_nat i := g i]> st)) →
  Z.of_nat m ≤ n →
  for_each (seqZ 0 (Z.of_nat m)) body st0
  = Some ((g <$> seqZ 0 (Z.of_nat m)) ++ drop m st0).
Proof.
  intros Hlen Hbody. induction m as [|m IH]; intros Hm.
  - simpl. by rewrite drop_0.
  - rewrite seqZ_S, for_each_app, IH by lia. simpl.
    assert (length ((g <$> seqZ 0 (Z.of_nat m)) ++ drop m st0) = Z.to_nat n) as Hl.
    { rewrite length_app, length_fmap, length_seqZ, length_drop. lia. }
    rewrite Hbody by (lia || done). simpl. f_equal.
    rewrite fmap_app. simpl. rewrite <- (assoc_L (++)). simpl.
    replace (Z.to_nat (0 + Z.of_nat m)) with (length (g <$> seqZ 0 (Z.of_nat m)) + 0)%nat
      by (rewrite length_fmap, length_seqZ; lia).
    rewrite insert_app_r. f_equal.
    destruct (drop m st0) as [|y rest] eqn:Hd.
    { apply (f_equal length) in Hd. rewrite length_drop in Hd. simpl in Hd. lia. }
    simpl. f_equal.
    replace (S m) with (m + 1)%nat by lia.
    rewrite <- (drop_drop st0 1 m), Hd. done.
Qed.

Lemma for_range_fill {A} (body : Z → list A → option (list A))
    (g : Z → A) (n : Z) (st0 : list A) :
  0 ≤ n → length st0 = Z.to_nat n →
  (∀ i st, 0 ≤ i < n → length st = Z.to_nat n →
           body i st = Some (<[Z.to_nat i := g i]> st)) →
  for_range n body st0 = Some (g <$> seqZ 0 n).
Proof.
  intros Hn Hlen Hbody. unfold for_range.
  pose proof (for_range_fill_prefix body g n st0 (Z.to_nat n) Hlen Hbody) as H.
  rewrite Z2Nat.id in H by done. rewrite H by lia.
  rewrite drop_ge by lia. by rewrite app_nil_r.
Qed.

Lemma make_Some {A} (n : Z) (z : A) : 0 ≤ n → make n z = Some (replicate (Z.to_nat n) z).
Proof. intros. unfold make. by rewrite bool_decide_false by lia. Qed.

Lemma at_index_lookup {A} (l : list A) (i : Z) :
  0 ≤ i < Z.of_nat (length l) → ∃ x, at_index l i = Some x ∧ l !! Z.to_nat i = Some x.
Proof.
  intros Hi. destruct (at_index_lt l i Hi) as [x Hx]. exists x. split; [done|].
  by apply at_index_Some in Hx as [_ ?].
Qed.

Lemma copy_into_full {A} (z : A) (n : nat) (src : list A) :
  length src = n → copy_into (replicate n z) src = src.
Proof.
  intros Hl. unfold copy_into. rewrite length_replicate, Hl.
  rewrite drop_ge by (rewrite length_replicate; lia).
  rewrite app_nil_r. apply take_ge. lia.
Qed.

Lemma at_index_insert {A} (l : list A) (i : Z) (x : A) :
  0 ≤ i < Z.of_nat (length l) → at_index (<[Z.to_nat i := x]> l) i = Some x.
Proof.
  intros Hi. rewrite at_index_nonneg by lia. apply list_lookup_insert_eq. lia.
Qed.

(** [Copy] returns a board equal to its receiver. *)
Lemma Copy_wf b : wf b → Copy b = Some b.
Proof.
  intros Hwf. pose proof Hwf as (Hn & Hlen & Hrows). unfold Copy.
  rewrite (make_Some _ ([] : list Z)) by done. simpl.
  rewrite (for_range_fill _ (λ i, default [] (at_index (state b) i))).
  - simpl. replace (seqZ 0 (size b)) with (seqZ 0 (Z.of_nat (length (state b))))
      by (f_equal; lia).
    rewrite index_fmap. by destruct b.
  - done.
  - by rewrite length_replicate.
  - intros i st Hi Hst.
    rewrite make_Some by done. simpl.
    destruct (at_index_lt st i) as [x ->]; [lia|]. simpl.
    rewrite at_index_insert by lia. simpl.
    destruct (wf_row b i Hwf Hi) as (row & -> & Hrl). simpl.
    by rewrite copy_into_full, list_insert_insert_eq.
Qed.

(** ** Early-return loops and [tileIndx] *)

Lemma first_of_pure {A} (l : list Z) (body : Z → option (option A)) (r : Z → option A) :
  (∀ i, i ∈ l → body i = Some (r i)) →
  ∃ res, first_of l body = Some res ∧
    match res with
    | None => ∀ i, i ∈ l → r i = None
    | Some a => ∃ l1 i l2, l = l1 ++ i :: l2 ∧ r i = Some a ∧ ∀ k, k ∈ l1 → r k = None
    end.
Proof.
  induction l as [|i l IH]; intros Hb; simpl.
  - exists None. split; [done|]. intros i Hi. by apply elem_of_nil in Hi.
  - rewrite Hb by left. simpl. destruct (r i) as [a|] eqn:Hri.
    + exists (Some a). split; [done|]. exists [], i, l. split_and!; [done..|].
      intros k Hk. by apply elem_of_nil in Hk.
    + destruct IH as (res & -> & Hres). { intros k Hk. apply Hb. by right. }
      exists res. split; [done|]. destruct res as [a|].
      * destruct Hres as (l1 & k & l2 & -> & Hk & Hl1).
        exists (i :: l1), k, l2. split_and!; [done..|].
        intros k' [->|Hk']%elem_of_cons; auto.
      * intros k [->|Hk]%elem_of_cons; auto.
Qed.

Lemma tileIndx_row_wf b x i :
  wf b → 0 ≤ i < size b →
  ∃ res, tileIndx_row b x i = Some res ∧
    match res with
    | None => ∀ j, 0 ≤ j < size b → tile b i j ≠ x
    | Some a => ∃ j, a = (i, j) ∧ 0 ≤ j < size b ∧ tile b i j = x
    end.
Proof.
  intros Hwf Hi. unfold tileIndx_row.
  destruct (first_of_pure (seqZ 0 (size b))
              (λ j, x' ← cell b i j;
                    Some (if bool_decide (x' = x) then Some (i, j) else None))
              (λ j, if bool_decide (tile b i j = x) then Some (i, j) else None))
    as (res & Hres & Hspec).
  { intros j Hj%elem_of_seqZ. rewrite wf_cell by (done || lia). done. }
  exists res. split; [done|]. destruct res as [a|].
  - destruct Hspec as (l1 & j & l2 & Hl & Hj & _).
    assert (j ∈ seqZ 0 (size b)) as Hjin%elem_of_seqZ.
    { rewrite Hl. apply elem_of_app. right. left. }
    case_bool_decide; [|done]. exists j. split_and!; [congruence|lia..|done].
  - intros j Hj. specialize (Hspec j). rewrite elem_of_seqZ in Hspec.
    specialize (Hspec ltac:(lia)). by case_bool_decide.
Qed.

(** On a well-formed board [tileIndx] finds a cell holding the tile, or
    reports that no cell holds it. *)
Lemma tileIndx_wf b x :
  wf b →
  (tileIndx b x = Some (-1, -1, false) ∧
     ∀ i j, 0 ≤ i < size b → 0 ≤ j < size b → tile b i j ≠ x) ∨
  (∃ i j, tileIndx b x = Some (i, j, true) ∧
     0 ≤ i < size b ∧ 0 ≤ j < size b ∧ tile b i j = x).
Proof.
  intros Hwf. unfold tileIndx.
  destruct (first_of_pure (seqZ 0 (size b)) (tileIndx_row b x)
              (λ i, default None (tileIndx_row b x i)))
    as (res & Hres & Hspec).
  { intros i Hi%elem_of_seqZ.
    destruct (tileIndx_row_wf b x i) as (r & -> & _); [done|lia|done]. }
  rewrite Hres. simpl. destruct res as [[i j]|].
  - right. destruct Hspec as (l1 & i' & l2 & Hl & Hi' & _).
    assert (i' ∈ seqZ 0 (size b)) as Hin%elem_of_seqZ.
    { rewrite Hl. apply elem_of_app. right. left. }
    destruct (tileIndx_row_wf b x i') as (r & Hr & Hrs); [done|lia|].
    rewrite Hr in Hi'. simpl in Hi'.
    subst r. destruct Hrs as (j' & [= -> ->] & Hj' & Ht).
    exists i', j'. split_and!; (done || lia).
  - left. split; [done|]. intros i j Hi Hj.
    specialize (Hspec i). rewrite elem_of_seqZ in Hspec. specialize (Hspec ltac:(lia)).
    destruct (tileIndx_row_wf b x i) as (r & Hr & Hrs); [done|lia|].
    rewrite Hr in Hspec. simpl in Hspec. subst r. by apply Hrs.
Qed.

(** ** Writing a cell *)

Lemma set_cell_spec n st i j v :
  wf (mkBoard n st) → 0 ≤ i < n → 0 ≤ j < n →
  ∃ st', set_cell st i j v = Some st' ∧ wf (mkBoard n st') ∧
    ∀ r s, cell (mkBoard n st') r s =
           if decide ((r, s) = (i, j)) then Some v else cell (mkBoard n st) r s.
Proof.
  intros Hwf Hi Hj. pose proof Hwf as (Hn & Hlen & Hrows). simpl in *.
  destruct (wf_row _ i Hwf Hi) as (row & Hrow & Hrl). simpl in *.
  unfold set_cell. rewrite Hrow. simpl.
  destruct (at_index_lt row j) as [y ->]; [lia|]. simpl.
  eexists. split; [done|]. split.
  - split_and!; simpl; [done| by rewrite length_insert |].
    apply Forall_insert; [done|]. by rewrite length_insert.
  - intros r s. unfold cell. simpl.
    apply at_index_Some in Hrow as [_ Hrow].
    destruct (decide (0 ≤ r)) as [Hr|Hr]; cycle 1.
    { rewrite decide_False by (intros ?; simplify_eq; lia).
      by rewrite !(at_index_neg _ r). }
    destruct (decide (r = i)) as [->|Hri].
    + rewrite !(at_index_nonneg _ i) by done.
      rewrite list_lookup_insert_eq by lia. rewrite Hrow. simpl.
      destruct (decide (s = j)) as [->|Hsj].
      * rewrite decide_True by done. unfold at_index.
        rewrite bool_decide_true by lia. apply list_lookup_insert_eq. lia.
      * rewrite decide_False by congruence. unfold at_index.
        case_bool_decide; [|done]. apply list_lookup_insert_ne. lia.
    + rewrite decide_False by congruence.
      rewrite !(at_index_nonneg _ r) by done.
      rewrite list_lookup_insert_ne by lia. done.
Qed.

(** ** [FindNeighbors] *)

Lemma swap_from_spec b p q :
  wf b → in_grid (size b) p → in_grid (size b) q →
  ∃ c, swap_from b b p.1 p.2 q.1 q.2 = Some c ∧ swap_of b p q c.
Proof.
  destruct b as [n st], p as [i j], q as [i' j'].
  intros Hwf [Hi Hj] [Hi' Hj']. simpl in *.
  unfold swap_from.
  rewrite !wf_cell by done. simpl.
  destruct (set_cell_spec n st i j (tile (mkBoard n st) i' j') Hwf Hi Hj)
    as (st1 & -> & Hwf1 & Hc1). simpl.
  destruct (set_cell_spec n st1 i' j' (tile (mkBoard n st) i j) Hwf1 Hi' Hj')
    as (st2 & -> & Hwf2 & Hc2). simpl.
  eexists. split; [done|]. split_and!; [done..|].
  intros r s. simpl. unfold tile at 1. rewrite Hc2.
  destruct (decide ((r, s) = (i', j'))); [done|].
  rewrite Hc1. destruct (decide ((r, s) = (i, j))); done.
Qed.

Lemma push_neighbor_spec b p q ns :
  wf b → in_grid (size b) p → in_grid (size b) q →
  ∃ c, push_neighbor b p.1 p.2 q.1 q.2 ns = Some (ns ++ [c]) ∧ swap_of b p q c.
Proof.
  intros Hwf Hp Hq. unfold push_neighbor. rewrite Copy_wf by done. simpl.
  destruct (swap_from_spec b p q Hwf Hp Hq) as (c & -> & Hc). eauto.
Qed.

(** The neighbours are the swaps with the in-grid directions, in order. *)
Lemma FindNeighbors_found b x i j :
  wf b → tileIndx b x = Some (i, j, true) → in_grid (size b) (i, j) →
  ∃ ns, FindNeighbors b x = Some ns ∧
        Forall2 (swap_of b (i, j)) (filter (in_grid (size b)) (directions (i, j))) ns.
Proof.
  intros Hwf Hidx [Hi Hj]. simpl in *. unfold FindNeighbors. rewrite Hidx. simpl.
  unfold directions. simpl.
  assert (∀ q ns, in_grid (size b) q →
    ∃ c, push_neighbor b i j q.1 q.2 ns = Some (ns ++ [c]) ∧ swap_of b (i, j) q c) as Hpush.
  { intros q ns Hq. by apply (push_neighbor_spec b (i, j) q ns). }
  rewrite !filter_cons, filter_nil.
  destruct (decide (i - 1 >= 0)), (decide (i + 1 < size b)),
           (decide (j - 1 >= 0)), (decide (j + 1 < size b));
  repeat match goal with
         | H : ?P |- context [bool_decide ?P] => rewrite (bool_decide_true P) by done
         | H : ¬ ?P |- context [bool_decide ?P] => rewrite (bool_decide_false P) by done
         end;
  repeat match goal with
         | |- context [decide (in_grid ?n ?q)] =>
             let G := fresh "G" in
             destruct (decide (in_grid n q)) as [G|G];
             unfold in_grid in G; simpl in G; try lia; clear G
         end;
  repeat (simpl;
          match goal with
          | |- context [push_neighbor b i j ?i' ?j' ?ns] =>
              let c := fresh "c" in let Hc := fresh "Hc" in let E := fresh "E" in
              destruct (Hpush (i', j') ns) as (c & E & Hc);
              [ unfold in_grid; simpl; lia | simpl in E; rewrite E; clear E ]
          end);
  eexists; (split; [done|]);
  repeat (constructor 2; [done|]); constructor 1.
Qed.

Lemma FindNeighbors_missing b x :
  wf b → tileIndx b x = Some (-1, -1, false) → FindNeighbors b x = Some [].
Proof. intros _ Hidx. unfold FindNeighbors. by rewrite Hidx. Qed.

(** ** A swap keeps the multiset of tiles and changes two cells *)

Lemma NoDup_cells n : NoDup (cells n).
Proof.
  unfold cells. apply NoDup_bind.
  - intros i1 i2 c _ _ (j1 & -> & _)%list_elem_of_fmap (j2 & [= -> _] & _)%list_elem_of_fmap.
    done.
  - intros i _. apply NoDup_fmap_2; [|apply NoDup_seqZ]. by intros ?? [= ->].
  - apply NoDup_seqZ.
Qed.

Lemma transpose_involutive p q c : transpose p q (transpose p q c) = c.
Proof. unfold transpose. repeat case_decide; congruence. Qed.

Lemma transpose_cells n p q :
  in_grid n p → in_grid n q → transpose p q <$> cells n ≡ₚ cells n.
Proof.
  intros Hp Hq.
  assert (∀ c, c ∈ cells n → transpose p q c ∈ cells n) as Hin.
  { intros [i j] Hc. unfold transpose. destruct p, q.
    repeat case_decide; [apply elem_of_cells; apply Hp
                        |apply elem_of_cells; apply Hq|done]. }
  apply NoDup_Permutation.
  - apply NoDup_fmap_2_strong; [|apply NoDup_cells].
    intros x y _ _ Hxy. apply (f_equal (transpose p q)) in Hxy.
    by rewrite !transpose_involutive in Hxy.
  - apply NoDup_cells.
  - intros c. rewrite list_elem_of_fmap. split.
    + intros (c' & -> & Hc'). by apply Hin.
    + intros Hc. exists (transpose p q c). split; [by rewrite transpose_involutive|].
      by apply Hin.
Qed.

Lemma swap_of_transpose b p q c r s :
  swap_of b p q c → tile c r s = tile b (transpose p q (r, s)).1 (transpose p q (r, s)).2.
Proof.
  intros (_ & _ & Ht). rewrite Ht. unfold transpose. by repeat case_decide.
Qed.

Lemma swap_of_tiles b p q c :
  in_grid (size b) p → in_grid (size b) q → swap_of b p q c → tiles c ≡ₚ tiles b.
Proof.
  intros Hp Hq Hsw. pose proof Hsw as (_ & Hsz & _). unfold tiles. rewrite Hsz.
  rewrite <- (transpose_cells (size b) p q Hp Hq) at 2.
  rewrite <- list_fmap_compose.
  erewrite fmap_ext_in'; [done|].
  intros [r s] _. simpl. by apply swap_of_transpose.
Qed.

Lemma swap_of_valid b p q c :
  valid b → in_grid (size b) p → in_grid (size b) q → swap_of b p q c → valid c.
Proof.
  intros (Hwf & Hpos & Hperm) Hp Hq Hsw. pose proof Hsw as (Hwfc & Hsz & _).
  split_and!; [done|lia|].
  rewrite <- tiles_concat, (swap_of_tiles b p q c), tiles_concat, Hsz by done. done.
Qed.

Lemma elem_of_tiles b v :
  v ∈ tiles b ↔ ∃ i j, 0 ≤ i < size b ∧ 0 ≤ j < size b ∧ tile b i j = v.
Proof.
  unfold tiles. rewrite list_elem_of_fmap. split.
  - intros ([i j] & -> & Hc%elem_of_cells). exists i, j. simpl. tauto.
  - intros (i & j & Hi & Hj & <-). exists (i, j). split; [done|].
    by apply elem_of_cells.
Qed.

Lemma NoDup_fmap_inj_on {A B} (f : A → B) (l : list A) x y :
  NoDup (f <$> l) → x ∈ l → y ∈ l → f x = f y → x = y.
Proof.
  intros Hnd [i Hi]%list_elem_of_lookup [k Hk]%list_elem_of_lookup Hxy.
  assert (i = k) as ->; [|congruence].
  apply (NoDup_lookup (f <$> l) i k (f x) Hnd).
  - by rewrite list_lookup_fmap, Hi.
  - by rewrite list_lookup_fmap, Hk, Hxy.
Qed.

Lemma valid_NoDup_tiles b : valid b → NoDup (tiles b).
Proof.
  intros (Hwf & _ & Hperm). rewrite tiles_concat, Hperm by done. apply NoDup_seqZ.
Qed.

(** On a valid board different cells hold different tiles. *)
Lemma valid_tile_inj b p q :
  valid b → in_grid (size b) p → in_grid (size b) q →
  tile b p.1 p.2 = tile b q.1 q.2 → p = q.
Proof.
  intros Hv Hp Hq Heq.
  apply (NoDup_fmap_inj_on (λ c, tile b c.1 c.2) (cells (size b))).
  - by apply valid_NoDup_tiles.
  - destruct p. by apply elem_of_cells.
  - destruct q. by apply elem_of_cells.
  - done.
Qed.

(** A swap of two different cells changes exactly those two cells. *)
Lemma swap_of_differs b p q c r s :
  valid b → in_grid (size b) p → in_grid (size b) q → p ≠ q →
  swap_of b p q c → in_grid (size b) (r, s) →
  tile c r s ≠ tile b r s ↔ (r, s) = p ∨ (r, s) = q.
Proof.
  intros Hv Hp Hq Hpq (_ & _ & Ht) Hrs. rewrite Ht.
  destruct (decide ((r, s) = q)) as [E|Hq'].
  { split; [tauto|]. intros _ Heq. apply Hpq. apply (valid_tile_inj b); [done..|].
    by rewrite Heq, <- E. }
  destruct (decide ((r, s) = p)) as [E|Hp'].
  { split; [tauto|]. intros _ Heq. apply Hpq. symmetry. apply (valid_tile_inj b); [done..|].
    by rewrite Heq, <- E. }
  split; [done|]. tauto.
Qed.

Lemma valid_elem_of b v : valid b → v ∈ concat (state b) ↔ 0 ≤ v < size b * size b.
Proof. intros (_ & _ & ->). rewrite elem_of_seqZ. lia. Qed.

(** ** Checking validity, and the canonical board *)

Lemma length_tiles b : 0 ≤ size b → Z.of_nat (length (tiles b)) = size b * size b.
Proof. intros. unfold tiles. rewrite length_fmap. by apply length_cells. Qed.

Lemma validb_valid b : validb b = true → valid b.
Proof.
  unfold validb. intros (Hpos & Hlen & Hrows & Hnd & Hrange)%bool_decide_eq_true.
  assert (wf b) as Hwf by (split_and!; (done || lia)).
  split_and!; [done..|].
  apply submseteq_length_Permutation.
  - apply NoDup_submseteq; [done|]. intros v Hv. apply elem_of_seqZ.
    rewrite Forall_forall in Hrange. specialize (Hrange v Hv). lia.
  - rewrite length_seqZ, <- tiles_concat by done.
    pose proof (length_tiles b). lia.
Qed.

Lemma grid_of_concat (f : Z → Z) (n : Z) (m : nat) :
  0 ≤ n →
  concat ((λ i, (λ j, f (i * n + j)) <$> seqZ 0 n) <$> seqZ 0 (Z.of_nat m))
  = f <$> seqZ 0 (Z.of_nat m * n).
Proof.
  intros Hn. induction m as [|m IH]; [done|].
  rewrite seqZ_S, fmap_app, concat_app, IH. simpl. rewrite app_nil_r.
  replace (Z.of_nat (S m) * n) with (Z.of_nat m * n + n) by lia.
  rewrite seqZ_app, fmap_app by lia. f_equal.
  replace (0 + Z.of_nat m * n) with (Z.of_nat m * n + 0) by lia.
  rewrite <- (fmap_add_seqZ (Z.of_nat m * n) 0 n), <- list_fmap_compose.
  apply fmap_ext_in'. intros j _. simpl. f_equal; lia.
Qed.

Lemma grid_of_wf (f : Z → Z) n : 0 ≤ n → wf (grid_of f n).
Proof.
  intros Hn. split_and!; simpl; [done| by rewrite length_fmap, length_seqZ |].
  apply Forall_fmap, Forall_forall. intros i _. simpl.
  by rewrite length_fmap, length_seqZ.
Qed.

Lemma grid_of_tiles f n : 0 ≤ n → concat (state (grid_of f n)) = f <$> seqZ 0 (n * n).
Proof.
  intros Hn. simpl. pose proof (grid_of_concat f n (Z.to_nat n) Hn) as H.
  by rewrite Z2Nat.id in H by done.
Qed.

Lemma at_index_fmap_seqZ {A} (g : Z → A) n i :
  0 ≤ i < n → at_index (g <$> seqZ 0 n) i = Some (g i).
Proof.
  intros Hi. rewrite at_index_nonneg, list_lookup_fmap by lia.
  rewrite lookup_seqZ_lt by lia. simpl. f_equal. f_equal. lia.
Qed.

Lemma grid_of_tile f n i j :
  0 ≤ i < n → 0 ≤ j < n → tile (grid_of f n) i j = f (i * n + j).
Proof.
  intros Hi Hj. unfold tile, cell, grid_of. simpl.
  rewrite at_index_fmap_seqZ by done. simpl.
  by rewrite at_index_fmap_seqZ by done.
Qed.

Lemma canonical_valid n : 0 < n → valid (canonical n).
Proof.
  intros Hn. unfold canonical. split_and!; [apply grid_of_wf; lia|done|].
  rewrite grid_of_tiles by lia. by rewrite list_fmap_id.
Qed.

Lemma set_cell_row (st : list (list Z)) (i j v : Z) row :
  0 ≤ i → st !! Z.to_nat i = Some row →
  set_cell st i j v
  = _ ← at_index row j; Some (<[Z.to_nat i := <[Z.to_nat j := v]> row]> st).
Proof. intros Hi Hrow. unfold set_cell. by rewrite at_index_nonneg, Hrow by done. Qed.

(** A loop of [set_cell] over the cells of row [i] is a loop over that row. *)
Lemma for_each_set_cell (g : Z → Z) (l : list Z) (st : list (list Z)) (i : Z) row :
  0 ≤ i → st !! Z.to_nat i = Some row →
  for_each l (λ j st, set_cell st i j (g j)) st
  = row' ← for_each l (λ j row, _ ← at_index row j;
                                Some (<[Z.to_nat j := g j]> row)) row;
    Some (<[Z.to_nat i := row']> st).
Proof.
  intros Hi. revert st row. induction l as [|j l IH]; intros st row Hrow; simpl.
  - by rewrite list_insert_id.
  - rewrite (set_cell_row st i j (g j) row) by done.
    destruct (at_index row j) as [y|]; simpl; [|done].
    rewrite (IH _ (<[Z.to_nat j := g j]> row)).
    + destruct (for_each l _ _); simpl; [|done]. by rewrite list_insert_insert_eq.
    + apply list_lookup_insert_eq. by eapply lookup_lt_Some.
Qed.

(** [NewBoard] builds the canonical board; it panics on a negative size. *)
Lemma NewBoard_canonical n : 0 ≤ n → NewBoard n = Some (canonical n).
Proof.
  intros Hn. unfold NewBoard, canonical, grid_of.
  rewrite (make_Some _ ([] : list Z)) by done. simpl.
  rewrite (for_range_fill _ (λ i, (λ j, i * n + j) <$> seqZ 0 n)); [done..| |].
  - by rewrite length_replicate.
  - intros i st Hi Hst. rewrite make_Some by done. simpl.
    destruct (at_index_lt st i) as [x ->]; [lia|]. simpl.
    unfold for_range.
    rewrite (for_each_set_cell (λ j, i * n + j) _ _ i (replicate (Z.to_nat n) 0));
      [|lia|apply list_lookup_insert_eq; lia].
    fold (for_range n (λ j row, _ ← at_index row j;
                                Some (<[Z.to_nat j := i * n + j]> row))
            (replicate (Z.to_nat n) 0)).
    rewrite (for_range_fill _ (λ j, i * n + j)).
    + simpl. by rewrite list_insert_insert_eq.
    + done.
    + by rewrite length_replicate.
    + intros j row Hj Hrow. destruct (at_index_lt row j) as [y ->]; [lia|]. done.
Qed.

Lemma valid_wf b : valid b → wf b.
Proof. by intros (? & _). Qed.

(** The diff of a valid board against a grid of its size. *)
Lemma DiffN_valid_bounds b t :
  valid b → wf t → size t = size b →
  DiffN b t = Some (diff_count b t) ∧ 0 ≤ diff_count b t ≤ size b * size b - 1.
Proof.
  intros Hv Ht Hsz. pose proof Hv as (Hwf & Hpos & _).
  split; [by apply DiffN_count|].
  pose proof (diff_count_blanks_le b t ltac:(lia)) as Hle.
  rewrite (valid_blanks b Hv) in Hle.
  pose proof (count_if_bounds (off_target b t) (cells (size b))) as [H0 _].
  unfold diff_count. unfold diff_count in Hle. lia.
Qed.

(** On valid boards of one size the diff is the same in both directions. *)
Lemma diff_count_sym b t :
  valid b → valid t → size b = size t → diff_count b t = diff_count t b.
Proof.
  intros Hb Ht Hsz. pose proof (diff_count_swap b t Hsz) as H.
  rewrite (valid_blanks b Hb), (valid_blanks t Ht) in H. lia.
Qed.

(** ** The claims about [DiffN] *)

(** C1. On two boards of one size [DiffN] returns the number of cells where
    the boards differ, not counting the cells where the receiver holds the
    blank; the diff of a board against itself is 0; and the diff of a valid
    board of size [n] against a board of its size, the canonical target
    among them, lies between 0 and [n² - 1]. *)
Theorem DiffN_counts_off_target :
  (∀ B T, wf B → wf T → size B = size T → DiffN B T = Some (diff_count B T)) ∧
  (∀ B, wf B → DiffN B B = Some 0) ∧
  (∀ B T, valid B → wf T → size T = size B →
     ∃ d, DiffN B T = Some d ∧ 0 ≤ d ≤ size B * size B - 1) ∧
  (∀ B, valid B →
     ∃ target d, NewBoard (size B) = Some target ∧ DiffN B target = Some d ∧
                 0 ≤ d ≤ size B * size B - 1).
Proof.
  split_and!.
  - apply DiffN_count.
  - intros B HB. rewrite DiffN_count by done. by rewrite diff_count_self.
  - intros B T HB HT Hsz. exists (diff_count B T). by apply DiffN_valid_bounds.
  - intros B HB. pose proof HB as (_ & Hpos & _).
    exists (canonical (size B)), (diff_count B (canonical (size B))).
    split; [apply NewBoard_canonical; lia|].
    apply DiffN_valid_bounds; [done| |done].
    apply valid_wf, canonical_valid. done.
Qed.

Lemma DiffN_counts_off_target_witness :
  DiffN board_2x2 (canonical 2) = Some (diff_count board_2x2 (canonical 2)) ∧
  DiffN board_2x2 board_2x2 = Some 0 ∧
  ∃ d, DiffN board_2x2 (canonical 2) = Some d ∧ 0 ≤ d ≤ 2 * 2 - 1.
Proof.
  destruct DiffN_counts_off_target as (H1 & H2 & H3 & _).
  assert (valid board_2x2) as Hv by (by apply validb_valid).
  assert (wf (canonical 2)) as Ht by (apply valid_wf; by apply validb_valid).
  split_and!.
  - apply H1; [by apply valid_wf|done|done].
  - apply H2. by apply valid_wf.
  - apply (H3 board_2x2 (canonical 2)); done.
Defined.

(** Not C10 as stated: no two valid boards of one size have different
    diffs in the two directions. *)
Lemma DiffN_no_asymmetric_valid_pair :
  ¬ ∃ B T, valid B ∧ valid T ∧ size B = size T ∧ DiffN B T ≠ DiffN T B.
Proof.
  intros (B & T & HB & HT & Hsz & Hne). apply Hne.
  rewrite !DiffN_count by (done || by apply valid_wf).
  f_equal. by apply diff_count_sym.
Qed.

(** C10, amended. [DiffN] skips the cells where its receiver holds the
    blank, so the two directions differ by the difference of the numbers of
    blanks of the two boards: they can differ on grids that are not
    permutation boards, and they are equal on every pair of valid boards of
    one size. *)
Theorem DiffN_symmetric_up_to_blanks :
  (∃ B T, wf B ∧ wf T ∧ size B = size T ∧ DiffN B T ≠ DiffN T B) ∧
  (∀ B T, wf B → wf T → size B = size T →
     ∃ d e, DiffN B T = Some d ∧ DiffN T B = Some e ∧ d + blanks B = e + blanks T) ∧
  (∀ B T, valid B → valid T → size B = size T →
     ∃ d, DiffN B T = Some d ∧ DiffN T B = Some d).
Proof.
  split_and!.
  - exists (mkBoard 1 [[0]]), (mkBoard 1 [[1]]).
    split_and!; [by repeat constructor..|done|]. by vm_compute.
  - intros B T HB HT Hsz. exists (diff_count B T), (diff_count T B).
    rewrite !DiffN_count by done. split_and!; [done..|]. by apply diff_count_swap.
  - intros B T HB HT Hsz. exists (diff_count B T).
    rewrite !DiffN_count by (done || by apply valid_wf).
    split; [done|]. f_equal. symmetry. by apply diff_count_sym.
Qed.

Lemma DiffN_symmetric_up_to_blanks_witness :
  ∃ d, DiffN board_2x2 (canonical 2) = Some d ∧ DiffN (canonical 2) board_2x2 = Some d.
Proof.
  destruct DiffN_symmetric_up_to_blanks as (_ & _ & H).
  apply H; [by apply validb_valid..|done].
Defined.

(** ** The claims about [FindNeighbors] *)

Lemma directions_in_grid_count n p :
  2 ≤ n → in_grid n p →
  let k := length (filter (in_grid n) (directions p)) in
  (corner n p → k = 2%nat) ∧ (edge n p → k = 3%nat) ∧ (interior n p → k = 4%nat) ∧
  (2 ≤ k ≤ 4)%nat.
Proof.
  intros Hn [Hi Hj]. destruct p as [i j]. simpl in *.
  unfold directions, corner, edge, interior, on_border. simpl.
  rewrite !filter_cons, filter_nil.
  repeat match goal with
         | |- context [decide (in_grid ?n ?q)] =>
             let G := fresh "G" in
             destruct (decide (in_grid n q)) as [G|G];
             unfold in_grid in G; simpl in G
         end; simpl; lia.
Qed.

Lemma swap_of_direction_ne p q : q ∈ directions p → p ≠ q.
Proof.
  destruct p as [i j]. unfold directions. simpl.
  rewrite !elem_of_cons, elem_of_nil. intros [->|[->|[->|[->|[]]]]] [=]; lia.
Qed.

(** Not C4 as stated: the only cell of a 1×1 board is a corner, and holds
    the blank, but the board has no neighbour. *)
Lemma FindNeighbors_single_cell :
  valid board_1x1 ∧ 0 ∈ concat (state board_1x1) ∧ corner 1 (0, 0) ∧
  tile board_1x1 0 0 = 0 ∧ FindNeighbors board_1x1 0 = Some [].
Proof.
  split_and!; [by apply validb_valid| by left | by split; left | done | done].
Qed.

(** C4, amended. On a valid board of size at least 2 holding the tile [v],
    [FindNeighbors] returns the boards obtained by exchanging [v]'s cell
    with the cell above, below, left and right of it, in that order,
    leaving out the directions that leave the grid: 2 boards when the cell
    is a corner, 3 on an edge, 4 inside. Each returned board is valid, holds
    the same tiles, and differs from the board in exactly the two exchanged
    cells. When no cell holds [v] the result is empty. *)
Theorem FindNeighbors_valid :
  (∀ B v, valid B → 2 ≤ size B → v ∈ concat (state B) →
     ∃ p ns, in_grid (size B) p ∧ tile B p.1 p.2 = v ∧
       FindNeighbors B v = Some ns ∧
       Forall2 (swap_of B p) (filter (in_grid (size B)) (directions p)) ns ∧
       (corner (size B) p → length ns = 2%nat) ∧
       (edge (size B) p → length ns = 3%nat) ∧
       (interior (size B) p → length ns = 4%nat) ∧
       (2 ≤ length ns ≤ 4)%nat ∧
       Forall (λ c, valid c ∧ concat (state c) ≡ₚ concat (state B) ∧
                    ∃ q, q ∈ directions p ∧ in_grid (size B) q ∧
                      ∀ r s, in_grid (size B) (r, s) →
                        (tile c r s ≠ tile B r s ↔ (r, s) = p ∨ (r, s) = q)) ns) ∧
  (∀ B v, wf B → v ∉ concat (state B) → FindNeighbors B v = Some []).
Proof.
  split.
  - intros B v HB Hn Hv. pose proof (valid_wf B HB) as Hwf.
    destruct (tileIndx_wf B v Hwf) as [[_ Hno]|(i & j & Hidx & Hi & Hj & Ht)].
    { exfalso. rewrite <- tiles_concat in Hv by done.
      apply elem_of_tiles in Hv as (i & j & Hi & Hj & Ht). by apply (Hno i j). }
    assert (in_grid (size B) (i, j)) as Hp by done.
    destruct (FindNeighbors_found B v i j Hwf Hidx Hp) as (ns & Hns & Hsw).
    pose proof (directions_in_grid_count (size B) (i, j) Hn Hp) as Hcount.
    simpl in Hcount. rewrite (Forall2_length _ _ _ Hsw) in Hcount.
    exists (i, j), ns. split_and!; try done; try apply Hcount.
    apply Forall_lookup. intros k c Hc.
    destruct (Forall2_lookup_r _ _ _ _ _ Hsw Hc) as (q & Hq & Hqc).
    apply list_elem_of_lookup_2, list_elem_of_filter in Hq as [Hqg Hqd].
    split_and!.
    + by apply (swap_of_valid B (i, j) q).
    + pose proof Hqc as (Hwfc & _).
      rewrite <- !tiles_concat by done. by apply (swap_of_tiles B (i, j) q).
    + exists q. split_and!; [done..|]. intros r s Hrs.
      apply (swap_of_differs B (i, j) q c r s); try done.
      by apply swap_of_direction_ne.
  - intros B v Hwf Hv.
    destruct (tileIndx_wf B v Hwf) as [[Hidx _]|(i & j & Hidx & Hi & Hj & Ht)].
    { by apply FindNeighbors_missing. }
    exfalso. apply Hv. rewrite <- tiles_concat by done.
    apply elem_of_tiles. eauto.
Qed.

Lemma FindNeighbors_valid_witness :
  ∃ p ns, in_grid 3 p ∧ tile board_3x3 p.1 p.2 = 0 ∧
    FindNeighbors board_3x3 0 = Some ns ∧ (2 ≤ length ns ≤ 4)%nat.
Proof.
  destruct FindNeighbors_valid as [H _].
  destruct (H board_3x3 0) as (p & ns & Hp & Ht & Hns & _ & _ & _ & _ & Hlen & _).
  - by apply validb_valid.
  - done.
  - by vm_compute; repeat constructor.
  - exists p, ns. done.
Defined.

(** ** [NewBoardRand] *)

(** ** Boards are determined by their tiles *)

Lemma wf_state_lookup b (k : nat) :
  wf b → (k < Z.to_nat (size b))%nat →
  ∃ row, state b !! k = Some row ∧ length row = Z.to_nat (size b).
Proof.
  intros Hwf Hk.
  destruct (wf_row b (Z.of_nat k) Hwf) as (row & Hrow & Hlen); [lia|].
  apply at_index_Some in Hrow as [_ Hrow]. rewrite Nat2Z.id in Hrow. eauto.
Qed.

Lemma tile_lookup b (k l : nat) row x :
  state b !! k = Some row → row !! l = Some x →
  tile b (Z.of_nat k) (Z.of_nat l) = x.
Proof.
  intros Hrow Hx. unfold tile, cell.
  rewrite !at_index_nonneg, !Nat2Z.id, Hrow by lia. simpl.
  by rewrite at_index_nonneg, Nat2Z.id, Hx by lia.
Qed.

Lemma board_ext b c :
  wf b → wf c → size b = size c →
  (∀ i j, 0 ≤ i < size b → 0 ≤ j < size b → tile b i j = tile c i j) →
  b = c.
Proof.
  intros Hb Hc Hsz Ht. destruct b as [n st], c as [n' st']. simpl in *. subst n'.
  f_equal. apply list_eq. intros k.
  pose proof Hb as (Hn & Hlen & _). pose proof Hc as (_ & Hlen' & _). simpl in *.
  destruct (decide (k < Z.to_nat n)%nat) as [Hk|Hk]; cycle 1.
  { rewrite !lookup_ge_None_2 by lia. done. }
  destruct (wf_state_lookup _ k Hb Hk) as (row & Hrow & Hrl).
  destruct (wf_state_lookup _ k Hc Hk) as (row' & Hrow' & Hrl').
  simpl in *. rewrite Hrow, Hrow'. f_equal. apply list_eq. intros l.
  destruct (decide (l < Z.to_nat n)%nat) as [Hl|Hl]; cycle 1.
  { rewrite !lookup_ge_None_2 by lia. done. }
  destruct (lookup_lt_is_Some_2 row l) as [x Hx]; [lia|].
  destruct (lookup_lt_is_Some_2 row' l) as [x' Hx']; [lia|].
  rewrite Hx, Hx'. f_equal.
  rewrite <- (tile_lookup (mkBoard n st) k l row x Hrow Hx).
  rewrite <- (tile_lookup (mkBoard n st') k l row' x' Hrow' Hx').
  apply Ht; lia.
Qed.

Lemma fmap_eq_inv {A B} (f g : A → B) (l : list A) :
  f <$> l = g <$> l → ∀ x, x ∈ l → f x = g x.
Proof.
  induction l as [|y l IH]; simpl; intros Heq x Hx.
  - by apply elem_of_nil in Hx.
  - injection Heq as Hy Hl. apply elem_of_cons in Hx as [->|Hx]; [done|by apply IH].
Qed.

(** A well-formed board is determined by its cells read row by row. *)
Lemma wf_concat_eq b c :
  wf b → wf c → size b = size c → concat (state b) = concat (state c) → b = c.
Proof.
  intros Hb Hc Hsz Hcat. apply board_ext; [done..|].
  intros i j Hi Hj.
  rewrite <- !tiles_concat in Hcat by done. unfold tiles in Hcat. rewrite <- Hsz in Hcat.
  apply (fmap_eq_inv _ _ _ Hcat (i, j)). by apply elem_of_cells.
Qed.

Lemma concat_chunks {A} (l : list A) (n : Z) (m : nat) :
  0 ≤ n →
  concat ((λ i, take (Z.to_nat (i * n + n - i * n)) (drop (Z.to_nat (i * n)) l))
            <$> seqZ 0 (Z.of_nat m))
  = take (m * Z.to_nat n) l.
Proof.
  intros Hn. induction m as [|m IH]; [done|].
  rewrite seqZ_S, fmap_app, concat_app, IH. simpl. rewrite app_nil_r.
  replace (Z.to_nat ((0 + Z.of_nat m) * n + n - (0 + Z.of_nat m) * n))
    with (Z.to_nat n) by lia.
  replace (Z.to_nat ((0 + Z.of_nat m) * n)) with (m * Z.to_nat n)%nat by lia.
  rewrite take_take_drop. f_equal. lia.
Qed.

Lemma NewBoardRand_rows n pieces :
  0 ≤ n → Z.of_nat (length pieces) = n * n →
  ∃ b, NewBoardRand n pieces = Some b ∧ size b = n ∧ wf b ∧ concat (state b) = pieces.
Proof.
  intros Hn Hlen. unfold NewBoardRand.
  rewrite (make_Some _ ([] : list Z)) by done. simpl.
  rewrite (for_range_fill _
    (λ i, take (Z.to_nat (i * n + n - i * n)) (drop (Z.to_nat (i * n)) pieces)));
    [|done| by rewrite length_replicate |].
  - simpl. eexists. split; [done|]. split_and!; simpl.
    + done.
    + split_and!; simpl; [done| by rewrite length_fmap, length_seqZ |].
      apply Forall_fmap, Forall_forall. intros i Hi%elem_of_seqZ. simpl.
      rewrite length_take, length_drop. nia.
    + pose proof (concat_chunks pieces n (Z.to_nat n) Hn) as H.
      rewrite Z2Nat.id in H by done. rewrite H. apply take_ge. nia.
  - intros i st Hi Hst. unfold slice.
    rewrite bool_decide_true by nia. simpl.
    destruct (at_index_lt st i) as [x ->]; [lia|]. done.
Qed.

(** Not C8 as stated: size 0 is not positive, and [NewBoardRand] succeeds on
    it, with the empty permutation that [rand.Perm(0)] returns. *)
Lemma NewBoardRand_zero_succeeds :
  ¬ (0 > 0) ∧ NewBoardRand 0 [] = Some (mkBoard 0 []).
Proof. split; [lia|done]. Qed.

(** C8, amended. [NewBoardRand] panics on a negative size, in [make]. On
    every size [n ≥ 0] whose cell count [n²] is at most [math.MaxInt32] (a
    board that fits in memory: [make] and [rand.Perm] stay within what the
    allocator gives and [n*n] does not wrap), given the permutation of
    [0 .. n²-1] that [rand.Perm] drew, it succeeds with a well-formed board
    of that size whose cells, row by row, are that permutation: the empty
    board for [n = 0], a valid permutation board for [n > 0]. Different
    permutations give different boards, and every valid board of size [n]
    is the board of a permutation: the boards are as uniformly random as
    the permutations that [rand.Perm] draws. *)
Theorem NewBoardRand_permutation :
  (∀ n pieces, n < 0 → NewBoardRand n pieces = None) ∧
  (∀ n pieces, 0 ≤ n → n * n ≤ MaxInt32 → pieces ≡ₚ seqZ 0 (n * n) →
     ∃ b, NewBoardRand n pieces = Some b ∧ size b = n ∧ wf b ∧
          concat (state b) = pieces ∧ (0 < n → valid b)) ∧
  (∀ n p1 p2, 0 ≤ n → n * n ≤ MaxInt32 →
     p1 ≡ₚ seqZ 0 (n * n) → p2 ≡ₚ seqZ 0 (n * n) →
     NewBoardRand n p1 = NewBoardRand n p2 → p1 = p2) ∧
  (∀ n b, 0 < n → n * n ≤ MaxInt32 → valid b → size b = n →
     ∃ pieces, pieces ≡ₚ seqZ 0 (n * n) ∧ NewBoardRand n pieces = Some b).
Proof.
  assert (∀ n pieces, 0 ≤ n → pieces ≡ₚ seqZ 0 (n * n) →
            ∃ b, NewBoardRand n pieces = Some b ∧ size b = n ∧ wf b ∧
                 concat (state b) = pieces) as Hrows.
  { intros n pieces Hn Hperm. apply NewBoardRand_rows; [done|].
    rewrite Hperm, length_seqZ. nia. }
  split_and!.
  - intros n pieces Hn. unfold NewBoardRand, make. by rewrite bool_decide_true.
  - intros n pieces Hn _ Hperm.
    destruct (Hrows n pieces Hn Hperm) as (b & Hb & Hsz & Hwf & Hcat).
    exists b. split_and!; [done..|]. intros Hpos.
    split_and!; [done|lia|]. by rewrite Hcat, Hsz.
  - intros n p1 p2 Hn _ Hp1 Hp2 Heq.
    destruct (Hrows n p1 Hn Hp1) as (b1 & Hb1 & _ & _ & Hcat1).
    destruct (Hrows n p2 Hn Hp2) as (b2 & Hb2 & _ & _ & Hcat2).
    rewrite Hb1, Hb2 in Heq. injection Heq as <-. congruence.
  - intros n b Hn _ Hv Hsz. pose proof Hv as (Hwf & _ & Hperm).
    rewrite Hsz in Hperm. exists (concat (state b)). split; [done|].
    destruct (Hrows n (concat (state b)) ltac:(lia) Hperm)
      as (b' & Hb' & Hsz' & Hwf' & Hcat').
    rewrite Hb'. f_equal. apply wf_concat_eq; [done|done|congruence|done].
Qed.

Lemma NewBoardRand_permutation_witness :
  NewBoardRand (-1) [] = None ∧
  (∃ b, NewBoardRand 2 [3; 1; 0; 2] = Some b ∧ size b = 2 ∧ wf b ∧
        concat (state b) = [3; 1; 0; 2] ∧ (0 < 2 → valid b)) ∧
  ∃ pieces, pieces ≡ₚ seqZ 0 (2 * 2) ∧ NewBoardRand 2 pieces = Some board_2x2.
Proof.
  destruct NewBoardRand_permutation as (H1 & H2 & _ & H4). split_and!.
  - apply H1. lia.
  - apply H2; [lia|by vm_compute|].
    change (seqZ 0 (2 * 2)) with [0; 1; 2; 3].
    apply NoDup_Permutation.
    + apply (bool_decide_unpack (NoDup [3; 1; 0; 2])). by vm_compute.
    + apply (bool_decide_unpack (NoDup [0; 1; 2; 3])). by vm_compute.
    + intros x. rewrite !elem_of_cons, !elem_of_nil. lia.
  - apply H4; [lia|by vm_compute|by apply validb_valid|reflexivity].
Defined.

(** ** Hill climbing *)

Lemma first_min_unique ds k1 k2 : first_min ds k1 → first_min ds k2 → k1 = k2.
Proof.
  intros (d1 & H1 & Hmin1 & Hfst1) (d2 & H2 & Hmin2 & Hfst2).
  destruct (Nat.lt_trichotomy k1 k2) as [Hlt|[->|Hlt]]; [|done|].
  - pose proof (Hfst2 k1 d1 Hlt H1). pose proof (Hmin1 k2 d2 H2). lia.
  - pose proof (Hfst1 k2 d2 Hlt H2). pose proof (Hmin2 k1 d1 H1). lia.
Qed.

(** The neighbours of the blank on a valid board. *)
Lemma FindNeighbors_blank b :
  valid b →
  ∃ ns, FindNeighbors b 0 = Some ns ∧
        Forall (λ c, valid c ∧ size c = size b ∧ ∃ p q, swap_of b p q c) ns ∧
        (2 ≤ size b → (2 ≤ length ns)%nat).
Proof.
  intros Hv. pose proof Hv as (Hwf & Hpos & Hperm).
  destruct (tileIndx_wf b 0 Hwf) as [[_ Hno]|(i & j & Hidx & Hi & Hj & Ht)].
  { exfalso. assert (0 ∈ tiles b) as H0.
    { rewrite tiles_concat, Hperm by done. apply elem_of_seqZ. nia. }
    apply elem_of_tiles in H0 as (i & j & Hi & Hj & Ht). by apply (Hno i j). }
  assert (in_grid (size b) (i, j)) as Hp by done.
  destruct (FindNeighbors_found b 0 i j Hwf Hidx Hp) as (ns & Hns & Hsw).
  exists ns. split_and!; [done| |].
  - apply Forall_lookup. intros k c Hc.
    destruct (Forall2_lookup_r _ _ _ _ _ Hsw Hc) as (q & Hq & Hqc).
    apply list_elem_of_lookup_2, list_elem_of_filter in Hq as [Hqg Hqd].
    split_and!; [by apply (swap_of_valid b (i, j) q)|apply Hqc|by exists (i, j), q].
  - intros Hn. rewrite <- (Forall2_length _ _ _ Hsw).
    apply (directions_in_grid_count (size b) (i, j) Hn Hp).
Qed.

Lemma FindNeighbors_blank_valid b :
  valid b →
  ∃ ns, FindNeighbors b 0 = Some ns ∧
        Forall (λ c, valid c ∧ size c = size b) ns ∧
        (2 ≤ size b → (2 ≤ length ns)%nat).
Proof.
  intros Hv. destruct (FindNeighbors_blank b Hv) as (ns & Hns & Hall & Hlen).
  exists ns. split_and!; [done| |done].
  eapply Forall_impl; [exact Hall|]. by intros c (? & ? & _).
Qed.

(** The scan keeps the least diff seen so far and the first board that
    reached it. *)
Lemma best_scan (target : Board) (f : Board → Z) (l : list Board)
    (nb : option Board) (h : Z) :
  (∀ c, c ∈ l → DiffN c target = Some (f c)) →
  ∃ nb' h', for_each l (scan_candidate target) (nb, h) = Some (nb', h') ∧
    ((h' = h ∧ nb' = nb ∧ ∀ c, c ∈ l → h ≤ f c) ∨
     (h' < h ∧ ∃ k c, l !! k = Some c ∧ f c = h' ∧ nb' = Some c ∧
        (∀ c', c' ∈ l → h' ≤ f c') ∧
        (∀ k' c', (k' < k)%nat → l !! k' = Some c' → h' < f c'))).
Proof.
  revert nb h. induction l as [|c l IH]; intros nb h Hf.
  - exists nb, h. split; [done|]. left. split_and!; [done..|].
    intros c Hc. by apply elem_of_nil in Hc.
  - simpl. rewrite (Hf c) by left. simpl.
    assert (∀ c', c' ∈ l → DiffN c' target = Some (f c')) as Hf'.
    { intros c' Hc'. apply Hf. by right. }
    case_bool_decide as Hlt.
    + destruct (IH (Some c) (f c) Hf') as (nb' & h' & -> & Hcase).
      exists nb', h'. split; [done|]. right.
      destruct Hcase as [(-> & -> & Hall)|(Hlt' & k & c' & Hk & Hfc & -> & Hall & Hfst)].
      * split; [done|]. exists 0%nat, c. split_and!; [done..| |].
        -- intros c' [->|Hc']%elem_of_cons; [lia|by apply Hall].
        -- intros k' c' Hk'. lia.
      * split; [lia|]. exists (S k), c'. split_and!; [done..| |].
        -- intros c'' [->|Hc'']%elem_of_cons; [lia|by apply Hall].
        -- intros [|k'] c'' Hk' Hc''; simpl in Hc''.
           ++ simplify_eq. lia.
           ++ apply (Hfst k'); [lia|done].
    + destruct (IH nb h Hf') as (nb' & h' & -> & Hcase).
      exists nb', h'. split; [done|].
      destruct Hcase as [(-> & -> & Hall)|(Hlt' & k & c' & Hk & Hfc & -> & Hall & Hfst)].
      * left. split_and!; [done..|].
        intros c' [->|Hc']%elem_of_cons; [lia|by apply Hall].
      * right. split; [done|]. exists (S k), c'. split_and!; [done..| |].
        -- intros c'' [->|Hc'']%elem_of_cons; [lia|by apply Hall].
        -- intros [|k'] c'' Hk' Hc''; simpl in Hc''.
           ++ simplify_eq. lia.
           ++ apply (Hfst k'); [lia|done].
Qed.

Lemma MaxInt32_above b t :
  valid b → size b * size b ≤ MaxInt32 → diff_count b t < MaxInt32.
Proof.
  intros Hv Hsz. pose proof Hv as (Hwf & Hpos & _).
  pose proof (diff_count_blanks_le b t ltac:(lia)) as Hle.
  rewrite (valid_blanks b Hv) in Hle. lia.
Qed.

Lemma hc_loop_S fuel cur target :
  hc_loop (S fuel) cur target =
  match hc_iter cur target with
  | None => Panicked
  | Some (Emit currentH) => Returned [currentH]
  | Some (Continue nextBoard) => hc_loop fuel nextBoard target
  end.
Proof. done. Qed.

(** One pass of the loop of [MinDiffHC] on a valid board. *)
Lemma hc_iter_valid b target :
  valid b → wf target → size target = size b → size b * size b ≤ MaxInt32 →
  ∃ ns, FindNeighbors b 0 = Some ns ∧
        Forall (λ c, valid c ∧ size c = size b) ns ∧
        ((ns = [] ∧ hc_iter (Some b) target = Some (Emit (diff_count b target))) ∨
         (∃ k c, ns !! k = Some c ∧
                 first_min ((λ c, diff_count c target) <$> ns) k ∧
                 hc_iter (Some b) target =
                 Some (if bool_decide (diff_count c target < diff_count b target)
                       then Continue (Some c) else Emit (diff_count b target)))).
Proof.
  intros Hv Ht Hsz Hmax.
  destruct (FindNeighbors_blank_valid b Hv) as (ns & Hns & Hall & _).
  exists ns. split_and!; [done..|].
  assert (∀ c, c ∈ ns → DiffN c target = Some (diff_count c target)) as Hf.
  { intros c Hc. rewrite Forall_forall in Hall. destruct (Hall c Hc) as [Hc1 Hc2].
    apply DiffN_count; [by apply valid_wf|done|lia]. }
  destruct (best_scan target (λ c, diff_count c target) ns None MaxInt32 Hf)
    as (nb & h & Hscan & Hcase).
  unfold hc_iter. simpl. rewrite Hns. simpl.
  unfold best_candidate. rewrite Hscan. simpl.
  rewrite (DiffN_count b target) by (done || by apply valid_wf). simpl.
  pose proof (MaxInt32_above b target Hv Hmax) as Hcur.
  destruct Hcase as [(-> & -> & Hge)|(Hlt & k & c & Hk & Hfc & -> & Hmin & Hfst)].
  - left. destruct ns as [|c ns].
    + split; [done|]. by rewrite bool_decide_true by lia.
    + exfalso. rewrite Forall_forall in Hall.
      destruct (Hall c ltac:(left)) as [Hc1 Hc2].
      pose proof (Hge c ltac:(left)) as Hc.
      pose proof (MaxInt32_above c target Hc1 ltac:(rewrite Hc2; done)). lia.
  - right. exists k, c. split_and!; [done| |].
    + exists h. split_and!.
      * by rewrite list_lookup_fmap, Hk, <- Hfc.
      * intros k' d'. rewrite list_lookup_fmap.
        destruct (ns !! k') as [c'|] eqn:Hk'; [|done]. intros [= <-].
        apply Hmin. by eapply list_elem_of_lookup_2.
      * intros k' d' Hlt'. rewrite list_lookup_fmap.
        destruct (ns !! k') as [c'|] eqn:Hk'; [|done]. intros [= <-].
        by apply (Hfst k').
    + rewrite Hfc. f_equal. repeat case_bool_decide; (done || lia).
Qed.

(** X8. One pass of the loop of [MinDiffHC] on a valid board whose cell
    count fits [MaxInt32]: all neighbours of the blank are generated and
    scored against the target; with [c] the first neighbour, in generation
    order, whose diff is least, the search moves to [c] and repeats when
    that diff is strictly less than the diff of the current board, and
    otherwise sends the diff of the current board and returns. A board
    without neighbours (size 1) sends its diff at once. *)
Theorem MinDiffHC_pass :
  ∀ b target,
    valid b → wf target → size target = size b → size b * size b ≤ MaxInt32 →
    ∃ ns ds cur,
      FindNeighbors b 0 = Some ns ∧
      Forall2 (λ c d, DiffN c target = Some d) ns ds ∧
      DiffN b target = Some cur ∧
      (2 ≤ size b → ∃ k, first_min ds k) ∧
      (∀ k c d fuel, first_min ds k → ns !! k = Some c → ds !! k = Some d →
         MinDiffHC (S fuel) b target =
         if bool_decide (d < cur) then MinDiffHC fuel c target else Returned [cur]) ∧
      (ns = [] → ∀ fuel, MinDiffHC (S fuel) b target = Returned [cur]).
Proof.
  intros b target Hv Ht Hsz Hmax.
  destruct (hc_iter_valid b target Hv Ht Hsz Hmax) as (ns & Hns & Hall & Hcase).
  exists ns, ((λ c, diff_count c target) <$> ns), (diff_count b target).
  split_and!; [done| | | | |].
  - apply Forall2_fmap_r, Forall_Forall2_diag.
    eapply Forall_impl; [exact Hall|]. intros c [Hc1 Hc2]. simpl.
    apply DiffN_count; [by apply valid_wf|done|lia].
  - apply DiffN_count; [by apply valid_wf|done|lia].
  - intros Hn. destruct Hcase as [[-> _]|(k & c & _ & Hk & _)]; [|by exists k].
    destruct (FindNeighbors_blank_valid b Hv) as (ns' & Hns' & _ & Hlen).
    rewrite Hns in Hns'. injection Hns' as <-. specialize (Hlen Hn). simpl in Hlen. lia.
  - intros k c d fuel Hk Hc Hd.
    destruct Hcase as [[-> _]|(k' & c' & Hc' & Hk' & Hiter)]; [done|].
    assert (k' = k) as -> by (by eapply first_min_unique).
    rewrite Hc in Hc'. injection Hc' as <-.
    rewrite list_lookup_fmap, Hc in Hd. injection Hd as <-.
    unfold MinDiffHC. rewrite hc_loop_S, Hiter. by case_bool_decide.
  - intros -> fuel. destruct Hcase as [[_ Hiter]|(k & c & Hc & _)]; [|done].
    unfold MinDiffHC. by rewrite hc_loop_S, Hiter.
Qed.

Lemma MinDiffHC_pass_on_2x2 :
  ∃ ns ds cur,
    FindNeighbors board_2x2 0 = Some ns ∧
    Forall2 (λ c d, DiffN c (canonical 2) = Some d) ns ds ∧
    DiffN board_2x2 (canonical 2) = Some cur ∧
    (2 ≤ size board_2x2 → ∃ k, first_min ds k) ∧
    (∀ k c d fuel, first_min ds k → ns !! k = Some c → ds !! k = Some d →
       MinDiffHC (S fuel) board_2x2 (canonical 2) =
       if bool_decide (d < cur) then MinDiffHC fuel c (canonical 2) else Returned [cur]) ∧
    (ns = [] → ∀ fuel, MinDiffHC (S fuel) board_2x2 (canonical 2) = Returned [cur]).
Proof.
  apply MinDiffHC_pass.
  - by apply validb_valid.
  - apply valid_wf. by apply validb_valid.
  - reflexivity.
  - by vm_compute.
Defined.

(** The board [[1 0] [2 3]] reaches the canonical board in one move. *)
Example MinDiffHC_one_move :
  MinDiffHC 2 board_2x2 (canonical 2) = Returned [0] ∧
  trajectory 2 board_2x2 (canonical 2) = [board_2x2; canonical 2].
Proof. by vm_compute. Qed.

Lemma trajectory_S fuel b target :
  trajectory (S fuel) b target =
  b :: match hc_iter (Some b) target with
       | Some (Continue (Some nextBoard)) => trajectory fuel nextBoard target
       | _ => []
       end.
Proof. done. Qed.

Lemma diff_count_nonneg b t : 0 ≤ diff_count b t.
Proof. apply count_if_bounds. Qed.

(** A pass that emits ends the search: no move, one board visited. *)
Lemma hc_stops b target d :
  hc_iter (Some b) target = Some (Emit d) →
  ∀ fuel, (0 < fuel)%nat →
    hc_loop fuel (Some b) target = Returned [d] ∧ trajectory fuel b target = [b].
Proof.
  intros Hiter [|fuel] Hfuel; [lia|]. by rewrite hc_loop_S, trajectory_S, Hiter.
Qed.

Lemma hc_run_stop target b m :
  valid b → hc_iter (Some b) target = Some (Emit (diff_count b target)) →
  hc_run target b m 0 [b] b.
Proof.
  intros Hv Hiter. split_and!; [lia|by apply hc_stops|done..| |].
  - by apply Forall_singleton.
  - by intros [|k] c c' ? ?.
Qed.

Lemma hc_run_move target b c m moves tr e :
  valid b → size c = size b →
  hc_iter (Some b) target = Some (Continue (Some c)) →
  diff_count c target < diff_count b target →
  hc_run target c m moves tr e →
  hc_run target b (S m) (S moves) (b :: tr) e.
Proof.
  intros Hv Hsz Hiter Hlt (Hle & Hrun & Hlen & Hhd & Hlast & Htr & Hdec).
  split_and!.
  - lia.
  - intros [|fuel] Hfuel; [lia|].
    rewrite hc_loop_S, trajectory_S, Hiter.
    destruct (Hrun fuel ltac:(lia)) as [-> ->]. done.
  - simpl. by rewrite Hlen.
  - done.
  - destruct tr as [|c0 tr]; [done|]. by rewrite last_cons, Hlast.
  - constructor; [done|]. eapply Forall_impl; [exact Htr|].
    intros c' [? ?]. split; [done|lia].
  - intros [|k'] c1 c2 H1 H2; simpl in *.
    + destruct tr as [|c0 tr]; [done|]. simpl in *. simplify_eq. done.
    + by apply (Hdec k').
Qed.

(** The diff of the current board bounds the number of moves left. *)
Lemma hc_terminates target (m : nat) :
  wf target →
  ∀ b, valid b → size target = size b → size b * size b ≤ MaxInt32 →
       diff_count b target ≤ Z.of_nat m →
  ∃ moves tr e, hc_run target b m moves tr e.
Proof.
  intros Ht. induction m as [|m IH]; intros b Hv Hsz Hmax Hm.
  all: destruct (hc_iter_valid b target Hv Ht Hsz Hmax) as (ns & Hns & Hall & Hcase).
  all: destruct Hcase as [[_ Hiter]|(k & c & Hc & _ & Hiter)];
         [exists 0%nat, [b], b; by apply hc_run_stop|].
  all: case_bool_decide as Hlt; [|exists 0%nat, [b], b; by apply hc_run_stop].
  - pose proof (diff_count_nonneg c target). lia.
  - rewrite Forall_forall in Hall.
    destruct (Hall c ltac:(by eapply list_elem_of_lookup_2)) as [Hcv Hcs].
    destruct (IH c Hcv ltac:(lia) ltac:(by rewrite Hcs) ltac:(lia))
      as (moves & tr & e & Hrun).
    exists (S moves), (b :: tr), e. by apply (hc_run_move target b c).
Qed.

(** X9. From every valid start board of size [n] whose cell count fits
    [MaxInt32], [MinDiffHC] returns after fewer than [n²] moves, sending the
    diff of the last board it reached. Every board on the way is valid with
    a diff between 0 and [n² - 1], and each move strictly lowers the diff. *)
Theorem MinDiffHC_terminates :
  ∀ b target,
    valid b → wf target → size target = size b → size b * size b ≤ MaxInt32 →
    ∃ (moves : nat) tr e d,
      Z.of_nat moves < size b * size b ∧
      (∀ fuel, (moves < fuel)%nat →
         MinDiffHC fuel b target = Returned [d] ∧ trajectory fuel b target = tr) ∧
      length tr = S moves ∧ head tr = Some b ∧ last tr = Some e ∧
      DiffN e target = Some d ∧
      Forall (λ c, valid c ∧
                   ∃ dc, DiffN c target = Some dc ∧ 0 ≤ dc ≤ size b * size b - 1) tr ∧
      decreasing target tr.
Proof.
  intros b target Hv Ht Hsz Hmax.
  destruct (DiffN_valid_bounds b target Hv Ht Hsz) as [_ Hb].
  destruct (hc_terminates target (Z.to_nat (diff_count b target)) Ht b Hv Hsz Hmax
              ltac:(lia))
    as (moves & tr & e & Hle & Hrun & Hlen & Hhd & Hlast & Htr & Hdec).
  assert (∀ c, c ∈ tr → DiffN c target = Some (diff_count c target)) as Hdiff.
  { intros c Hc. rewrite Forall_forall in Htr. destruct (Htr c Hc) as [Hcv Hcs].
    apply DiffN_count; [by apply valid_wf|done|lia]. }
  exists moves, tr, e, (diff_count e target). split_and!; [lia|done..| | |].
  - apply Hdiff. destruct (last_Some tr e) as [(l' & ->) _]; [done|].
    apply elem_of_app. right. by left.
  - apply Forall_forall. intros c Hc. rewrite Forall_forall in Htr.
    destruct (Htr c Hc) as [Hcv Hcs]. split; [done|].
    exists (diff_count c target). rewrite <- Hcs.
    apply DiffN_valid_bounds; [done..|lia].
  - intros k c c' d d' Hk Hk' Hd Hd'.
    rewrite Hdiff in Hd by (by eapply list_elem_of_lookup_2).
    rewrite Hdiff in Hd' by (by eapply list_elem_of_lookup_2).
    simplify_eq. by apply (Hdec k).
Qed.

Lemma MinDiffHC_terminates_on_3x3 :
  ∃ (moves : nat) tr e d,
    Z.of_nat moves < size board_3x3 * size board_3x3 ∧
    (∀ fuel, (moves < fuel)%nat →
       MinDiffHC fuel board_3x3 (canonical 3) = Returned [d] ∧
       trajectory fuel board_3x3 (canonical 3) = tr) ∧
    length tr = S moves ∧ head tr = Some board_3x3 ∧ last tr = Some e ∧
    DiffN e (canonical 3) = Some d ∧
    Forall (λ c, valid c ∧
                 ∃ dc, DiffN c (canonical 3) = Some dc ∧
                       0 ≤ dc ≤ size board_3x3 * size board_3x3 - 1) tr ∧
    decreasing (canonical 3) tr.
Proof.
  apply MinDiffHC_terminates.
  - by apply validb_valid.
  - apply valid_wf. by apply validb_valid.
  - reflexivity.
  - by vm_compute.
Defined.

(** ** Simulated annealing *)

Section annealing.
Context `{FO : Float64Ops F, RG : Rand G F}.

Lemma FindNeighborRand_valid (b : Board) (g : G) :
  valid b → 2 ≤ size b →
  ∃ c g', FindNeighborRand b 0 g = Some (Some c, g') ∧ valid c ∧ size c = size b.
Proof.
  intros Hv Hn. destruct (FindNeighbors_blank_valid b Hv) as (ns & Hns & Hall & Hlen).
  specialize (Hlen Hn). unfold FindNeighborRand. rewrite Hns. simpl.
  destruct ns as [|c0 ns]; [simpl in Hlen; lia|].
  destruct (rand_Intn_pos (Z.of_nat (length (c0 :: ns))) g) as [[i g'] Hi].
  { simpl. lia. }
  rewrite Hi. simpl.
  apply rand_Intn_range in Hi.
  destruct (at_index_lookup (c0 :: ns) i Hi) as (c & -> & Hc). simpl.
  exists c, g'. split; [done|].
  rewrite Forall_forall in Hall. apply Hall. by eapply list_elem_of_lookup_2.
Qed.

Lemma FindNeighbors_single b :
  wf b → size b = 1 → FindNeighbors b 0 = Some [].
Proof.
  intros Hwf Hsz.
  destruct (tileIndx_wf b 0 Hwf) as [[Hidx _]|(i & j & Hidx & Hi & Hj & _)].
  { by apply FindNeighbors_missing. }
  destruct (FindNeighbors_found b 0 i j Hwf Hidx) as (ns & Hns & Hsw); [done|].
  rewrite Hns. f_equal.
  assert (i = 0) as -> by lia. assert (j = 0) as -> by lia.
  rewrite Hsz in Hsw. by apply Forall2_nil_inv_l in Hsw.
Qed.

Lemma FindNeighbors_no_blank b :
  wf b → 0 ∉ concat (state b) → FindNeighbors b 0 = Some [].
Proof.
  intros Hwf H0.
  destruct (tileIndx_wf b 0 Hwf) as [[Hidx _]|(i & j & Hidx & Hi & Hj & Ht)].
  { by apply FindNeighbors_missing. }
  exfalso. apply H0. rewrite <- tiles_concat by done. apply elem_of_tiles. eauto.
Qed.

Lemma FindNeighborRand_nil (b : Board) (g : G) :
  FindNeighbors b 0 = Some [] → FindNeighborRand b 0 g = Some (None, g).
Proof. intros Hns. unfold FindNeighborRand. by rewrite Hns. Qed.

(** The inner loop keeps the current board valid and the running minimum
    at or below the current diff, and does not panic. *)
Lemma sa_inner_ok (p : SimulatedAnnealParams F) (t : F) (i : Z) s (g : G) :
  2 ≤ size (Objective p) → wf (Objective p) → sa_ok (size (Objective p)) s →
  ∃ s' g', sa_inner p t i (s, g) = Some (s', g') ∧ sa_ok (size (Objective p)) s'.
Proof.
  intros Hn Hobj [Hv Hsz]. unfold sa_inner.
  destruct (FindNeighborRand_valid (currentBoard s) g Hv ltac:(lia))
    as (c & g' & -> & Hc & Hcs). simpl.
  rewrite (DiffN_count c (Objective p)) by (done || by apply valid_wf || lia). simpl.
  destruct (AcceptCandidate _ _ t g') as [[] g'']; eexists _, _; (split; [done|]).
  - split; simpl; [done|lia].
  - done.
Qed.

Lemma sa_inner_min (p : SimulatedAnnealParams F) (t : F) (i : Z) s (g : G) s' g' :
  sa_inner p t i (s, g) = Some (s', g') →
  minDiff s ≤ currentDiff s → minDiff s' ≤ currentDiff s'.
Proof.
  unfold sa_inner. intros Hin Hle.
  destruct (FindNeighborRand (currentBoard s) 0 g) as [[[c|] g1]|]; simpl in Hin; [|done..].
  destruct (DiffN c (Objective p)) as [d|]; simpl in Hin; [|done].
  destruct (AcceptCandidate (currentDiff s) d t g1) as [[] g2];
    injection Hin as <- <-; simpl; case_bool_decide; lia.
Qed.

Lemma for_each_inv {A S} (P : S → Prop) (l : list A) (body : A → S → option S) s s' :
  (∀ x s s', body x s = Some s' → P s → P s') →
  for_each l body s = Some s' → P s → P s'.
Proof.
  intros Hbody. revert s. induction l as [|x l IH]; intros s; simpl.
  - by intros [= <-].
  - destruct (body x s) as [s1|] eqn:Hx; simpl; [|done].
    intros Hl Hs. apply (IH s1 Hl). by apply (Hbody x s).
Qed.

Lemma for_each_total {A S} (P : S → Prop) (l : list A) (body : A → S → option S) s :
  (∀ x s, P s → ∃ s', body x s = Some s' ∧ P s') →
  P s → ∃ s', for_each l body s = Some s' ∧ P s'.
Proof.
  intros Hbody. revert s. induction l as [|x l IH]; intros s Hs; simpl.
  - eauto.
  - destruct (Hbody x s Hs) as (s1 & -> & Hs1). simpl. by apply IH.
Qed.

Lemma sa_loop_sends fuel (p : SimulatedAnnealParams F) clock k t s (g : G) s' sent :
  sa_loop fuel p clock k t s g = Returned (s', sent) →
  minDiff s ≤ currentDiff s →
  minDiff s' ≤ currentDiff s' ∧
  sent = (if bool_decide (minDiff s' < currentDiff s')
          then [minDiff s'; currentDiff s'] else [currentDiff s']).
Proof.
  revert k t s g. induction fuel as [|fuel IH]; intros k t s g; simpl; [done|].
  destruct (f_lt (TemperatureMin p) t).
  - destruct (for_range (Iterations p) (sa_inner p t) (s, g)) as [[s1 g1]|] eqn:Hin;
      [|done].
    intros Hrun Hle.
    assert (minDiff s1 ≤ currentDiff s1) as Hle1.
    { apply (for_each_inv (λ sg : sa_state * G, minDiff sg.1 ≤ currentDiff sg.1)
               _ _ _ _ ltac:(intros i [??] [??]; apply sa_inner_min) Hin Hle). }
    case_bool_decide.
    + injection Hrun as <- <-. split; [done|]. by case_bool_decide.
    + by apply (IH _ _ _ _ Hrun).
  - intros [= <- <-] Hle. split; [done|]. by case_bool_decide.
Qed.

(** Once the clock has passed the budget the search returns. *)
Lemma sa_loop_returns (p : SimulatedAnnealParams F) clock (n : nat) :
  2 ≤ size (Objective p) → wf (Objective p) →
  ∀ k t s (g : G),
    sa_ok (size (Objective p)) s → clock (k + n)%nat > MaxTime p →
    ∃ s' sent, sa_loop (S n) p clock k t s g = Returned (s', sent).
Proof.
  intros Hn Hobj. induction n as [|n IH]; intros k t s g Hs Hclock.
  all: cbn [sa_loop]; destruct (f_lt (TemperatureMin p) t); [|by eauto].
  all: destruct (for_each_total (λ sg : sa_state * G, sa_ok (size (Objective p)) sg.1)
                   (seqZ 0 (Iterations p)) (sa_inner p t) (s, g)) as ([s1 g1] & Hin & Hs1);
         [ intros i [s0 g0] Hs0; destruct (sa_inner_ok p t i s0 g0 Hn Hobj Hs0)
             as (s0' & g0' & ? & ?); by exists (s0', g0') | done | ].
  all: unfold for_range; rewrite Hin.
  - rewrite Nat.add_0_r in Hclock. rewrite bool_decide_true by done. eauto.
  - case_bool_decide; [by eauto|].
    apply IH; [done|]. by replace (S k + n)%nat with (k + S n)%nat by lia.
Qed.
End annealing.

(** C5. [AcceptCandidate] accepts a candidate with a smaller diff whatever
    the temperature, without drawing a sample; it rejects a candidate that
    is not smaller when the temperature is zero, without drawing a sample;
    and when the temperature is above zero it accepts such a candidate
    exactly when the sample drawn from [rand.Float64] is below
    [math.Exp(-(candidate - current) / temp)]. *)
Theorem AcceptCandidate_metropolis `{FO : Float64Ops F, RG : Rand G F} :
  ∀ (current candidate : Z) (temp : F) (g : G),
    (candidate < current → AcceptCandidate current candidate temp g = (true, g)) ∧
    (candidate >= current → f_eq temp f_zero = true →
       AcceptCandidate current candidate temp g = (false, g)) ∧
    (candidate >= current → f_lt f_zero temp = true →
       AcceptCandidate current candidate temp g =
       (f_lt (rand_Float64 g).1
             (f_exp (f_div (f_neg (f_of_int (candidate - current))) temp)),
        (rand_Float64 g).2)).
Proof.
  intros current candidate temp g. unfold AcceptCandidate. split_and!.
  - intros Hlt. by rewrite bool_decide_true.
  - intros Hge Hz. rewrite bool_decide_false by lia. by rewrite Hz.
  - intros Hge Hpos. rewrite bool_decide_false by lia.
    rewrite (f_lt_neq _ _ Hpos). by destruct (rand_Float64 g).
Qed.

Lemma AcceptCandidate_metropolis_witness :
  AcceptCandidate 3 1 1%Q [500] = (true, [500]) ∧
  AcceptCandidate 1 3 0%Q [500] = (false, [500]) ∧
  AcceptCandidate 1 3 1%Q [500] = (false, []).
Proof.
  split_and!.
  - apply (AcceptCandidate_metropolis 3 1 1%Q [500]). lia.
  - apply (AcceptCandidate_metropolis 1 3 0%Q [500]); [lia|reflexivity].
  - destruct (AcceptCandidate_metropolis 1 3 1%Q [500]) as (_ & _ & H3).
    rewrite H3; [reflexivity|lia|reflexivity].
Defined.

Section annealing_history.
Context `{FO : Float64Ops F, RG : Rand G F}.

(** What the body of the inner loop does with the candidate of its step. *)
Lemma sa_inner_step (p : SimulatedAnnealParams F) (t : F) (i : Z) s (g : G) s' g' :
  sa_inner p t i (s, g) = Some (s', g') →
  ∃ c d ok, sa_step p t (s, g) = Some (c, d, ok) ∧
            DiffN c (Objective p) = Some d ∧
            minDiff s' = Z.min d (minDiff s) ∧
            (currentBoard s', currentDiff s')
            = (if ok then (c, d) else (currentBoard s, currentDiff s)).
Proof.
  unfold sa_inner, sa_step. simpl.
  destruct (FindNeighborRand (currentBoard s) 0 g) as [[[c|] g1]|]; simpl; [|done..].
  destruct (DiffN c (Objective p)) as [d|] eqn:Hd; simpl; [|done].
  destruct (AcceptCandidate (currentDiff s) d t g1) as [ok g2]. simpl.
  intros Hs. exists c, d, ok.
  destruct ok; injection Hs as <- <-; simpl.
  all: split_and!; try done.
  all: case_bool_decide; lia.
Qed.

Lemma last_accepted_snoc b d0 h (c : Board) (d : Z) (ok : bool) :
  last_accepted b d0 (h ++ [(c, d, ok)])
  = if ok then (c, d) else last_accepted b d0 h.
Proof.
  unfold last_accepted. rewrite filter_app, fmap_app.
  destruct ok.
  - rewrite filter_cons_True by done. simpl. by rewrite last_snoc.
  - rewrite filter_cons_False by done. simpl. by rewrite app_nil_r.
Qed.

Lemma sa_after_snoc (p : SimulatedAnnealParams F) b d0 h s s' c d (ok : bool) :
  sa_after p b d0 h s →
  DiffN c (Objective p) = Some d →
  minDiff s' = Z.min d (minDiff s) →
  (currentBoard s', currentDiff s')
  = (if ok then (c, d) else (currentBoard s, currentDiff s)) →
  sa_after p b d0 (h ++ [(c, d, ok)]) s'.
Proof.
  intros (Hcur & Hdiff & Hin & Hle) Hd Hmin Hcur'. split_and!.
  - rewrite last_accepted_snoc, Hcur'. by destruct ok.
  - destruct ok; injection Hcur' as -> ->; done.
  - unfold scored in *. rewrite fmap_app. simpl.
    destruct (decide (d < minDiff s)).
    + replace (minDiff s') with d by lia.
      right. apply elem_of_app. right. by left.
    + replace (minDiff s') with (minDiff s) by lia.
      rewrite app_comm_cons. apply elem_of_app. by left.
  - unfold scored in *. rewrite fmap_app. simpl. rewrite app_comm_cons.
    apply Forall_app. split.
    + eapply Forall_impl; [exact Hle|]. intros x Hx. simpl in *. lia.
    + apply Forall_singleton. lia.
Qed.

Lemma inner_history_after (p : SimulatedAnnealParams F) (t : F) b d0 (l : list Z) :
  ∀ h s (g : G) s' g',
    for_each l (sa_inner p t) (s, g) = Some (s', g') →
    sa_after p b d0 h s →
    sa_after p b d0 (h ++ inner_history p t l (s, g)) s'.
Proof.
  induction l as [|i l IH]; intros h s g s' g'; cbn [for_each inner_history].
  - intros [= <- <-] Hs. by rewrite app_nil_r.
  - destruct (sa_inner p t i (s, g)) as [[s1 g1]|] eqn:Hin; [|done].
    cbn [mbind option_bind]. intros Hl Hs.
    destruct (sa_inner_step p t i s g s1 g1 Hin) as (c & d & ok & -> & Hd & Hmin & Hcur).
    replace (h ++ (c, d, ok) :: inner_history p t l (s1, g1))
      with ((h ++ [(c, d, ok)]) ++ inner_history p t l (s1, g1))
      by (by rewrite <- app_assoc).
    apply (IH _ _ _ _ _ Hl). by apply (sa_after_snoc p b d0 h s).
Qed.

(** The state a run returns is the state after its history. *)
Lemma sa_loop_after fuel (p : SimulatedAnnealParams F) clock b d0 :
  ∀ k t s (g : G) h s' sent,
    sa_loop fuel p clock k t s g = Returned (s', sent) →
    sa_after p b d0 h s →
    sa_after p b d0 (h ++ sa_history fuel p clock k t s g) s'.
Proof.
  induction fuel as [|fuel IH]; intros k t s g h s' sent; [done|].
  cbn [sa_loop sa_history]. destruct (f_lt (TemperatureMin p) t).
  - destruct (for_range (Iterations p) (sa_inner p t) (s, g)) as [[s1 g1]|] eqn:Hin;
      [|done].
    intros Hrun Hs.
    pose proof (inner_history_after p t b d0 _ h s g s1 g1 Hin Hs) as Hs1.
    case_bool_decide.
    + injection Hrun as <- _. by rewrite app_nil_r.
    + rewrite app_assoc. by apply (IH _ _ _ _ _ _ _ Hrun).
  - intros [= <- _] Hs. by rewrite app_nil_r.
Qed.
End annealing_history.

(** C6. Whenever [MinDiffSA] returns, after cooling down or after running
    out of time, the final current board is the last candidate that
    [AcceptCandidate] took (the start board when it took none) and the
    final current diff is the diff of that board; the running minimum is
    the least diff scored in the run, that of the start board included, and
    it is at most the final current diff. The search has sent the running
    minimum and then the final current diff when the minimum is strictly
    smaller, and the final current diff alone when the two are equal. *)
Theorem MinDiffSA_sends `{FO : Float64Ops F, RG : Rand G F} :
  ∀ fuel b (p : SimulatedAnnealParams F) clock (g : G) s sent,
    MinDiffSA fuel b p clock g = Returned (s, sent) →
    ∃ d0 h,
      DiffN b (Objective p) = Some d0 ∧
      h = sa_history fuel p clock 0 f_one (mkSA b d0 d0) g ∧
      (currentBoard s, currentDiff s) = last_accepted b d0 h ∧
      DiffN (currentBoard s) (Objective p) = Some (currentDiff s) ∧
      minDiff s ∈ d0 :: scored h ∧
      Forall (λ d, minDiff s ≤ d) (d0 :: scored h) ∧
      minDiff s ≤ currentDiff s ∧
      (minDiff s < currentDiff s → sent = [minDiff s; currentDiff s]) ∧
      (minDiff s = currentDiff s → sent = [currentDiff s]).
Proof.
  intros fuel b p clock g s sent. unfold MinDiffSA.
  destruct (DiffN b (Objective p)) as [d0|] eqn:Hd0; [|done].
  intros Hrun. exists d0, (sa_history fuel p clock 0 f_one (mkSA b d0 d0) g).
  assert (sa_after p b d0 [] (mkSA b d0 d0)) as Hstart.
  { split_and!; simpl; [done|done|by left|]. by apply Forall_singleton. }
  destruct (sa_loop_after fuel p clock b d0 _ _ _ _ [] _ _ Hrun Hstart)
    as (Hcur & Hdiff & Hin & Hle).
  apply sa_loop_sends in Hrun as [Hmin ->]; [|done].
  split_and!; [done..| |]; intros ?; case_bool_decide; (done || lia).
Qed.

Lemma MinDiffSA_sends_witness :
  (∃ s sent,
     MinDiffSA 5 board_2x2 (sample_params (canonical 2)) (λ _, 0)
       [1; 5; 0; 999; 0; 1; 1; 1; 0; 0; 0; 2; 3; 4] = Returned (s, sent) ∧
     sent = [0; 3] ∧
     ∃ d0 h,
       DiffN board_2x2 (Objective (sample_params (canonical 2))) = Some d0 ∧
       h = sa_history 5 (sample_params (canonical 2)) (λ _, 0) 0 f_one
             (mkSA board_2x2 d0 d0) [1; 5; 0; 999; 0; 1; 1; 1; 0; 0; 0; 2; 3; 4] ∧
       (currentBoard s, currentDiff s) = last_accepted board_2x2 d0 h ∧
       DiffN (currentBoard s) (Objective (sample_params (canonical 2)))
       = Some (currentDiff s) ∧
       minDiff s ∈ d0 :: scored h ∧
       Forall (λ d, minDiff s ≤ d) (d0 :: scored h) ∧
       minDiff s ≤ currentDiff s ∧
       (minDiff s < currentDiff s → sent = [minDiff s; currentDiff s]) ∧
       (minDiff s = currentDiff s → sent = [currentDiff s])) ∧
  (∃ s sent,
     MinDiffSA 5 board_2x2 (sample_params (canonical 2)) (λ _, 11)
       [1; 5; 0; 999; 0; 1; 1; 1; 0; 0; 0; 2; 3; 4] = Returned (s, sent) ∧
     sent = [0] ∧
     ∃ d0 h,
       DiffN board_2x2 (Objective (sample_params (canonical 2))) = Some d0 ∧
       h = sa_history 5 (sample_params (canonical 2)) (λ _, 11) 0 f_one
             (mkSA board_2x2 d0 d0) [1; 5; 0; 999; 0; 1; 1; 1; 0; 0; 0; 2; 3; 4] ∧
       (currentBoard s, currentDiff s) = last_accepted board_2x2 d0 h ∧
       DiffN (currentBoard s) (Objective (sample_params (canonical 2)))
       = Some (currentDiff s) ∧
       minDiff s ∈ d0 :: scored h ∧
       Forall (λ d, minDiff s ≤ d) (d0 :: scored h) ∧
       minDiff s ≤ currentDiff s ∧
       (minDiff s < currentDiff s → sent = [minDiff s; currentDiff s]) ∧
       (minDiff s = currentDiff s → sent = [currentDiff s])).
Proof.
  split.
  - exists (mkSA (mkBoard 2 [[2; 0]; [3; 1]]) 3 0), [0; 3].
    split; [by vm_compute|]. split; [done|].
    apply (MinDiffSA_sends 5 board_2x2 (sample_params (canonical 2)) (λ _, 0)
             [1; 5; 0; 999; 0; 1; 1; 1; 0; 0; 0; 2; 3; 4]).
    by vm_compute.
  - exists (mkSA (mkBoard 2 [[0; 1]; [2; 3]]) 0 0), [0].
    split; [by vm_compute|]. split; [done|].
    apply (MinDiffSA_sends 5 board_2x2 (sample_params (canonical 2)) (λ _, 11)
             [1; 5; 0; 999; 0; 1; 1; 1; 0; 0; 0; 2; 3; 4]).
    by vm_compute.
Defined.

(** Every run from a valid board of size at least 2 does return once the
    clock has passed the time budget. *)
Lemma MinDiffSA_returns `{FO : Float64Ops F, RG : Rand G F}
    b (p : SimulatedAnnealParams F) clock (g : G) (n : nat) :
  valid b → wf (Objective p) → size b = size (Objective p) → 2 ≤ size b →
  clock n > MaxTime p →
  ∃ s sent, MinDiffSA (S n) b p clock g = Returned (s, sent).
Proof.
  intros Hv Hobj Hsz Hn Hclock. unfold MinDiffSA.
  rewrite (DiffN_count b (Objective p)) by (done || by apply valid_wf).
  apply sa_loop_returns; [lia|done| |done]. by split.
Qed.

Lemma sa_inner_nil `{FO : Float64Ops F, RG : Rand G F}
    (p : SimulatedAnnealParams F) t i s (g g' : G) :
  FindNeighborRand (currentBoard s) 0 g = Some (None, g') →
  sa_inner p t i (s, g) = None.
Proof. intros Hnb. unfold sa_inner. by rewrite Hnb. Qed.

(** A run from a board without neighbours panics in the first step of the
    inner loop. *)
Lemma MinDiffSA_nil_candidate `{FO : Float64Ops F, RG : Rand G F}
    b (p : SimulatedAnnealParams F) clock (g : G) fuel :
  FindNeighbors b 0 = Some [] →
  wf b → wf (Objective p) → size b = size (Objective p) →
  f_lt (TemperatureMin p) f_one = true → 1 ≤ Iterations p →
  MinDiffSA (S fuel) b p clock g = Panicked.
Proof.
  intros Hns Hwf Hobj Hsz Ht Hit. unfold MinDiffSA.
  rewrite (DiffN_count b (Objective p)) by done.
  cbn [sa_loop]. rewrite Ht. unfold for_range.
  rewrite seqZ_cons by lia. cbn [for_each].
  rewrite (sa_inner_nil p f_one 0 _ g g); [done|].
  by apply FindNeighborRand_nil.
Qed.

(** C9. [MinDiffSA] scores the board that [FindNeighborRand] returns without
    testing it for nil. On a valid board of size at least 2
    [FindNeighborRand(0)] returns a board, a valid one of the same size, so
    the inner loop does not panic there. On a board of size 1, and on a
    board that does not hold 0, it returns nil, and a call of [MinDiffSA]
    that enters the inner loop panics. *)
Theorem FindNeighborRand_nil_cases `{FO : Float64Ops F, RG : Rand G F} :
  (∀ b (g : G), valid b → 2 ≤ size b →
     ∃ c g', FindNeighborRand b 0 g = Some (Some c, g') ∧ valid c ∧ size c = size b) ∧
  (∀ b (p : SimulatedAnnealParams F) t i mn (g : G),
     valid b → 2 ≤ size b → wf (Objective p) → size b = size (Objective p) →
     ∃ s' g', sa_inner p t i (mkSA b (diff_count b (Objective p)) mn, g)
              = Some (s', g')) ∧
  (∀ b (g : G), wf b → size b = 1 ∨ 0 ∉ concat (state b) →
     FindNeighborRand b 0 g = Some (None, g)) ∧
  (∀ b (p : SimulatedAnnealParams F) clock (g : G) fuel,
     wf b → size b = 1 ∨ 0 ∉ concat (state b) →
     wf (Objective p) → size b = size (Objective p) →
     f_lt (TemperatureMin p) f_one = true → 1 ≤ Iterations p →
     MinDiffSA (S fuel) b p clock g = Panicked).
Proof.
  assert (∀ b, wf b → size b = 1 ∨ 0 ∉ concat (state b) → FindNeighbors b 0 = Some [])
    as Hnil.
  { intros b Hwf [Hsz|H0]; [by apply FindNeighbors_single|by apply FindNeighbors_no_blank]. }
  split_and!.
  - intros b g. apply FindNeighborRand_valid.
  - intros b p t i mn g Hv Hn Hobj Hsz.
    destruct (sa_inner_ok p t i (mkSA b (diff_count b (Objective p)) mn) g)
      as (s' & g' & Hin & _); [lia|done|by split|eauto].
  - intros b g Hwf Hcase. apply FindNeighborRand_nil. by apply Hnil.
  - intros b p clock g fuel Hwf Hcase Hobj Hsz Ht Hit.
    apply MinDiffSA_nil_candidate; try done. by apply Hnil.
Qed.

Lemma FindNeighborRand_nil_cases_witness :
  (∃ c g', FindNeighborRand board_2x2 0 [1] = Some (Some c, g') ∧
           valid c ∧ size c = size board_2x2) ∧
  FindNeighborRand board_1x1 0 [1] = Some (None, [1]) ∧
  MinDiffSA 1 board_1x1 (sample_params (canonical 1)) (λ _, 0) [1] = Panicked.
Proof.
  destruct (FindNeighborRand_nil_cases (F := Q) (G := list Z)) as (H1 & _ & H3 & H4).
  split_and!.
  - apply H1; [by apply validb_valid|done].
  - apply H3; [by apply valid_wf, validb_valid|by left].
  - apply H4; [by apply valid_wf, validb_valid|by left
              |by apply valid_wf, validb_valid|done|done|done].
Defined.

(** ** The results channel *)

Lemma sumZ_insert {A} (f : A → Z) (l : list A) (p : nat) x y :
  l !! p = Some x → sumZ f (<[p := y]> l) = sumZ f l - f x + f y.
Proof.
  revert p. induction l as [|z l IH]; intros [|p] Hp; simplify_eq/=; [lia|].
  rewrite (IH p Hp). lia.
Qed.

Lemma sumZ_nonneg {A} (f : A → Z) (l : list A) : (∀ x, 0 ≤ f x) → 0 ≤ sumZ f l.
Proof. intros Hf. induction l as [|x l IH]; simpl; [done|]. specialize (Hf x). lia. Qed.

Lemma unsent_pos_pending (l : list (list Z)) :
  0 < sumZ (λ l : list Z, Z.of_nat (length l)) l →
  ∃ p v rest, l !! p = Some (v :: rest).
Proof.
  induction l as [|[|v rest] l IH]; simpl; intros Hpos; [lia| |].
  - destruct IH as (p & v & rest & Hp); [lia|]. by exists (S p), v, rest.
  - by exists 0%nat, v, rest.
Qed.

Lemma hist_total_incr (diffs : gmap Z Z) (m : Z) :
  hist_total (<[m := default 0 (diffs !! m) + 1]> diffs) = hist_total diffs + 1.
Proof.
  unfold hist_total. destruct (diffs !! m) as [x|] eqn:Hm; simpl.
  - rewrite <- insert_delete_eq.
    rewrite map_fold_insert_L; [|intros; lia|apply lookup_delete_eq].
    rewrite (map_fold_delete_L _ 0 m x diffs); [lia|intros; lia|done].
  - rewrite map_fold_insert_L; [lia|intros; lia|done].
Qed.

(** The drain loop receives at most [n] values, and each value received
    adds one to one bucket of the histogram. *)
Lemma drain_counts es σ σ' :
  exec es σ = Some σ' → drain_i σ ≤ drain_n σ →
  drain_i σ' ≤ drain_n σ' ∧ drain_n σ' = drain_n σ ∧
  hist_total (diffs σ') - hist_total (diffs σ) = drain_i σ' - drain_i σ.
Proof.
  revert σ. induction es as [|e es IH]; intros σ; simpl.
  - intros [= <-] Hle. split_and!; (done || lia).
  - destruct (step e σ) as [σ1|] eqn:Hstep; simpl; [|done].
    intros Hexec Hle.
    assert (drain_i σ1 ≤ drain_n σ1 ∧ drain_n σ1 = drain_n σ ∧
            hist_total (diffs σ1) - hist_total (diffs σ) = drain_i σ1 - drain_i σ)
      as (H1 & H2 & H3).
    { destruct e as [p|]; simpl in Hstep.
      - destruct (pending σ !! p) as [[|v rest]|]; [done| |done].
        case_bool_decide; [|done]. injection Hstep as <-. simpl. lia.
      - case_bool_decide; [|done]. destruct (buffer σ) as [|m buf]; [done|].
        injection Hstep as <-. simpl. rewrite hist_total_incr. lia. }
    destruct (IH σ1 Hexec H1) as (H4 & H5 & H6). split_and!; lia.
Qed.

(** While the values sent and to be sent fit the buffer, no send blocks. *)
Lemma fits_never_blocks es σ σ' :
  exec es σ = Some σ' →
  Z.of_nat (length (buffer σ)) + unsent σ ≤ capacity σ →
  ∀ p, ¬ blocked_send σ' p.
Proof.
  revert σ. induction es as [|e es IH]; intros σ; simpl.
  - intros [= <-] Hfit p (v & rest & Hp & Hfull).
    unfold unsent in Hfit.
    pose proof (sumZ_insert (λ l : list Z, Z.of_nat (length l)) _ p _ rest Hp) as Hs.
    simpl in Hs.
    pose proof (sumZ_nonneg (λ l : list Z, Z.of_nat (length l))
                  (<[p:=rest]> (pending σ)) ltac:(intros; simpl; lia)).
    lia.
  - destruct (step e σ) as [σ1|] eqn:Hstep; simpl; [|done].
    intros Hexec Hfit. apply (IH σ1 Hexec).
    destruct e as [p|]; simpl in Hstep.
    + destruct (pending σ !! p) as [[|v rest]|] eqn:Hp; [done| |done].
      case_bool_decide; [|done]. injection Hstep as <-. unfold unsent in *. simpl.
      rewrite (sumZ_insert _ _ p _ rest Hp), length_app. simpl. lia.
    + case_bool_decide; [|done]. destruct (buffer σ) as [|m buf] eqn:Hbuf; [done|].
      injection Hstep as <-. unfold unsent in *. simpl in *. lia.
Qed.

(** [RunHillClimb]: each of the [n] searches sends one value, so no send
    ever blocks, and the drain loop counts each value drained once. *)
Lemma RunHillClimb_never_blocks sends es σ :
  Z.of_nat (length sends) = 5000000 → Forall (λ l, length l = 1%nat) sends →
  exec es (RunHillClimb_launched sends) = Some σ →
  (∀ p, ¬ blocked_send σ p) ∧
  drain_i σ ≤ 5000000 ∧ hist_total (diffs σ) = hist_total (new_diffs 3) + drain_i σ.
Proof.
  intros Hlen Hone Hexec. split.
  - apply (fits_never_blocks es _ σ Hexec). unfold unsent. simpl.
    rewrite <- Hlen. clear Hlen Hexec.
    induction Hone as [|l ls Hl _ IH]; simpl; [done|]. rewrite Hl. lia.
  - destruct (drain_counts es _ σ Hexec) as (H1 & H2 & H3); simpl in *; lia.
Qed.

(** When more values are to be sent than the buffer can take, some schedule
    leads to a blocked send. *)
Lemma overfull_blocks (k : nat) σ :
  capacity σ - Z.of_nat (length (buffer σ)) = Z.of_nat k →
  capacity σ < Z.of_nat (length (buffer σ)) + unsent σ →
  ∃ es σ' p, exec es σ = Some σ' ∧ blocked_send σ' p.
Proof.
  revert σ. induction k as [|k IH]; intros σ Hroom Hover.
  all: destruct (unsent_pos_pending (pending σ)) as (p & v & rest & Hp);
         [unfold unsent in Hover; lia|].
  - exists [], σ, p. split; [done|]. exists v, rest. split; [done|lia].
  - destruct (IH (mkExp (capacity σ) (buffer σ ++ [v]) (<[p := rest]> (pending σ))
                        (drain_i σ) (drain_n σ) (diffs σ))) as (es & σ' & q & Hexec & Hq).
    + simpl. rewrite length_app. simpl. lia.
    + unfold unsent in *. simpl.
      rewrite (sumZ_insert _ _ p _ rest Hp), length_app. simpl. lia.
    + exists (Send p :: es), σ', q. split; [|done].
      simpl. rewrite Hp. rewrite bool_decide_true by lia. done.
Qed.

(** C7, at [RunSimAnneal]. The channel holds [n = 100] values; when one of
    the 100 searches sends two values, there is a schedule under which a
    send finds the buffer full and blocks. *)
Theorem RunSimAnneal_send_can_block :
  ∀ sends,
    length sends = 100%nat → Forall (λ l, (1 ≤ length l)%nat) sends →
    (∃ l, l ∈ sends ∧ length l = 2%nat) →
    ∃ es σ p, exec es (RunSimAnneal_launched sends) = Some σ ∧ blocked_send σ p.
Proof.
  intros sends Hlen Hone (l & Hl & Hl2).
  apply (overfull_blocks 100); [done|]. unfold unsent. simpl.
  apply list_elem_of_split in Hl as (l1 & l2 & ->).
  rewrite length_app in Hlen. simpl in Hlen.
  apply Forall_app in Hone as [Hone1 Hone2]. apply Forall_cons in Hone2 as [_ Hone2].
  assert (∀ ls : list (list Z), Forall (λ l, (1 ≤ length l)%nat) ls →
            Z.of_nat (length ls) ≤ sumZ (λ l : list Z, Z.of_nat (length l)) ls) as Hsum.
  { induction 1 as [|x ls Hx _ IH]; simpl; lia. }
  rewrite sumZ_app. simpl. rewrite Hl2.
  pose proof (Hsum l1 Hone1). pose proof (Hsum l2 Hone2). lia.
Qed.

(** With the parameters of [RunSimAnneal], a search from the board
    [[1 2 3] [4 0 5] [6 7 8]] that runs out of time after the first
    temperature level sends two values. *)
Example MinDiffSA_sends_two :
  ∃ s, MinDiffSA 1 board_3x3 RunSimAnneal_params (λ _, 10000000001) (sample_tape 2000)
       = Returned (s, [3; 7]).
Proof. eexists. by vm_compute. Qed.

Lemma RunSimAnneal_send_can_block_witness :
  ∃ es σ p, exec es (RunSimAnneal_launched (replicate 100 [3; 7])) = Some σ ∧
            blocked_send σ p.
Proof.
  apply RunSimAnneal_send_can_block.
  - reflexivity.
  - apply Forall_replicate. simpl. lia.
  - exists [3; 7]. split; [by left|reflexivity].
Defined.

(** ** Boards beyond the sentinel of [MinDiffHC] *)

Lemma shift_perm N : 0 < N → (λ k, (k + 1) `mod` N) <$> seqZ 0 N ≡ₚ seqZ 0 N.
Proof.
  intros HN.
  assert (seqZ 0 N = seqZ 0 (N - 1) ++ [N - 1]) as E1.
  { replace N with ((N - 1) + 1) at 1 by lia. rewrite seqZ_app by lia. f_equal. }
  assert (seqZ 0 N = 0 :: seqZ 1 (N - 1)) as E2.
  { rewrite seqZ_cons by lia. f_equal. }
  assert ((λ k, (k + 1) `mod` N) <$> seqZ 0 (N - 1) = seqZ 1 (N - 1)) as E3.
  { replace 1 with (1 + 0) at 2 by lia. rewrite <- (fmap_add_seqZ 1 0).
    apply fmap_ext_in'. intros k Hk%elem_of_seqZ. rewrite Z.mod_small; lia. }
  rewrite E1 at 1. rewrite fmap_app, E3, E2. simpl.
  replace (N - 1 + 1) with N by lia. rewrite Z.mod_same by lia.
  symmetry. apply Permutation_cons_append.
Qed.

Lemma shifted_valid n : 0 < n → valid (shifted n).
Proof.
  intros Hn. unfold shifted. split_and!; [apply grid_of_wf; lia|done|].
  rewrite grid_of_tiles by lia. apply shift_perm. simpl. nia.
Qed.

(** When no tile is on target, every cell but the blank ones counts. *)
Lemma diff_count_all_off b t :
  0 ≤ size b →
  (∀ i j, 0 ≤ i < size b → 0 ≤ j < size b → tile b i j ≠ tile t i j) →
  diff_count b t + blanks b = size b * size b.
Proof.
  intros Hn Hoff. unfold diff_count, blanks, count_if.
  rewrite <- sumZ_add, <- (length_cells (size b)) by done.
  rewrite (sumZ_ext _ (λ _, 1)).
  - induction (cells (size b)) as [|c l IH]; simpl; lia.
  - intros [i j] [Hi Hj]%elem_of_cells. unfold off_target. simpl.
    specialize (Hoff i j Hi Hj). repeat case_bool_decide; (lia || tauto).
Qed.

Lemma shifted_diff n :
  2 ≤ n → diff_count (shifted n) (canonical n) = n * n - 1.
Proof.
  intros Hn.
  pose proof (diff_count_all_off (shifted n) (canonical n)) as Hall.
  rewrite (valid_blanks (shifted n)) in Hall by (apply shifted_valid; lia).
  change (size (shifted n)) with n in Hall.
  enough (n * n - 1 + 1 = n * n ∧ diff_count (shifted n) (canonical n) + 1 = n * n) by lia.
  split; [lia|]. apply Hall; [lia|].
  intros i j Hi Hj. unfold shifted.
  unfold canonical.
  rewrite !grid_of_tile by done.
  assert (0 ≤ i * n + j < n * n) as Hk by nia.
  destruct (decide (i * n + j + 1 < n * n)).
  - rewrite Z.mod_small; lia.
  - replace (i * n + j + 1) with (n * n) by lia. rewrite Z.mod_same; nia.
Qed.

Lemma sumZ_nonneg_in {A} (h : A → Z) (l : list A) :
  (∀ x, x ∈ l → 0 ≤ h x) → 0 ≤ sumZ h l.
Proof.
  induction l as [|x l IH]; intros Hh; simpl; [done|].
  pose proof (Hh x ltac:(left)).
  assert (0 ≤ sumZ h l); [|lia]. apply IH. intros y Hy. apply Hh. by right.
Qed.

(** A sum whose terms are non-negative outside two places and at least
    [-1] there. *)
Lemma sumZ_one_exception `{EqDecision A} (h : A → Z) (p : A) (l : list A) :
  NoDup l → (∀ x, x ∈ l → x ≠ p → 0 ≤ h x) → (∀ x, -1 ≤ h x) → -1 ≤ sumZ h l.
Proof.
  intros Hnd Hz Hlb. induction Hnd as [|x l Hx Hnd IH]; simpl; [lia|].
  destruct (decide (x = p)) as [->|Hxp].
  - pose proof (Hlb p).
    assert (0 ≤ sumZ h l); [|lia].
    apply sumZ_nonneg_in. intros y Hy. apply Hz; [by right|]. intros ->. done.
  - pose proof (Hz x ltac:(left) Hxp).
    assert (-1 ≤ sumZ h l); [|lia]. apply IH. intros y Hy. apply Hz. by right.
Qed.

Lemma sumZ_two_exceptions `{EqDecision A} (h : A → Z) (p q : A) (l : list A) :
  NoDup l → (∀ x, x ∈ l → x ≠ p → x ≠ q → 0 ≤ h x) → (∀ x, -1 ≤ h x) →
  -2 ≤ sumZ h l.
Proof.
  intros Hnd Hz Hlb. induction Hnd as [|x l Hx Hnd IH]; simpl; [lia|].
  destruct (decide (x = p)) as [->|Hxp]; [|destruct (decide (x = q)) as [->|Hxq]].
  - pose proof (Hlb p).
    assert (-1 ≤ sumZ h l); [|lia].
    apply (sumZ_one_exception h q); [done| |done].
    intros y Hy Hyq. apply Hz; [by right| |done]. intros ->. done.
  - pose proof (Hlb q).
    assert (-1 ≤ sumZ h l); [|lia].
    apply (sumZ_one_exception h p); [done| |done].
    intros y Hy Hyp. apply Hz; [by right|done|]. intros ->. done.
  - pose proof (Hz x ltac:(left) Hxp Hxq).
    assert (-2 ≤ sumZ h l); [|lia]. apply IH. intros y Hy. apply Hz. by right.
Qed.

Lemma sumZ_sub {A} (f g : A → Z) l : sumZ (λ x, f x - g x) l = sumZ f l - sumZ g l.
Proof. induction l; simpl; lia. Qed.

(** A swap lowers the diff by at most 2. *)
Lemma swap_of_diff_lower b p q c t :
  swap_of b p q c → diff_count b t - 2 ≤ diff_count c t.
Proof.
  intros (_ & Hsz & Ht). unfold diff_count, count_if. rewrite Hsz.
  enough (-2 ≤ sumZ (λ x, (if off_target c t x then 1 else 0)
                           - (if off_target b t x then 1 else 0)) (cells (size b)))
    as Hsum by (rewrite sumZ_sub in Hsum; lia).
  apply (sumZ_two_exceptions _ p q); [apply NoDup_cells| |].
  - intros [r s] _ Hp Hq. unfold off_target. simpl. rewrite Ht.
    rewrite decide_False, decide_False by done. lia.
  - intros x. destruct (off_target c t x), (off_target b t x); lia.
Qed.

(** When the diff of the current board is above the sentinel [MaxInt32] by
    2 or more, no candidate has a diff below the sentinel: [nextBoard]
    stays nil, the test [h >= currentH] fails, and the loop goes on with
    nil. *)
Lemma hc_iter_beyond_sentinel b target :
  valid b → wf target → size target = size b →
  MaxInt32 + 2 ≤ diff_count b target →
  hc_iter (Some b) target = Some (Continue None).
Proof.
  intros Hv Ht Hsz Hbig.
  destruct (FindNeighbors_blank b Hv) as (ns & Hns & Hall & _).
  rewrite Forall_forall in Hall.
  assert (∀ c, c ∈ ns → DiffN c target = Some (diff_count c target)) as Hf.
  { intros c Hc. destruct (Hall c Hc) as (Hc1 & Hc2 & _).
    apply DiffN_count; [by apply valid_wf|done|lia]. }
  destruct (best_scan target (λ c, diff_count c target) ns None MaxInt32 Hf)
    as (nb & h & Hscan & Hcase).
  unfold hc_iter. simpl. rewrite Hns. simpl.
  unfold best_candidate. rewrite Hscan. simpl.
  rewrite (DiffN_count b target) by (done || by apply valid_wf). simpl.
  destruct Hcase as [(-> & -> & _)|(Hlt & k & c & Hk & Hfc & _)].
  - by rewrite bool_decide_false by lia.
  - exfalso. destruct (Hall c ltac:(by eapply list_elem_of_lookup_2))
      as (_ & _ & p & q & Hsw).
    pose proof (swap_of_diff_lower b p q c target Hsw). lia.
Qed.

Lemma hc_loop_nil fuel target : hc_loop (S fuel) None target = Panicked.
Proof. done. Qed.

(** The shifted board of a size whose cell count exceeds the sentinel. *)
Lemma shifted_beyond_sentinel n :
  2 ≤ n → MaxInt32 + 3 ≤ n * n →
  valid (shifted n) ∧ valid (canonical n) ∧
  DiffN (shifted n) (canonical n) = Some (n * n - 1) ∧
  (∃ ns, FindNeighbors (shifted n) 0 = Some ns ∧ (2 ≤ length ns)%nat) ∧
  hc_iter (Some (shifted n)) (canonical n) = Some (Continue None) ∧
  ∀ fuel, MinDiffHC (S (S fuel)) (shifted n) (canonical n) = Panicked.
Proof.
  intros Hn Hbig.
  assert (valid (shifted n)) as Hv by (apply shifted_valid; lia).
  assert (valid (canonical n)) as Hc by (apply canonical_valid; lia).
  assert (hc_iter (Some (shifted n)) (canonical n) = Some (Continue None)) as Hiter.
  { apply hc_iter_beyond_sentinel; [done|by apply valid_wf|done|].
    rewrite shifted_diff by done. lia. }
  split_and!; [done|done| | |done|].
  - rewrite DiffN_count by (done || by apply valid_wf). by rewrite shifted_diff.
  - destruct (FindNeighbors_blank (shifted n) Hv) as (ns & Hns & _ & Hlen).
    exists ns. split; [done|]. by apply Hlen.
  - intros fuel. unfold MinDiffHC. by rewrite hc_loop_S, Hiter, hc_loop_nil.
Qed.

(** C2, at a board beyond the sentinel. On the valid board of size 46341
    whose cell [k] holds the tile [k + 1], every neighbour of the blank has
    a diff of at least [MaxInt32], the value [h] starts from: the pass
    selects no neighbour, and since [h] is below the diff of the current
    board it does not send that diff either, but goes on with a nil board. *)
Theorem MinDiffHC_pass_beyond_sentinel :
  valid (shifted 46341) ∧ valid (canonical 46341) ∧
  DiffN (shifted 46341) (canonical 46341) = Some (46341 * 46341 - 1) ∧
  (∃ ns, FindNeighbors (shifted 46341) 0 = Some ns ∧ (2 ≤ length ns)%nat) ∧
  hc_iter (Some (shifted 46341)) (canonical 46341) = Some (Continue None).
Proof.
  destruct (shifted_beyond_sentinel 46341) as (H1 & H2 & H3 & H4 & H5 & _).
  - lia.
  - unfold MaxInt32. lia.
  - split_and!; assumption.
Qed.

(** C3, at a board beyond the sentinel. From the valid board of size 46341
    whose cell [k] holds the tile [k + 1], [MinDiffHC] does not return: its
    second pass dereferences the nil board the first pass left. *)
Theorem MinDiffHC_beyond_sentinel_panics :
  valid (shifted 46341) ∧ valid (canonical 46341) ∧
  (∀ fuel, MinDiffHC (S (S fuel)) (shifted 46341) (canonical 46341) = Panicked) ∧
  (∀ fuel sent, MinDiffHC fuel (shifted 46341) (canonical 46341) ≠ Returned sent).
Proof.
  destruct (shifted_beyond_sentinel 46341) as (H1 & H2 & _ & _ & H5 & H6).
  - lia.
  - unfold MaxInt32. lia.
  - split_and!; [assumption..|].
    intros [|[|fuel]] sent.
    + intros [=].
    + unfold MinDiffHC. rewrite hc_loop_S, H5. intros [=].
    + rewrite H6. intros [=].
Qed.

(** * Further properties of the program *)

(** ** [NewBoard] and [Copy] *)

(** X1. [NewBoard(n)] panics on a negative [n]. For [n ≥ 0] with a cell
    count [n²] of at most [math.MaxInt32] (a board that fits in memory:
    [make] stays within what the allocator gives and [i*n + j] does not
    wrap) it returns a well-formed board of size [n] that holds the tile
    [i*n + j] in the cell of row [i] and column [j], that is the tiles
    [0 .. n²-1] in ascending order row by row; the board is valid when
    [n > 0]. *)
Theorem NewBoard_ascending :
  (∀ n, n < 0 → NewBoard n = None) ∧
  (∀ n, 0 ≤ n → n * n ≤ MaxInt32 →
     ∃ b, NewBoard n = Some b ∧ size b = n ∧ wf b ∧
          (∀ i j, 0 ≤ i < n → 0 ≤ j < n → tile b i j = i * n + j) ∧
          concat (state b) = seqZ 0 (n * n) ∧
          (0 < n → valid b)).
Proof.
  split.
  - intros n Hn. unfold NewBoard, make. by rewrite bool_decide_true.
  - intros n Hn _. exists (canonical n). split_and!.
    + by apply NewBoard_canonical.
    + done.
    + by apply grid_of_wf.
    + intros i j Hi Hj. unfold canonical. by rewrite grid_of_tile.
    + unfold canonical. rewrite grid_of_tiles by done. by rewrite list_fmap_id.
    + apply canonical_valid.
Qed.

Lemma NewBoard_ascending_witness :
  NewBoard (-1) = None ∧
  ∃ b, NewBoard 3 = Some b ∧ size b = 3 ∧ wf b ∧
       (∀ i j, 0 ≤ i < 3 → 0 ≤ j < 3 → tile b i j = i * 3 + j) ∧
       concat (state b) = seqZ 0 (3 * 3) ∧ (0 < 3 → valid b).
Proof.
  destruct NewBoard_ascending as [H1 H2].
  split; [apply H1; lia|apply H2; [lia|by vm_compute]].
Defined.

Lemma for_each_ext_in {A S} (l : list A) (body body' : A → S → option S) s :
  (∀ x s, x ∈ l → body x s = body' x s) → for_each l body s = for_each l body' s.
Proof.
  revert s. induction l as [|x l IH]; intros s Hb; simpl; [done|].
  rewrite Hb by left. destruct (body' x s); simpl; [|done].
  apply IH. intros y s' Hy. apply Hb. by right.
Qed.

(** The first [m] rounds of a loop that fills a slice, when only they are
    known to succeed. *)
Lemma for_each_fill_upto {A} (body : Z → list A → option (list A))
    (g : Z → A) (n : Z) (st0 : list A) (m : nat) :
  length st0 = Z.to_nat n → Z.of_nat m ≤ n →
  (∀ i st, 0 ≤ i < Z.of_nat m → length st = Z.to_nat n →
           body i st = Some (<[Z.to_nat i := g i]> st)) →
  for_each (seqZ 0 (Z.of_nat m)) body st0
  = Some ((g <$> seqZ 0 (Z.of_nat m)) ++ drop m st0).
Proof.
  intros Hlen. induction m as [|m IH]; intros Hm Hbody.
  - simpl. by rewrite drop_0.
  - rewrite seqZ_S, for_each_app, IH by (lia || intros; apply Hbody; lia). simpl.
    assert (length ((g <$> seqZ 0 (Z.of_nat m)) ++ drop m st0) = Z.to_nat n) as Hl.
    { rewrite length_app, length_fmap, length_seqZ, length_drop. lia. }
    rewrite Hbody by (lia || done). simpl. f_equal.
    rewrite fmap_app. simpl. rewrite <- (assoc_L (++)). simpl.
    replace (Z.to_nat (0 + Z.of_nat m)) with (length (g <$> seqZ 0 (Z.of_nat m)) + 0)%nat
      by (rewrite length_fmap, length_seqZ; lia).
    rewrite insert_app_r. f_equal.
    destruct (drop m st0) as [|y rest] eqn:Hd.
    { apply (f_equal length) in Hd. rewrite length_drop in Hd. simpl in Hd. lia. }
    simpl. f_equal.
    replace (S m) with (m + 1)%nat by lia.
    rewrite <- (drop_drop st0 1 m), Hd. done.
Qed.

Lemma length_copy_into_make (n : nat) (src : list Z) :
  length (copy_into (replicate n 0) src) = n.
Proof.
  unfold copy_into.
  rewrite length_app, length_take, length_drop, !length_replicate. lia.
Qed.

Lemma copy_into_make_lookup (n j : nat) (src : list Z) :
  (j < n)%nat →
  default 0 (copy_into (replicate n 0) src !! j) = default 0 (src !! j).
Proof.
  intros Hj. unfold copy_into. rewrite length_replicate.
  destruct (decide (j < length src)%nat) as [Hlt|Hge].
  - rewrite lookup_app_l by (rewrite length_take; lia).
    by rewrite lookup_take_lt by lia.
  - rewrite lookup_app_r by (rewrite length_take; lia).
    rewrite lookup_drop, lookup_replicate_2 by (rewrite length_take; lia).
    by rewrite lookup_ge_None_2 by lia.
Qed.

Lemma Copy_body b (i : Z) (st : list (list Z)) :
  0 ≤ i < size b → i < Z.of_nat (length (state b)) →
  length st = Z.to_nat (size b) →
  (row ← make (size b) 0;
   _ ← at_index st i;
   let st := <[Z.to_nat i := row]> st in
   dst ← at_index st i;
   src ← at_index (state b) i;
   Some (<[Z.to_nat i := copy_into dst src]> st))
  = Some (<[Z.to_nat i := copy_into (replicate (Z.to_nat (size b)) 0)
                            (default [] (at_index (state b) i))]> st).
Proof.
  intros Hi Hrow Hst. rewrite make_Some by lia. simpl.
  destruct (at_index_lt st i) as [x ->]; [lia|]. simpl.
  rewrite at_index_insert by lia. simpl.
  destruct (at_index_lt (state b) i) as [row ->]; [lia|]. simpl.
  by rewrite list_insert_insert_eq.
Qed.

Lemma Copy_rows b :
  0 ≤ size b → size b ≤ Z.of_nat (length (state b)) →
  Copy b = Some (mkBoard (size b) (copied_rows b)).
Proof.
  intros Hn Hlen. unfold Copy.
  rewrite (make_Some _ ([] : list Z)) by done. simpl.
  rewrite (for_range_fill _
    (λ i, copy_into (replicate (Z.to_nat (size b)) 0)
                    (default [] (at_index (state b) i)))); [done..| |].
  - by rewrite length_replicate.
  - intros i st Hi Hst. apply Copy_body; (done || lia).
Qed.

Lemma Copy_short b :
  0 ≤ size b → Z.of_nat (length (state b)) < size b → Copy b = None.
Proof.
  intros Hn Hlen. unfold Copy.
  rewrite (make_Some _ ([] : list Z)) by done. simpl. unfold for_range.
  set (m := length (state b)).
  assert (seqZ 0 (size b)
          = seqZ 0 (Z.of_nat m) ++ Z.of_nat m :: seqZ (Z.of_nat m + 1) (size b - Z.of_nat m - 1))
    as ->.
  { replace (size b) with (Z.of_nat m + (size b - Z.of_nat m)) at 1 by lia.
    rewrite seqZ_app by lia. f_equal. rewrite seqZ_cons by lia. f_equal; f_equal; lia. }
  rewrite for_each_app.
  rewrite (for_each_fill_upto _
    (λ i, copy_into (replicate (Z.to_nat (size b)) 0)
                    (default [] (at_index (state b) i))) (size b));
    [|by rewrite length_replicate|lia|].
  - simpl. rewrite make_Some by lia. simpl.
    set (st := _ ++ _).
    assert (length st = Z.to_nat (size b)) as Hst.
    { unfold st. rewrite length_app, length_fmap, length_seqZ, length_drop,
        length_replicate. lia. }
    destruct (at_index_lt st (Z.of_nat m)) as [x ->]; [lia|]. simpl.
    rewrite at_index_insert by lia. simpl.
    rewrite (at_index_nonneg (state b)) by lia.
    rewrite lookup_ge_None_2 by (unfold m; lia). done.
  - intros i st Hi Hst. apply Copy_body; (done || lia).
Qed.

Lemma copied_rows_wf b : 0 ≤ size b → wf (mkBoard (size b) (copied_rows b)).
Proof.
  intros Hn. unfold copied_rows. split_and!; simpl.
  - done.
  - by rewrite length_fmap, length_seqZ.
  - apply Forall_fmap, Forall_forall. intros i _. simpl.
    apply length_copy_into_make.
Qed.

Lemma copied_rows_tile b i j :
  0 ≤ i < size b → 0 ≤ j < size b →
  tile (mkBoard (size b) (copied_rows b)) i j = tile b i j.
Proof.
  intros Hi Hj. unfold tile, cell, copied_rows. simpl.
  rewrite at_index_fmap_seqZ by done. simpl.
  rewrite (at_index_nonneg _ j) by lia.
  rewrite copy_into_make_lookup by lia.
  destruct (at_index (state b) i) as [row|]; simpl.
  - by rewrite at_index_nonneg by lia.
  - done.
Qed.

(** X2. [Copy] panics exactly when the size is negative or the board has
    fewer rows than its size. Otherwise it returns a well-formed board of
    the same size with the same tile in every cell of the grid (a cell
    missing from a short row reads as 0 on both sides), and copying the
    copy gives the copy back. [Copy] returns a board equal to its receiver
    exactly when the receiver is well-formed. *)
Theorem Copy_spec :
  ∀ b,
    (Copy b = None ↔ size b < 0 ∨ Z.of_nat (length (state b)) < size b) ∧
    (∀ c, Copy b = Some c →
       wf c ∧ size c = size b ∧
       (∀ i j, 0 ≤ i < size b → 0 ≤ j < size b → tile c i j = tile b i j) ∧
       Copy c = Some c) ∧
    (Copy b = Some b ↔ wf b).
Proof.
  intros b.
  assert (∀ c, Copy b = Some c →
            wf c ∧ size c = size b ∧
            (∀ i j, 0 ≤ i < size b → 0 ≤ j < size b → tile c i j = tile b i j) ∧
            Copy c = Some c) as Hsome.
  { intros c Hc.
    destruct (decide (size b < 0)) as [Hneg|Hn].
    { unfold Copy, make in Hc. by rewrite bool_decide_true in Hc. }
    destruct (decide (Z.of_nat (length (state b)) < size b)) as [Hshort|Hlen].
    { rewrite Copy_short in Hc by lia. done. }
    rewrite Copy_rows in Hc by lia. injection Hc as <-.
    pose proof (copied_rows_wf b ltac:(lia)) as Hwf.
    split_and!; [done|done| |by apply Copy_wf].
    intros i j Hi Hj. by apply copied_rows_tile. }
  split_and!; [|done|].
  - split.
    + intros Hnone.
      destruct (decide (size b < 0)) as [Hneg|Hn]; [by left|].
      destruct (decide (Z.of_nat (length (state b)) < size b)) as [Hshort|Hlen];
        [by right|].
      rewrite Copy_rows in Hnone by lia. done.
    + intros [Hneg|Hshort].
      * unfold Copy, make. by rewrite bool_decide_true.
      * destruct (decide (size b < 0)) as [Hneg|Hn].
        -- unfold Copy, make. by rewrite bool_decide_true.
        -- apply Copy_short; lia.
  - split; [|apply Copy_wf]. intros Hc. by destruct (Hsome b Hc) as (Hwf & _).
Qed.

Lemma Copy_spec_witness :
  Copy (mkBoard 2 [[1; 0]]) = None ∧
  (wf (mkBoard 2 [[1]; [2; 3; 4]]) → False) ∧
  ∃ c, Copy (mkBoard 2 [[1]; [2; 3; 4]]) = Some c ∧ wf c ∧ size c = 2 ∧
       tile c 0 1 = 0 ∧ tile c 1 1 = 3 ∧ Copy c = Some c.
Proof.
  split_and!.
  - apply (Copy_spec (mkBoard 2 [[1; 0]])). right. simpl. lia.
  - intros (_ & _ & Hrows). simpl in Hrows.
    apply Forall_cons in Hrows as [Hrow _]. simpl in Hrow. lia.
  - exists (mkBoard 2 [[1; 0]; [2; 3]]).
    destruct (Copy_spec (mkBoard 2 [[1]; [2; 3; 4]])) as (_ & H & _).
    destruct (H (mkBoard 2 [[1; 0]; [2; 3]])) as (H1 & H2 & H3 & H4); [reflexivity|].
    split_and!; [reflexivity|exact H1|exact H2|reflexivity|reflexivity|exact H4].
Defined.

(** ** [tileIndx] *)

Lemma seqZ_before (n i : Z) (l1 l2 : list Z) (k : Z) :
  seqZ 0 n = l1 ++ i :: l2 → 0 ≤ k < i → k ∈ l1.
Proof.
  intros Hl Hk.
  assert (seqZ 0 n !! length l1 = Some i) as Hi.
  { rewrite Hl. apply list_lookup_middle. done. }
  apply lookup_seqZ in Hi as [Hi Hlt].
  assert (seqZ 0 n !! Z.to_nat k = Some k) as Hk'.
  { rewrite lookup_seqZ_lt by lia. f_equal. lia. }
  rewrite Hl, lookup_app_l in Hk' by lia.
  by eapply list_elem_of_lookup_2.
Qed.

Lemma tileIndx_row_first b x i j :
  wf b → 0 ≤ i < size b → tileIndx_row b x i = Some (Some (i, j)) →
  ∀ j', 0 ≤ j' < j → tile b i j' ≠ x.
Proof.
  intros Hwf Hi. unfold tileIndx_row.
  destruct (first_of_pure (seqZ 0 (size b))
              (λ j, x' ← cell b i j;
                    Some (if bool_decide (x' = x) then Some (i, j) else None))
              (λ j, if bool_decide (tile b i j = x) then Some (i, j) else None))
    as (res & Hres & Hspec).
  { intros k Hk%elem_of_seqZ. rewrite wf_cell by (done || lia). done. }
  rewrite Hres. intros [= ->].
  destruct Hspec as (l1 & k & l2 & Hl & Hk & Hbefore).
  case_bool_decide; [|done]. injection Hk as <-.
  intros j' Hj'. specialize (Hbefore j' (seqZ_before _ _ _ _ _ Hl Hj')).
  by case_bool_decide.
Qed.

Lemma tileIndx_first b x i j :
  wf b → tileIndx b x = Some (i, j, true) →
  ∀ i' j', 0 ≤ i' < size b → 0 ≤ j' < size b →
           i' < i ∨ (i' = i ∧ j' < j) → tile b i' j' ≠ x.
Proof.
  intros Hwf. unfold tileIndx.
  destruct (first_of_pure (seqZ 0 (size b)) (tileIndx_row b x)
              (λ i, default None (tileIndx_row b x i)))
    as (res & Hres & Hspec).
  { intros k Hk%elem_of_seqZ.
    destruct (tileIndx_row_wf b x k) as (r & -> & _); [done|lia|done]. }
  rewrite Hres. simpl. destruct res as [[i0 j0]|]; [|done]. intros [= -> ->].
  destruct Hspec as (l1 & k & l2 & Hl & Hk & Hbefore).
  assert (k ∈ seqZ 0 (size b)) as Hkin%elem_of_seqZ.
  { rewrite Hl. apply elem_of_app. right. left. }
  destruct (tileIndx_row_wf b x k) as (r & Hr & Hrs); [done|lia|].
  rewrite Hr in Hk. simpl in Hk. subst r.
  destruct Hrs as (j0 & [= -> ->] & Hj0 & Ht).
  intros i' j' Hi' Hj' [Hlt|[-> Hlt]].
  - specialize (Hbefore i' (seqZ_before (size b) k l1 l2 i' Hl ltac:(lia))).
    destruct (tileIndx_row_wf b x i') as (r & Hr' & Hrs'); [done|lia|].
    rewrite Hr' in Hbefore. simpl in Hbefore. subst r. by apply Hrs'.
  - apply (tileIndx_row_first b x k j0 Hwf ltac:(lia) Hr). lia.
Qed.

(** X3. On a well-formed board [tileIndx] does not panic. It reports
    [(-1, -1, false)] exactly when no cell holds the value; otherwise it
    returns a cell of the grid that holds the value, the first one in
    row-major order. On a valid board it returns the cell of every tile:
    [tileIndx(b[i][j]) = (i, j, true)]. *)
Theorem tileIndx_locates :
  ∀ b x, wf b →
    (∃ r, tileIndx b x = Some r) ∧
    (tileIndx b x = Some (-1, -1, false) ↔ x ∉ concat (state b)) ∧
    (∀ i j, tileIndx b x = Some (i, j, true) →
       0 ≤ i < size b ∧ 0 ≤ j < size b ∧ tile b i j = x ∧
       ∀ i' j', 0 ≤ i' < size b → 0 ≤ j' < size b →
                i' < i ∨ (i' = i ∧ j' < j) → tile b i' j' ≠ x) ∧
    (valid b → ∀ i j, 0 ≤ i < size b → 0 ≤ j < size b →
       tileIndx b (tile b i j) = Some (i, j, true)).
Proof.
  intros b x Hwf. split_and!.
  - destruct (tileIndx_wf b x Hwf) as [[-> _]|(i & j & -> & _)]; eauto.
  - rewrite <- tiles_concat, elem_of_tiles by done. split.
    + intros Hidx (i & j & Hi & Hj & Ht).
      destruct (tileIndx_wf b x Hwf) as [[_ Hno]|(i' & j' & Hidx' & _)].
      * by apply (Hno i j).
      * congruence.
    + intros Hno.
      destruct (tileIndx_wf b x Hwf) as [[Hidx _]|(i & j & _ & Hi & Hj & Ht)];
        [done|].
      exfalso. apply Hno. eauto.
  - intros i j Hidx.
    destruct (tileIndx_wf b x Hwf) as [[Hidx' _]|(i' & j' & Hidx' & Hi & Hj & Ht)];
      [congruence|].
    rewrite Hidx in Hidx'. injection Hidx' as <- <-.
    split_and!; [lia..|done|]. by apply tileIndx_first.
  - intros Hv i j Hi Hj.
    destruct (tileIndx_wf b (tile b i j) Hwf)
      as [[_ Hno]|(i' & j' & Hidx' & Hi' & Hj' & Ht)].
    { exfalso. by apply (Hno i j). }
    assert ((i', j') = (i, j)) as [= -> ->]; [|done].
    by apply (valid_tile_inj b).
Qed.

Lemma tileIndx_locates_witness :
  tileIndx board_3x3 9 = Some (-1, -1, false) ∧
  tileIndx board_3x3 (tile board_3x3 2 1) = Some (2, 1, true).
Proof.
  assert (valid board_3x3) as Hv by (by apply validb_valid).
  destruct (tileIndx_locates board_3x3 9 (valid_wf _ Hv)) as (_ & H2 & _).
  destruct (tileIndx_locates board_3x3 0 (valid_wf _ Hv)) as (_ & _ & _ & H4).
  split.
  - apply H2. rewrite (valid_elem_of _ _ Hv). simpl. lia.
  - apply H4; [done|simpl; lia|simpl; lia].
Defined.

(** ** [DiffN] as the test for the target *)

Lemma count_if_zero {A} (p : A → bool) (l : list A) :
  count_if p l = 0 ↔ ∀ x, x ∈ l → p x = false.
Proof.
  unfold count_if. induction l as [|x l IH]; simpl.
  - split; [|done]. intros _ y Hy. by apply elem_of_nil in Hy.
  - pose proof (count_if_bounds p l) as [Hl _]. unfold count_if in Hl.
    split.
    + intros Hsum y [->|Hy]%elem_of_cons.
      * destruct (p x); [lia|done].
      * apply IH; [|done]. destruct (p x); lia.
    + intros Hall. rewrite (Hall x) by left.
      enough (sumZ (λ x, if p x then 1 else 0) l = 0) by lia.
      apply IH. intros y Hy. apply Hall. by right.
Qed.

Lemma diff_count_zero b t :
  diff_count b t = 0 ↔
  ∀ i j, 0 ≤ i < size b → 0 ≤ j < size b → tile b i j = 0 ∨ tile b i j = tile t i j.
Proof.
  unfold diff_count. rewrite count_if_zero. split.
  - intros Hall i j Hi Hj.
    specialize (Hall (i, j) ltac:(by apply elem_of_cells)).
    unfold off_target in Hall. apply bool_decide_eq_false in Hall. simpl in Hall.
    destruct (decide (tile b i j = 0)); [by left|].
    destruct (decide (tile b i j = tile t i j)); [by right|tauto].
  - intros Hall [i j] [Hi Hj]%elem_of_cells. unfold off_target. simpl.
    apply bool_decide_eq_false. destruct (Hall i j Hi Hj); tauto.
Qed.

(** Two valid boards of one size that agree wherever the first holds a tile
    are the same board: their blanks are in the same cell as well. *)
Lemma valid_agree_eq b t :
  valid b → valid t → size b = size t →
  (∀ i j, 0 ≤ i < size b → 0 ≤ j < size b → tile b i j = 0 ∨ tile b i j = tile t i j) →
  b = t.
Proof.
  intros Hb Ht Hsz Hag.
  apply board_ext; [by apply valid_wf..|done|].
  intros i j Hi Hj. destruct (Hag i j Hi Hj) as [H0|Heq]; [|done].
  pose proof Ht as (Htwf & Htpos & Htperm).
  assert (0 ∈ tiles t) as Hin.
  { rewrite tiles_concat, Htperm by done. apply elem_of_seqZ. nia. }
  apply elem_of_tiles in Hin as (i' & j' & Hi' & Hj' & Ht0).
  destruct (decide ((i', j') = (i, j))) as [[= -> ->]|Hne]; [congruence|].
  exfalso. apply Hne.
  destruct (Hag i' j' ltac:(lia) ltac:(lia)) as [H0'|Heq'].
  - apply (valid_tile_inj b); [done|split; simpl; lia..|simpl; congruence].
  - apply (valid_tile_inj b); [done|split; simpl; lia..|simpl; congruence].
Qed.

(** X4. On well-formed boards [DiffN] panics exactly when the sizes
    differ, and it returns 0 exactly when every cell of the receiver holds
    the blank or the tile the target holds there. For two valid boards of
    one size the diff is 0 exactly when the boards are equal: a search that
    sends 0 has reached its target. *)
Theorem DiffN_zero_iff_target :
  ∀ b t, wf b → wf t →
    (DiffN b t = None ↔ size b ≠ size t) ∧
    (size b = size t →
       (DiffN b t = Some 0 ↔
        ∀ i j, 0 ≤ i < size b → 0 ≤ j < size b →
               tile b i j = 0 ∨ tile b i j = tile t i j)) ∧
    (valid b → valid t → size b = size t → (DiffN b t = Some 0 ↔ b = t)).
Proof.
  intros b t Hb Ht. split_and!.
  - split.
    + intros Hnone Hsz. by rewrite DiffN_count in Hnone.
    + intros Hsz. unfold DiffN. by rewrite bool_decide_true.
  - intros Hsz. rewrite DiffN_count by done. rewrite <- diff_count_zero.
    split; [by intros [= ->]|by intros ->].
  - intros Hvb Hvt Hsz. rewrite DiffN_count by done. split.
    + intros [= H0]. apply valid_agree_eq; [done..|]. by apply diff_count_zero.
    + intros <-. by rewrite diff_count_self.
Qed.

Lemma DiffN_zero_iff_target_witness :
  DiffN board_2x2 board_3x3 = None ∧
  DiffN (canonical 2) (canonical 2) = Some 0 ∧
  (DiffN board_2x2 (canonical 2) = Some 0 → False).
Proof.
  assert (valid board_2x2) as Hb by (by apply validb_valid).
  assert (valid board_3x3) as Hb3 by (by apply validb_valid).
  assert (valid (canonical 2)) as Hc by (by apply validb_valid).
  split_and!.
  - apply (DiffN_zero_iff_target board_2x2 board_3x3); [by apply valid_wf..|done].
  - apply (DiffN_zero_iff_target (canonical 2) (canonical 2));
      [by apply valid_wf..|done|done|done|done].
  - intros H0.
    apply (DiffN_zero_iff_target board_2x2 (canonical 2)) in H0;
      [done|by apply valid_wf..|done|done|done].
Defined.

(** ** Moves: the neighbours of a tile *)

Lemma tileIndx_valid b i j :
  valid b → 0 ≤ i < size b → 0 ≤ j < size b →
  tileIndx b (tile b i j) = Some (i, j, true).
Proof.
  intros Hv Hi Hj.
  destruct (tileIndx_wf b (tile b i j) (valid_wf b Hv))
    as [[_ Hno]|(i' & j' & Hidx' & Hi' & Hj' & Ht)].
  { exfalso. by apply (Hno i j). }
  assert ((i', j') = (i, j)) as [= -> ->]; [|done].
  by apply (valid_tile_inj b).
Qed.

(** The neighbours [FindNeighbors] returns for the tile of the cell [p]:
    the exchanges of [p] with the cells next to it, in the order up, down,
    left, right. *)
Lemma FindNeighbors_tile b p :
  valid b → in_grid (size b) p →
  ∃ ns, FindNeighbors b (tile b p.1 p.2) = Some ns ∧
        Forall2 (swap_of b p) (filter (in_grid (size b)) (directions p)) ns.
Proof.
  intros Hv Hp. destruct p as [i j]. pose proof Hp as [Hi Hj]. simpl in *.
  apply FindNeighbors_found; [by apply valid_wf| |done].
  by apply tileIndx_valid.
Qed.

(** What [FindNeighbors] returns on a valid board. *)
Lemma FindNeighbors_cases b x ns :
  valid b → FindNeighbors b x = Some ns →
  ns = [] ∨
  ∃ p, in_grid (size b) p ∧ tile b p.1 p.2 = x ∧
       Forall2 (swap_of b p) (filter (in_grid (size b)) (directions p)) ns.
Proof.
  intros Hv Hns.
  destruct (tileIndx_wf b x (valid_wf b Hv)) as [[Hidx _]|(i & j & Hidx & Hi & Hj & Ht)].
  - left. rewrite (FindNeighbors_missing b x) in Hns by (done || by apply valid_wf).
    by injection Hns as <-.
  - right. exists (i, j). split_and!; [done..|].
    destruct (FindNeighbors_tile b (i, j) Hv) as (ns' & Hns' & Hsw); [done|].
    simpl in Hns'. rewrite Ht, Hns in Hns'. by injection Hns' as <-.
Qed.

Lemma directions_sym p q : q ∈ directions p → p ∈ directions q.
Proof.
  destruct p as [i j], q as [i' j']. unfold directions. simpl.
  rewrite !elem_of_cons, !elem_of_nil.
  intros [E|[E|[E|[E|[]]]]]; injection E as -> ->.
  - right. left. f_equal. lia.
  - left. f_equal. lia.
  - right. right. right. left. f_equal. lia.
  - right. right. left. f_equal. lia.
Qed.

(** Exchanging the same two cells again gives the board back. *)
Lemma swap_of_back b p q c c' :
  wf b → swap_of b p q c → swap_of c q p c' → c' = b.
Proof.
  intros Hb (Hc & Hsz & Ht) (Hc' & Hsz' & Ht').
  apply board_ext; [done|done|congruence|].
  intros i j Hi Hj. rewrite Ht', !Ht.
  destruct p as [pi pj], q as [qi qj]. simpl.
  repeat case_decide; simplify_eq/=; done.
Qed.

Lemma swap_of_sym b p q c : wf b → swap_of b p q c → swap_of c p q b.
Proof.
  intros Hb (Hc & Hsz & Ht). split_and!; [done|done|].
  intros r s. rewrite !Ht.
  destruct p as [pi pj], q as [qi qj]. simpl.
  repeat case_decide; simplify_eq/=; done.
Qed.

(** X5. Moves can be taken back: on a valid board, every board that
    [FindNeighbors] returns for a tile is a valid board of the same size,
    and [FindNeighbors] for the same tile on that board returns the
    original board among its neighbours. *)
Theorem FindNeighbors_reversible :
  ∀ b x ns c, valid b → FindNeighbors b x = Some ns → c ∈ ns →
    valid c ∧ size c = size b ∧ c ≠ b ∧
    ∃ ns', FindNeighbors c x = Some ns' ∧ b ∈ ns'.
Proof.
  intros b x ns c Hv Hns Hc.
  destruct (FindNeighbors_cases b x ns Hv Hns) as [->|(p & Hp & Hx & Hsw)].
  { by apply elem_of_nil in Hc. }
  apply list_elem_of_lookup in Hc as [k Hk].
  destruct (Forall2_lookup_r _ _ _ _ _ Hsw Hk) as (q & Hq & Hqc).
  apply list_elem_of_lookup_2, list_elem_of_filter in Hq as [Hqg Hqd].
  assert (valid c) as Hvc by (by apply (swap_of_valid b p q)).
  pose proof Hqc as (_ & Hsz & Ht).
  assert (p ≠ q) as Hpq by (by apply swap_of_direction_ne).
  split_and!; [done..| |].
  - intros ->. apply Hpq. apply (valid_tile_inj b); [done..|].
    destruct q as [qi qj]. simpl. pose proof (Ht qi qj) as Hq'.
    by rewrite decide_True in Hq'.
  - destruct (FindNeighbors_tile c q Hvc) as (ns' & Hns' & Hsw'); [by rewrite Hsz|].
    assert (tile c q.1 q.2 = x) as Hcq.
    { destruct q as [qi qj]. simpl. rewrite Ht. by rewrite decide_True. }
    rewrite Hcq in Hns'. exists ns'. split; [done|].
    assert (p ∈ filter (in_grid (size c)) (directions q)) as Hin.
    { apply list_elem_of_filter. split; [by rewrite Hsz|by apply directions_sym]. }
    apply list_elem_of_lookup in Hin as [k' Hk'].
    destruct (Forall2_lookup_l _ _ _ _ _ Hsw' Hk') as (c' & Hc' & Hqc').
    rewrite <- (swap_of_back b p q c c' (valid_wf b Hv) Hqc Hqc').
    by eapply list_elem_of_lookup_2.
Qed.

Lemma FindNeighbors_reversible_witness :
  let c := mkBoard 2 [[0; 1]; [2; 3]] in
  valid c ∧ size c = size board_2x2 ∧ c ≠ board_2x2 ∧
  ∃ ns', FindNeighbors c 0 = Some ns' ∧ board_2x2 ∈ ns'.
Proof.
  apply (FindNeighbors_reversible board_2x2 0
           [mkBoard 2 [[1; 3]; [2; 0]]; mkBoard 2 [[0; 1]; [2; 3]]]).
  - by apply validb_valid.
  - reflexivity.
  - right. left.
Defined.

(** ** What a move does to the diff *)

Lemma sumZ_zero_in {A} (h : A → Z) (l : list A) :
  (∀ x, x ∈ l → h x = 0) → sumZ h l = 0.
Proof.
  intros Hz. rewrite (sumZ_ext h (λ _, 0)) by done. clear Hz.
  induction l; simpl; lia.
Qed.

Lemma sumZ_two_places {A} (h : A → Z) (p q : A) (l : list A) :
  NoDup l → p ∈ l → q ∈ l → p ≠ q →
  (∀ x, x ∈ l → x ≠ p → x ≠ q → h x = 0) → sumZ h l = h p + h q.
Proof.
  intros Hnd Hp Hq Hpq Hz.
  apply elem_of_Permutation in Hp as [l1 Hl1].
  assert (q ∈ l1) as Hq1.
  { rewrite Hl1 in Hq. apply elem_of_cons in Hq as [->|Hq]; done. }
  apply elem_of_Permutation in Hq1 as [l2 Hl2].
  rewrite Hl2 in Hl1. rewrite Hl1 in Hnd.
  apply NoDup_cons in Hnd as [Hp2 Hnd]. apply NoDup_cons in Hnd as [Hq2 _].
  rewrite (sumZ_perm _ _ _ Hl1). simpl.
  rewrite sumZ_zero_in; [lia|].
  intros x Hx. apply Hz.
  - rewrite Hl1. by do 2 right.
  - intros ->. apply Hp2. by right.
  - by intros ->.
Qed.

(** Moving the tile of the cell [q] into the blank cell [p]: the cell [p]
    counts from then on unless the tile is on target there, and the cell
    [q] counts no more. *)
Lemma swap_of_blank_diff b p q c t :
  swap_of b p q c → in_grid (size b) p → in_grid (size b) q → p ≠ q →
  tile b p.1 p.2 = 0 → tile b q.1 q.2 ≠ 0 →
  diff_count c t - diff_count b t =
  (if decide (tile b q.1 q.2 = tile t p.1 p.2) then 0 else 1)
  - (if decide (tile b q.1 q.2 = tile t q.1 q.2) then 0 else 1).
Proof.
  intros (_ & Hsz & Ht) Hp Hq Hpq Hp0 Hq0. unfold diff_count, count_if.
  rewrite Hsz, <- sumZ_sub.
  rewrite (sumZ_two_places _ p q);
    [ |apply NoDup_cells|destruct p; by apply elem_of_cells
      |destruct q; by apply elem_of_cells|done| ].
  - unfold off_target. rewrite !Ht.
    destruct p as [pi pj], q as [qi qj]. simpl in *.
    rewrite (decide_False (P := (pi, pj) = (qi, qj))) by done.
    rewrite !decide_True by done. rewrite Hp0.
    repeat case_bool_decide; repeat case_decide; (lia || tauto).
  - intros [r s] _ Hrp Hrq. unfold off_target. simpl. rewrite Ht.
    rewrite !decide_False by done. lia.
Qed.

(** X6. One move of the blank changes the diff by at most one. When a
    neighbour of the blank on a valid board is scored against a target of
    the same size, its diff is the diff of the board, plus one unless the
    tile moved is on target in the cell it enters, minus one unless it was
    on target in the cell it leaves. A move of any tile changes the diff by
    at most two. *)
Theorem FindNeighbors_move_diff :
  ∀ b t x ns c, valid b → wf t → size t = size b →
    FindNeighbors b x = Some ns → c ∈ ns →
    ∃ p q d d',
      in_grid (size b) p ∧ in_grid (size b) q ∧ q ∈ directions p ∧
      tile b p.1 p.2 = x ∧ swap_of b p q c ∧
      DiffN b t = Some d ∧ DiffN c t = Some d' ∧
      -2 ≤ d' - d ≤ 2 ∧
      (x = 0 →
       d' - d = (if decide (tile b q.1 q.2 = tile t p.1 p.2) then 0 else 1)
                - (if decide (tile b q.1 q.2 = tile t q.1 q.2) then 0 else 1) ∧
       -1 ≤ d' - d ≤ 1).
Proof.
  intros b t x ns c Hv Ht Hsz Hns Hc.
  destruct (FindNeighbors_cases b x ns Hv Hns) as [->|(p & Hp & Hx & Hsw)].
  { by apply elem_of_nil in Hc. }
  apply list_elem_of_lookup in Hc as [k Hk].
  destruct (Forall2_lookup_r _ _ _ _ _ Hsw Hk) as (q & Hq & Hqc).
  apply list_elem_of_lookup_2, list_elem_of_filter in Hq as [Hqg Hqd].
  assert (valid c) as Hvc by (by apply (swap_of_valid b p q)).
  pose proof Hqc as (_ & Hszc & _).
  assert (p ≠ q) as Hpq by (by apply swap_of_direction_ne).
  exists p, q, (diff_count b t), (diff_count c t).
  split_and!; [done..| | | | |].
  - apply DiffN_count; [by apply valid_wf|done|done].
  - apply DiffN_count; [by apply valid_wf|done|congruence].
  - pose proof (swap_of_diff_lower b p q c t Hqc). lia.
  - pose proof (swap_of_diff_lower c p q b t (swap_of_sym b p q c (valid_wf b Hv) Hqc)).
    lia.
  - intros ->.
    assert (tile b q.1 q.2 ≠ 0) as Hq0.
    { intros H0. apply Hpq. apply (valid_tile_inj b); [done..|congruence]. }
    pose proof (swap_of_blank_diff b p q c t Hqc Hp Hqg Hpq Hx Hq0) as Hd.
    split; [done|]. rewrite Hd. repeat case_decide; lia.
Qed.

Lemma FindNeighbors_move_diff_witness :
  ∃ p q d d',
    in_grid 2 p ∧ in_grid 2 q ∧ q ∈ directions p ∧
    tile board_2x2 p.1 p.2 = 0 ∧
    swap_of board_2x2 p q (mkBoard 2 [[0; 1]; [2; 3]]) ∧
    DiffN board_2x2 (canonical 2) = Some d ∧
    DiffN (mkBoard 2 [[0; 1]; [2; 3]]) (canonical 2) = Some d' ∧
    -2 ≤ d' - d ≤ 2 ∧
    (0 = 0 →
     d' - d = (if decide (tile board_2x2 q.1 q.2 = tile (canonical 2) p.1 p.2)
               then 0 else 1)
              - (if decide (tile board_2x2 q.1 q.2 = tile (canonical 2) q.1 q.2)
                 then 0 else 1) ∧
     -1 ≤ d' - d ≤ 1).
Proof.
  apply (FindNeighbors_move_diff board_2x2 (canonical 2) 0
           [mkBoard 2 [[1; 3]; [2; 0]]; mkBoard 2 [[0; 1]; [2; 3]]]).
  - by apply validb_valid.
  - apply valid_wf. by apply validb_valid.
  - reflexivity.
  - reflexivity.
  - right. left.
Defined.

(** ** [FindNeighborRand] *)

(** X7. [FindNeighborRand] panics only where [FindNeighbors] does: the
    bound it passes to [rand.Intn] is positive and the index drawn is in
    range. When there is no neighbour it returns nil without drawing;
    otherwise it draws once and returns the neighbour at the index drawn. *)
Theorem FindNeighborRand_member `{RG : Rand G F} :
  ∀ b x (g : G),
    (FindNeighborRand b x g = None ↔ FindNeighbors b x = None) ∧
    (FindNeighbors b x = Some [] → FindNeighborRand b x g = Some (None, g)) ∧
    (∀ ns, FindNeighbors b x = Some ns → ns ≠ [] →
       ∃ k c g', rand_Intn (Z.of_nat (length ns)) g = Some (k, g') ∧
                 0 ≤ k ∧ ns !! Z.to_nat k = Some c ∧
                 FindNeighborRand b x g = Some (Some c, g')).
Proof.
  intros b x g.
  assert (∀ ns, FindNeighbors b x = Some ns → ns ≠ [] →
            ∃ k c g', rand_Intn (Z.of_nat (length ns)) g = Some (k, g') ∧
                      0 ≤ k ∧ ns !! Z.to_nat k = Some c ∧
                      FindNeighborRand b x g = Some (Some c, g')) as Hdraw.
  { intros ns Hns Hne. unfold FindNeighborRand. rewrite Hns. simpl.
    destruct ns as [|c0 ns]; [done|].
    destruct (rand_Intn_pos (Z.of_nat (length (c0 :: ns))) g) as [[k g'] Hk].
    { simpl. lia. }
    rewrite Hk. simpl. pose proof (rand_Intn_range _ _ _ _ Hk) as Hr.
    destruct (at_index_lookup (c0 :: ns) k Hr) as (c & Hc & Hc').
    rewrite Hc. simpl. exists k, c, g'. split_and!; [done|lia|done|done]. }
  split_and!; [|intros Hns; unfold FindNeighborRand; by rewrite Hns|done].
  split.
  - intros Hnone. destruct (FindNeighbors b x) as [ns|] eqn:Hns; [|done].
    exfalso. destruct ns as [|c0 ns].
    + unfold FindNeighborRand in Hnone. by rewrite Hns in Hnone.
    + destruct (Hdraw (c0 :: ns)) as (k & c & g' & _ & _ & _ & Hr); [done..|].
      congruence.
  - intros Hns. unfold FindNeighborRand. by rewrite Hns.
Qed.

Lemma FindNeighborRand_member_witness :
  FindNeighborRand board_1x1 0 [5] = Some (None, [5]) ∧
  ∃ k c g', rand_Intn 2 [5] = Some (k, g') ∧ 0 ≤ k ∧
            [mkBoard 2 [[1; 3]; [2; 0]]; mkBoard 2 [[0; 1]; [2; 3]]] !! Z.to_nat k
            = Some c ∧
            FindNeighborRand board_2x2 0 [5] = Some (Some c, g').
Proof.
  split.
  - apply (FindNeighborRand_member board_1x1 0 [5]). reflexivity.
  - destruct (FindNeighborRand_member board_2x2 0 [5]) as (_ & _ & H3).
    apply (H3 [mkBoard 2 [[1; 3]; [2; 0]]; mkBoard 2 [[0; 1]; [2; 3]]]);
      [reflexivity|done].
Defined.

(** ** Where hill climbing stops *)

(** A move of the blank changes the diff by at most one. *)
Lemma blank_move_bound b t ns c :
  valid b → FindNeighbors b 0 = Some ns → c ∈ ns →
  -1 ≤ diff_count c t - diff_count b t ≤ 1.
Proof.
  intros Hv Hns Hc.
  destruct (FindNeighbors_cases b 0 ns Hv Hns) as [->|(p & Hp & Hx & Hsw)].
  { by apply elem_of_nil in Hc. }
  apply list_elem_of_lookup in Hc as [k Hk].
  destruct (Forall2_lookup_r _ _ _ _ _ Hsw Hk) as (q & Hq & Hqc).
  apply list_elem_of_lookup_2, list_elem_of_filter in Hq as [Hqg Hqd].
  assert (p ≠ q) as Hpq by (by apply swap_of_direction_ne).
  assert (tile b q.1 q.2 ≠ 0) as Hq0.
  { intros H0. apply Hpq. apply (valid_tile_inj b); [done..|congruence]. }
  rewrite (swap_of_blank_diff b p q c t Hqc Hp Hqg Hpq Hx Hq0).
  repeat case_decide; lia.
Qed.

(** When the first least diff among the neighbours is not below [d], no
    neighbour scores below [d]. *)
Lemma first_min_least target (ns : list Board) k c d :
  ns !! k = Some c → first_min ((λ c, diff_count c target) <$> ns) k →
  d ≤ diff_count c target →
  Forall (λ c, d ≤ diff_count c target) ns.
Proof.
  intros Hc (d' & Hd & Hle & _) Hge.
  rewrite list_lookup_fmap, Hc in Hd. injection Hd as <-.
  apply Forall_forall. intros c' Hc'.
  apply list_elem_of_lookup in Hc' as [k' Hk'].
  specialize (Hle k' (diff_count c' target)).
  rewrite list_lookup_fmap, Hk' in Hle. specialize (Hle eq_refl). lia.
Qed.

(** A pass that emits when no neighbour scores below the board. *)
Lemma hc_climbs_stop target b ns :
  valid b → FindNeighbors b 0 = Some ns →
  Forall (λ c, valid c ∧ size c = size b) ns →
  hc_iter (Some b) target = Some (Emit (diff_count b target)) →
  Forall (λ c, diff_count b target ≤ diff_count c target) ns →
  hc_climbs target b 0 b ns.
Proof.
  intros Hv Hns Hall Hiter Hge. split_and!.
  - intros fuel Hfuel. by destruct (hc_stops b target _ Hiter fuel Hfuel) as [-> ->].
  - intros fuel Hfuel. by replace fuel with 0%nat by lia.
  - done.
  - done.
  - lia.
  - done.
  - rewrite Forall_forall in Hall, Hge. apply Forall_forall. intros c Hc.
    destruct (Hall c Hc). split_and!; [done..|by apply Hge].
Qed.

Lemma hc_climbs_move target b c moves e ns :
  size c = size b →
  hc_iter (Some b) target = Some (Continue (Some c)) →
  diff_count c target = diff_count b target - 1 →
  hc_climbs target c moves e ns →
  hc_climbs target b (S moves) e ns.
Proof.
  intros Hcs Hiter Hd (Hrun & Hshort & Hev & Hes & Hed & Hens & Hemin).
  split_and!.
  - intros [|fuel] Hfuel; [lia|].
    rewrite hc_loop_S, trajectory_S, Hiter.
    destruct (Hrun fuel ltac:(lia)) as (-> & Hlen & Hlast).
    split_and!; [done|simpl; by rewrite Hlen|].
    destruct (trajectory fuel c target) as [|c0 tr]; [done|].
    by rewrite last_cons, Hlast.
  - intros [|fuel] Hfuel; [done|].
    rewrite hc_loop_S, Hiter. apply Hshort. lia.
  - done.
  - lia.
  - lia.
  - done.
  - eapply Forall_impl; [exact Hemin|]. intros c' (? & ? & ?).
    split_and!; [done|lia|done].
Qed.

(** The search from [b] stops after at most [diff b] moves. *)
Lemma hc_climb target (m : nat) :
  wf target →
  ∀ b, valid b → size target = size b → size b * size b ≤ MaxInt32 →
       diff_count b target ≤ Z.of_nat m →
  ∃ (moves : nat) e ns, hc_climbs target b moves e ns.
Proof.
  intros Ht. induction m as [|m IH]; intros b Hv Hsz Hmax Hm.
  all: destruct (hc_iter_valid b target Hv Ht Hsz Hmax) as (ns & Hns & Hall & Hcase).
  all: destruct Hcase as [[Hnil Hiter]|(k & c & Hc & Hmin & Hiter)].
  - exists 0%nat, b, ns. apply hc_climbs_stop; [done..|]. by rewrite Hnil.
  - assert (¬ diff_count c target < diff_count b target) as Hge.
    { pose proof (diff_count_nonneg c target). lia. }
    rewrite bool_decide_false in Hiter by done.
    exists 0%nat, b, ns. apply hc_climbs_stop; [done..|].
    apply (first_min_least target ns k c (diff_count b target)); [done..|lia].
  - exists 0%nat, b, ns. apply hc_climbs_stop; [done..|]. by rewrite Hnil.
  - case_bool_decide as Hlt.
    + assert (c ∈ ns) as Hcin by (by eapply list_elem_of_lookup_2).
      pose proof (blank_move_bound b target ns c Hv Hns Hcin) as Hb.
      rewrite Forall_forall in Hall. destruct (Hall c Hcin) as [Hcv Hcs].
      destruct (IH c Hcv ltac:(lia) ltac:(by rewrite Hcs) ltac:(lia))
        as (moves & e & ns' & Hrun).
      exists (S moves), e, ns'. apply (hc_climbs_move target b c); [done..|lia|done].
    + exists 0%nat, b, ns. apply hc_climbs_stop; [done..|].
      apply (first_min_least target ns k c (diff_count b target)); [done..|lia].
Qed.

(** X10. From a valid start board whose cell count fits [MaxInt32], hill
    climbing makes a number of moves, each lowering the diff by exactly
    one, and then sends the diff [d] of the board [e] it has reached: [d]
    is the start diff minus the number of moves, and [e] is a local
    minimum, a valid board none of whose neighbours scores below [d]. The
    search makes one pass more than it makes moves. A start board with
    diff 0 is the target, and the search sends 0 in its first pass. *)
Theorem MinDiffHC_local_minimum :
  ∀ b target,
    valid b → wf target → size target = size b → size b * size b ≤ MaxInt32 →
    ∃ (moves : nat) e ns d0 d,
      DiffN b target = Some d0 ∧ DiffN e target = Some d ∧
      d = d0 - Z.of_nat moves ∧
      (∀ fuel, (moves < fuel)%nat →
         MinDiffHC fuel b target = Returned [d] ∧
         length (trajectory fuel b target) = S moves ∧
         last (trajectory fuel b target) = Some e) ∧
      (∀ fuel, (fuel ≤ moves)%nat → MinDiffHC fuel b target = Unfinished) ∧
      valid e ∧ size e = size b ∧
      FindNeighbors e 0 = Some ns ∧
      Forall (λ c, ∃ dc, DiffN c target = Some dc ∧ d ≤ dc) ns ∧
      (d0 = 0 → moves = 0%nat ∧ e = b).
Proof.
  intros b target Hv Ht Hsz Hmax.
  pose proof (diff_count_nonneg b target) as Hnn.
  destruct (hc_climb target (Z.to_nat (diff_count b target)) Ht b Hv Hsz Hmax
              ltac:(lia))
    as (moves & e & ns & Hrun & Hshort & Hev & Hes & Hed & Hens & Hemin).
  exists moves, e, ns, (diff_count b target), (diff_count e target).
  unfold MinDiffHC.
  split_and!; [| |done|done|done|done|done|done| |].
  - apply DiffN_count; [by apply valid_wf|done|done].
  - apply DiffN_count; [by apply valid_wf|done|congruence].
  - eapply Forall_impl; [exact Hemin|]. intros c (Hcv & Hcs & Hle).
    exists (diff_count c target). split; [|done].
    apply DiffN_count; [by apply valid_wf|done|congruence].
  - intros H0. pose proof (diff_count_nonneg e target).
    assert (moves = 0%nat) as -> by lia. split; [done|].
    destruct (Hrun 1%nat ltac:(lia)) as (_ & _ & Hlast).
    assert (trajectory 1 b target = [b]) as Htr.
    { rewrite trajectory_S. by destruct (hc_iter (Some b) target) as [[|[c|]]|]. }
    rewrite Htr in Hlast. by injection Hlast as <-.
Qed.

Lemma MinDiffHC_local_minimum_witness :
  ∃ (moves : nat) e ns d0 d,
    DiffN board_3x3 (canonical 3) = Some d0 ∧ DiffN e (canonical 3) = Some d ∧
    d = d0 - Z.of_nat moves ∧
    (∀ fuel, (moves < fuel)%nat →
       MinDiffHC fuel board_3x3 (canonical 3) = Returned [d] ∧
       length (trajectory fuel board_3x3 (canonical 3)) = S moves ∧
       last (trajectory fuel board_3x3 (canonical 3)) = Some e) ∧
    (∀ fuel, (fuel ≤ moves)%nat →
       MinDiffHC fuel board_3x3 (canonical 3) = Unfinished) ∧
    valid e ∧ size e = size board_3x3 ∧
    FindNeighbors e 0 = Some ns ∧
    Forall (λ c, ∃ dc, DiffN c (canonical 3) = Some dc ∧ d ≤ dc) ns ∧
    (d0 = 0 → moves = 0%nat ∧ e = board_3x3).
Proof.
  apply MinDiffHC_local_minimum.
  - by apply validb_valid.
  - apply valid_wf. by apply validb_valid.
  - reflexivity.
  - by vm_compute.
Defined.

(** ** What simulated annealing keeps *)

Section annealing_invariant.
Context `{FO : Float64Ops F, RG : Rand G F}.

Lemma sa_inner_inv (p : SimulatedAnnealParams F) (d0 : Z) (t : F) (i : Z) s (g : G) :
  2 ≤ size (Objective p) → wf (Objective p) → sa_inv (Objective p) d0 s →
  ∃ s' g', sa_inner p t i (s, g) = Some (s', g') ∧ sa_inv (Objective p) d0 s'.
Proof.
  intros Hn Hobj ([Hv Hsz] & Hcur & Hmin & Hd0). unfold sa_inner.
  destruct (FindNeighborRand_valid (currentBoard s) g Hv ltac:(lia))
    as (c & g' & -> & Hc & Hcs). simpl.
  rewrite (DiffN_count c (Objective p)) by (done || by apply valid_wf || lia). simpl.
  pose proof (diff_count_nonneg c (Objective p)) as Hnn.
  destruct (AcceptCandidate _ _ t g') as [[] g'']; eexists _, _; (split; [done|]).
  all: unfold sa_inv, sa_ok; simpl; split_and!; try done; try lia.
  all: case_bool_decide; lia.
Qed.

Lemma sa_loop_inv fuel (p : SimulatedAnnealParams F) (d0 : Z) clock k t s (g : G) :
  2 ≤ size (Objective p) → wf (Objective p) → sa_inv (Objective p) d0 s →
  match sa_loop fuel p clock k t s g with
  | Returned (s', sent) =>
      sa_inv (Objective p) d0 s' ∧
      sent = (if bool_decide (minDiff s' < currentDiff s')
              then [minDiff s'; currentDiff s'] else [currentDiff s'])
  | Panicked => False
  | Unfinished => True
  end.
Proof.
  intros Hn Hobj. revert k t s g.
  induction fuel as [|fuel IH]; intros k t s g Hs; [done|].
  cbn [sa_loop]. destruct (f_lt (TemperatureMin p) t).
  - destruct (for_each_total (λ sg : sa_state * G, sa_inv (Objective p) d0 sg.1)
                (seqZ 0 (Iterations p)) (sa_inner p t) (s, g)) as ([s1 g1] & Hin & Hs1).
    { intros i [s0 g0] Hs0.
      destruct (sa_inner_inv p d0 t i s0 g0 Hn Hobj Hs0) as (s0' & g0' & ? & ?).
      by exists (s0', g0'). }
    { done. }
    unfold for_range. rewrite Hin. case_bool_decide.
    + split; [done|]. by case_bool_decide.
    + by apply IH.
  - split; [done|]. by case_bool_decide.
Qed.

(** Without steps in the inner loop the state does not change. *)
Lemma sa_loop_idle_S fuel (p : SimulatedAnnealParams F) clock k t s (g : G) :
  Iterations p ≤ 0 →
  sa_loop (S fuel) p clock k t s g =
  let sent := (if bool_decide (minDiff s < currentDiff s) then [] ++ [minDiff s] else [])
              ++ [currentDiff s] in
  if f_lt (TemperatureMin p) t then
    if bool_decide (clock k > MaxTime p) then Returned (s, sent)
    else sa_loop fuel p clock (S k) (f_mul t (Alpha p)) s g
  else Returned (s, sent).
Proof.
  intros Hit. cbn [sa_loop]. unfold for_range. rewrite seqZ_nil by done. done.
Qed.

Lemma sa_loop_idle fuel (p : SimulatedAnnealParams F) clock k t s (g : G) :
  Iterations p ≤ 0 →
  match sa_loop fuel p clock k t s g with
  | Returned (s', sent) => s' = s
  | Panicked => False
  | Unfinished => True
  end.
Proof.
  intros Hit. revert k t. induction fuel as [|fuel IH]; intros k t; [done|].
  rewrite sa_loop_idle_S by done. cbv zeta.
  destruct (f_lt (TemperatureMin p) t); [|done].
  case_bool_decide; [done|]. apply IH.
Qed.

Lemma sa_loop_idle_returns (p : SimulatedAnnealParams F) clock (n : nat) :
  Iterations p ≤ 0 →
  ∀ k t s (g : G), clock (k + n)%nat > MaxTime p →
    ∃ sent, sa_loop (S n) p clock k t s g = Returned (s, sent).
Proof.
  intros Hit. induction n as [|n IH]; intros k t s g Hclock.
  all: rewrite sa_loop_idle_S by done; cbv zeta.
  all: destruct (f_lt (TemperatureMin p) t); [|by eauto].
  - rewrite Nat.add_0_r in Hclock. rewrite bool_decide_true by done. eauto.
  - case_bool_decide; [by eauto|].
    apply IH. by replace (S k + n)%nat with (k + S n)%nat by lia.
Qed.
End annealing_invariant.

(** A run from a valid board of size at least 2 does not panic and keeps
    the invariant. *)
Lemma MinDiffSA_run `{FO : Float64Ops F, RG : Rand G F}
    b (p : SimulatedAnnealParams F) clock (g : G) fuel :
  valid b → wf (Objective p) → size b = size (Objective p) → 2 ≤ size b →
  match MinDiffSA fuel b p clock g with
  | Returned (s', sent) =>
      sa_inv (Objective p) (diff_count b (Objective p)) s' ∧
      sent = (if bool_decide (minDiff s' < currentDiff s')
              then [minDiff s'; currentDiff s'] else [currentDiff s'])
  | Panicked => False
  | Unfinished => True
  end.
Proof.
  intros Hv Hobj Hsz Hn. unfold MinDiffSA.
  rewrite (DiffN_count b (Objective p)) by (done || by apply valid_wf).
  apply sa_loop_inv; [lia|done|].
  pose proof (diff_count_nonneg b (Objective p)).
  unfold sa_inv, sa_ok. simpl. split_and!; (done || lia).
Qed.

(** Under the invariant the values sent are diffs of the board size. *)
Lemma sa_inv_sent (objective : Board) (d0 : Z) (s : sa_state) :
  wf objective → sa_inv objective d0 s →
  let sent := if bool_decide (minDiff s < currentDiff s)
              then [minDiff s; currentDiff s] else [currentDiff s] in
  DiffN (currentBoard s) objective = Some (currentDiff s) ∧
  currentDiff s ≤ size objective * size objective - 1 ∧
  Forall (λ v, 0 ≤ v ≤ size objective * size objective - 1) sent ∧
  (1 ≤ length sent ≤ 2)%nat.
Proof.
  intros Hobj ([Hsv Hss] & Hcur & Hmin & Hd0).
  pose proof (DiffN_valid_bounds (currentBoard s) objective Hsv Hobj
                ltac:(congruence)) as [Hdiff Hb].
  rewrite <- Hcur in Hdiff, Hb. rewrite Hss in Hb.
  split_and!; [done|lia| | |].
  - case_bool_decide; repeat constructor; lia.
  - case_bool_decide; simpl; lia.
  - case_bool_decide; simpl; lia.
Qed.

(** X11. Simulated annealing from a valid board of size at least 2,
    against an objective of the same size, never panics, and it returns
    once the clock has passed the time budget. When it returns, the current
    board is a valid board of the same size, [currentDiff] is its diff
    against the objective, the running minimum is at most the start diff,
    and the one or two values sent lie between 0 and [size² - 1]. *)
Theorem MinDiffSA_safe `{FO : Float64Ops F, RG : Rand G F} :
  ∀ b (p : SimulatedAnnealParams F) clock (g : G),
    valid b → wf (Objective p) → size b = size (Objective p) → 2 ≤ size b →
    (∀ fuel, MinDiffSA fuel b p clock g ≠ Panicked) ∧
    (∀ n : nat, clock n > MaxTime p →
       ∃ s sent, MinDiffSA (S n) b p clock g = Returned (s, sent)) ∧
    (∀ fuel s sent, MinDiffSA fuel b p clock g = Returned (s, sent) →
       valid (currentBoard s) ∧ size (currentBoard s) = size b ∧
       DiffN (currentBoard s) (Objective p) = Some (currentDiff s) ∧
       0 ≤ minDiff s ≤ currentDiff s ∧ currentDiff s ≤ size b * size b - 1 ∧
       (∃ d0, DiffN b (Objective p) = Some d0 ∧ minDiff s ≤ d0) ∧
       Forall (λ v, 0 ≤ v ≤ size b * size b - 1) sent ∧
       (1 ≤ length sent ≤ 2)%nat).
Proof.
  intros b p clock g Hv Hobj Hsz Hn. split_and!.
  - intros fuel Hp. pose proof (MinDiffSA_run b p clock g fuel Hv Hobj Hsz Hn) as Hrun.
    by rewrite Hp in Hrun.
  - intros n Hclock. by apply MinDiffSA_returns.
  - intros fuel s sent Hret.
    pose proof (MinDiffSA_run b p clock g fuel Hv Hobj Hsz Hn) as Hrun.
    rewrite Hret in Hrun. destruct Hrun as [Hinv ->].
    destruct (sa_inv_sent _ _ _ Hobj Hinv) as (Hdiff & Hb & Hsent & Hlen).
    destruct Hinv as ([Hsv Hss] & Hcur & Hmin & Hd0). rewrite Hsz.
    split_and!; [done|congruence|done|lia|lia|lia| |done|lia|lia].
    exists (diff_count b (Objective p)). split; [|done].
    apply DiffN_count; [by apply valid_wf|done|done].
Qed.

Lemma MinDiffSA_safe_witness :
  (∀ fuel, MinDiffSA fuel board_2x2 (sample_params (canonical 2)) (λ _, 11) [1; 5; 0]
           ≠ Panicked) ∧
  ∃ s sent, MinDiffSA 1 board_2x2 (sample_params (canonical 2)) (λ _, 11) [1; 5; 0]
            = Returned (s, sent).
Proof.
  destruct (MinDiffSA_safe board_2x2 (sample_params (canonical 2)) (λ _, 11) [1; 5; 0])
    as (H1 & H2 & _).
  - by apply validb_valid.
  - apply valid_wf. by apply validb_valid.
  - reflexivity.
  - done.
  - split; [exact H1|]. apply (H2 0%nat). done.
Defined.

(** X12. When the inner loop has no step to make ([Iterations <= 0]), or
    the minimum temperature is not below the start temperature 1.00, the
    search generates no neighbour: on any pair of boards that [DiffN]
    accepts it does not panic, it leaves the board alone and the one value
    it sends is the diff of the start board. *)
Theorem MinDiffSA_no_step `{FO : Float64Ops F, RG : Rand G F} :
  ∀ b (p : SimulatedAnnealParams F) clock (g : G) d,
    DiffN b (Objective p) = Some d →
    (f_lt (TemperatureMin p) f_one = false →
     ∀ fuel, MinDiffSA (S fuel) b p clock g = Returned (mkSA b d d, [d])) ∧
    (Iterations p ≤ 0 →
     (∀ fuel, MinDiffSA fuel b p clock g = Unfinished ∨
              MinDiffSA fuel b p clock g = Returned (mkSA b d d, [d])) ∧
     (∀ n : nat, clock n > MaxTime p →
                 MinDiffSA (S n) b p clock g = Returned (mkSA b d d, [d]))).
Proof.
  intros b p clock g d Hd. unfold MinDiffSA. rewrite Hd.
  assert (∀ fuel sent,
            sa_loop fuel p clock 0 f_one (mkSA b d d) g = Returned (mkSA b d d, sent) →
            sent = [d]) as Hsent.
  { intros fuel sent Hret.
    apply sa_loop_sends in Hret as [_ ->]; simpl; [|lia].
    by rewrite bool_decide_false by lia. }
  split_and!.
  - intros Ht fuel. cbn [sa_loop]. rewrite Ht. simpl.
    by rewrite bool_decide_false by lia.
  - intros Hit. split.
    + intros fuel.
      pose proof (sa_loop_idle fuel p clock 0%nat f_one (mkSA b d d) g Hit) as Hidle.
      destruct (sa_loop fuel p clock 0 f_one (mkSA b d d) g) as [[s sent]| |] eqn:Hrun;
        [right|done|by left].
      subst s. by rewrite (Hsent fuel _ Hrun).
    + intros n Hclock.
      destruct (sa_loop_idle_returns p clock n Hit 0%nat f_one (mkSA b d d) g Hclock)
        as (sent & Hrun).
      rewrite Hrun. by rewrite (Hsent _ _ Hrun).
Qed.

Lemma MinDiffSA_no_step_witness :
  MinDiffSA 1 board_1x1 (mkParams (canonical 1) (1 # 4)%Q (1 # 2)%Q 0 10) (λ _, 11) []
  = Returned (mkSA board_1x1 0 0, [0]).
Proof.
  destruct (MinDiffSA_no_step board_1x1
              (mkParams (canonical 1) (1 # 4)%Q (1 # 2)%Q 0 10) (λ _, 11) [] 0)
    as (_ & H2).
  - reflexivity.
  - destruct H2 as [_ H]; [simpl; lia|]. apply (H 0%nat). done.
Defined.

(** ** The experiments *)

(** X13. A trial of [RunHillClimb] on a board size [n > 0] whose cell
    count fits [MaxInt32]: whatever permutation [rand.Perm] draws,
    [NewBoardRand] followed by [MinDiffHC] against [NewBoard(n)] does not
    panic and sends exactly one value, a diff between 0 and [n² - 1], a key
    of the histogram; it does so after fewer than [n²] moves. *)
Theorem hc_trial_sends_one :
  ∀ n b1 pieces,
    0 < n → n * n ≤ MaxInt32 → NewBoard n = Some b1 →
    pieces ≡ₚ seqZ 0 (n * n) →
    ∃ (moves : nat) d,
      Z.of_nat moves < n * n ∧ 0 ≤ d ≤ n * n - 1 ∧
      (∀ fuel, (moves < fuel)%nat → hc_trial fuel n b1 pieces = Returned [d]) ∧
      (∀ fuel, (fuel ≤ moves)%nat → hc_trial fuel n b1 pieces = Unfinished).
Proof.
  intros n b1 pieces Hn Hmax Hb1 Hperm.
  rewrite NewBoard_canonical in Hb1 by lia. injection Hb1 as <-.
  destruct (NewBoardRand_rows n pieces ltac:(lia)) as (b2 & Hb2 & Hsz & Hwf & Hcat).
  { rewrite Hperm, length_seqZ. nia. }
  assert (valid b2) as Hv.
  { split_and!; [done|lia|]. by rewrite Hcat, Hsz. }
  assert (wf (canonical n)) as Ht by (apply grid_of_wf; lia).
  pose proof (DiffN_valid_bounds b2 (canonical n) Hv Ht ltac:(by rewrite Hsz))
    as [_ Hb].
  destruct (hc_climb (canonical n) (Z.to_nat (diff_count b2 (canonical n))) Ht b2 Hv
              ltac:(by rewrite Hsz) ltac:(by rewrite Hsz) ltac:(lia))
    as (moves & e & ns & Hrun & Hshort & Hev & Hes & Hed & _).
  pose proof (diff_count_nonneg e (canonical n)) as Hnn.
  exists moves, (diff_count e (canonical n)). rewrite Hsz in Hb.
  split_and!; [lia|lia|lia| |].
  - intros fuel Hfuel. unfold hc_trial, MinDiffHC. rewrite Hb2.
    by destruct (Hrun fuel Hfuel) as [-> _].
  - intros fuel Hfuel. unfold hc_trial, MinDiffHC. rewrite Hb2. by apply Hshort.
Qed.

Lemma hc_trial_sends_one_witness :
  ∃ (moves : nat) d,
    Z.of_nat moves < 3 * 3 ∧ 0 ≤ d ≤ 3 * 3 - 1 ∧
    (∀ fuel, (moves < fuel)%nat →
       hc_trial fuel 3 (canonical 3) [1; 2; 3; 4; 0; 5; 6; 7; 8] = Returned [d]) ∧
    (∀ fuel, (fuel ≤ moves)%nat →
       hc_trial fuel 3 (canonical 3) [1; 2; 3; 4; 0; 5; 6; 7; 8] = Unfinished).
Proof.
  apply hc_trial_sends_one.
  - lia.
  - by vm_compute.
  - reflexivity.
  - change (seqZ 0 (3 * 3)) with [0; 1; 2; 3; 4; 5; 6; 7; 8].
    apply NoDup_Permutation.
    + apply (bool_decide_unpack (NoDup [1; 2; 3; 4; 0; 5; 6; 7; 8])). by vm_compute.
    + apply (bool_decide_unpack (NoDup [0; 1; 2; 3; 4; 5; 6; 7; 8])). by vm_compute.
    + intros x. rewrite !elem_of_cons, !elem_of_nil. lia.
Defined.

(** X14. A trial of [RunSimAnneal] on a board size [n] of at least 2,
    with the board [NewBoard(n)] as the objective: whatever permutation
    [rand.Perm] draws and whatever the generator gives, [NewBoardRand]
    followed by [MinDiffSA] does not panic, it returns once the clock has
    passed the time budget, and it sends one or two values, each a diff
    between 0 and [n² - 1], a key of the histogram. *)
Theorem sa_trial_sends `{FO : Float64Ops F, RG : Rand G F} :
  ∀ n (p : SimulatedAnnealParams F) pieces clock (g : G),
    2 ≤ n → NewBoard n = Some (Objective p) → pieces ≡ₚ seqZ 0 (n * n) →
    (∀ fuel, sa_trial fuel n p pieces clock g ≠ Panicked) ∧
    (∀ k : nat, clock k > MaxTime p →
       ∃ s sent, sa_trial (S k) n p pieces clock g = Returned (s, sent)) ∧
    (∀ fuel s sent, sa_trial fuel n p pieces clock g = Returned (s, sent) →
       (1 ≤ length sent ≤ 2)%nat ∧ Forall (λ v, 0 ≤ v < n * n) sent).
Proof.
  intros n p pieces clock g Hn Hb1 Hperm.
  rewrite NewBoard_canonical in Hb1 by lia. injection Hb1 as Hobj.
  destruct (NewBoardRand_rows n pieces ltac:(lia)) as (b2 & Hb2 & Hsz & Hwf & Hcat).
  { rewrite Hperm, length_seqZ. nia. }
  assert (valid b2) as Hv.
  { split_and!; [done|lia|]. by rewrite Hcat, Hsz. }
  assert (wf (Objective p)) as Ht by (rewrite <- Hobj; apply grid_of_wf; lia).
  assert (size b2 = size (Objective p)) as Hsz' by (by rewrite <- Hobj).
  unfold sa_trial. rewrite Hb2. split_and!.
  - intros fuel Hp.
    pose proof (MinDiffSA_run b2 p clock g fuel Hv Ht Hsz' ltac:(lia)) as Hrun.
    by rewrite Hp in Hrun.
  - intros k Hclock. apply MinDiffSA_returns; (done || lia).
  - intros fuel s sent Hret.
    pose proof (MinDiffSA_run b2 p clock g fuel Hv Ht Hsz' ltac:(lia)) as Hrun.
    rewrite Hret in Hrun. destruct Hrun as [Hinv ->].
    destruct (sa_inv_sent _ _ _ Ht Hinv) as (_ & _ & Hsent & Hlen).
    split; [done|]. eapply Forall_impl; [exact Hsent|].
    intros v Hv'. simpl in Hv'. rewrite <- Hsz', Hsz in Hv'. lia.
Qed.

Lemma sa_trial_sends_witness :
  (∀ fuel, sa_trial fuel 3 RunSimAnneal_params [1; 2; 3; 4; 0; 5; 6; 7; 8]
             (λ _, 10000000001) (sample_tape 2000) ≠ Panicked) ∧
  ∃ s sent, sa_trial 1 3 RunSimAnneal_params [1; 2; 3; 4; 0; 5; 6; 7; 8]
              (λ _, 10000000001) (sample_tape 2000) = Returned (s, sent).
Proof.
  destruct (sa_trial_sends 3 RunSimAnneal_params [1; 2; 3; 4; 0; 5; 6; 7; 8]
              (λ _, 10000000001) (sample_tape 2000)) as (H1 & H2 & _).
  - lia.
  - reflexivity.
  - change (seqZ 0 (3 * 3)) with [0; 1; 2; 3; 4; 5; 6; 7; 8].
    apply NoDup_Permutation.
    + apply (bool_decide_unpack (NoDup [1; 2; 3; 4; 0; 5; 6; 7; 8])). by vm_compute.
    + apply (bool_decide_unpack (NoDup [0; 1; 2; 3; 4; 5; 6; 7; 8])). by vm_compute.
    + intros x. rewrite !elem_of_cons, !elem_of_nil. lia.
  - split; [exact H1|]. apply (H2 0%nat). done.
Defined.

(** ** The channel, the drain loop and the report *)

Lemma step_conserves e σ σ' :
  step e σ = Some σ' →
  Z.of_nat (length (buffer σ')) + unsent σ' + drain_i σ'
  = Z.of_nat (length (buffer σ)) + unsent σ + drain_i σ ∧
  capacity σ' = capacity σ ∧ drain_n σ' = drain_n σ ∧
  (Z.of_nat (length (buffer σ)) ≤ capacity σ →
   Z.of_nat (length (buffer σ')) ≤ capacity σ') ∧
  (0 ≤ drain_i σ ≤ drain_n σ → 0 ≤ drain_i σ' ≤ drain_n σ').
Proof.
  destruct e as [p|]; simpl.
  - destruct (pending σ !! p) as [[|v rest]|] eqn:Hp; [done| |done].
    case_bool_decide; [|done]. intros [= <-]. unfold unsent. simpl.
    rewrite (sumZ_insert _ _ p _ rest Hp), length_app. simpl. lia.
  - case_bool_decide; [|done]. destruct (buffer σ) as [|m buf] eqn:Hbuf; [done|].
    intros [= <-]. unfold unsent. simpl. lia.
Qed.

Lemma exec_conserves es σ σ' :
  exec es σ = Some σ' →
  Z.of_nat (length (buffer σ')) + unsent σ' + drain_i σ'
  = Z.of_nat (length (buffer σ)) + unsent σ + drain_i σ ∧
  capacity σ' = capacity σ ∧ drain_n σ' = drain_n σ ∧
  (Z.of_nat (length (buffer σ)) ≤ capacity σ →
   Z.of_nat (length (buffer σ')) ≤ capacity σ') ∧
  (0 ≤ drain_i σ ≤ drain_n σ → 0 ≤ drain_i σ' ≤ drain_n σ').
Proof.
  revert σ. induction es as [|e es IH]; intros σ; simpl.
  - intros [= <-]. split_and!; (done || lia).
  - destruct (step e σ) as [σ1|] eqn:Hstep; simpl; [|done]. intros Hexec.
    destruct (step_conserves e σ σ1 Hstep) as (H1 & H2 & H3 & H4 & H5).
    destruct (IH σ1 Hexec) as (H1' & H2' & H3' & H4' & H5').
    split_and!; [lia|congruence|congruence|tauto|tauto].
Qed.

Lemma unsent_ge_length (sends : list (list Z)) :
  Forall (λ l, (1 ≤ length l)%nat) sends →
  Z.of_nat (length sends) ≤ sumZ (λ l : list Z, Z.of_nat (length l)) sends.
Proof. induction 1 as [|x ls Hx _ IH]; simpl; lia. Qed.

(** While a value is in the buffer or still to be sent, and the drain loop
    is not done, some goroutine can take a step. *)
Lemma step_progress σ :
  0 < capacity σ → drain_i σ < drain_n σ →
  0 < Z.of_nat (length (buffer σ)) + unsent σ →
  ∃ e σ', step e σ = Some σ'.
Proof.
  intros Hcap Hdrain Hleft. destruct (buffer σ) as [|m buf] eqn:Hbuf.
  - destruct (unsent_pos_pending (pending σ)) as (p & v & rest & Hp).
    { unfold unsent in Hleft. simpl in Hleft. lia. }
    exists (Send p). eexists. simpl. rewrite Hp, Hbuf.
    by rewrite bool_decide_true by (simpl; lia).
  - exists Recv. eexists. simpl. rewrite Hbuf. by rewrite bool_decide_true.
Qed.

Lemma new_diffs_fold (l : list Z) (d : gmap Z Z) :
  hist_total d = 0 → (∀ i, default 0 (d !! i) = 0) →
  hist_total (foldl (λ diffs i, <[i := 0]> diffs) d l) = 0 ∧
  ∀ i, default 0 (foldl (λ diffs i, <[i := 0]> diffs) d l !! i) = 0.
Proof.
  revert d. induction l as [|k l IH]; intros d Hd Hz; simpl; [done|].
  apply IH.
  - unfold hist_total in *. destruct (d !! k) as [x|] eqn:Hk.
    + pose proof (Hz k) as Hx. rewrite Hk in Hx. simpl in Hx. subst x.
      rewrite <- insert_delete_eq.
      rewrite map_fold_insert_L; [|intros; lia|apply lookup_delete_eq].
      rewrite (map_fold_delete_L _ 0 k 0 d) in Hd; [lia|intros; lia|done].
    + rewrite map_fold_insert_L; [lia|intros; lia|done].
  - intros i. destruct (decide (i = k)) as [->|Hne].
    + by rewrite lookup_insert_eq.
    + rewrite lookup_insert_ne by done. apply Hz.
Qed.

Lemma new_diffs_zero size :
  hist_total (new_diffs size) = 0 ∧ ∀ i, default 0 (new_diffs size !! i) = 0.
Proof. apply new_diffs_fold; [done|]. intros i. by rewrite lookup_empty. Qed.

(** X15. The launch and drain protocol of [RunHillClimb] and
    [RunSimAnneal], for [n] trials that each send at least one value on a
    channel of capacity [n]. Under every schedule: no value is lost (those
    buffered, still to be sent and drained add up to those the trials
    send), the drain loop receives at most [n] values and counts each once,
    and while it has not received [n] values some goroutine can take a
    step, so the drain loop is never stuck. Once it has received [n]
    values nothing is received any more: the values left over are not
    counted, and a goroutine blocked on a send then stays blocked. *)
Theorem launched_drain_progress :
  ∀ size n sends es σ,
    0 < n → Z.of_nat (length sends) = n → Forall (λ l, (1 ≤ length l)%nat) sends →
    exec es (launched size n sends) = Some σ →
    Z.of_nat (length (buffer σ)) + unsent σ + drain_i σ
    = unsent (launched size n sends) ∧
    Z.of_nat (length (buffer σ)) ≤ n ∧ 0 ≤ drain_i σ ≤ n ∧
    hist_total (diffs σ) = drain_i σ ∧
    (drain_i σ < n → ∃ e σ', step e σ = Some σ') ∧
    (drain_i σ = n →
       step Recv σ = None ∧
       Z.of_nat (length (buffer σ)) + unsent σ = unsent (launched size n sends) - n ∧
       ∀ p, blocked_send σ p → ∀ e, step e σ = None).
Proof.
  intros size n sends es σ Hn Hlen Hone Hexec.
  destruct (exec_conserves es _ σ Hexec) as (Hsum & Hcap & Hdn & Hbuf & Hdr).
  simpl in *. specialize (Hbuf ltac:(lia)). specialize (Hdr ltac:(lia)).
  destruct (drain_counts es _ σ Hexec) as (_ & _ & Hhist); [simpl; lia|].
  simpl in Hhist. destruct (new_diffs_zero size) as [Hz _].
  pose proof (unsent_ge_length sends Hone) as Htotal.
  split_and!; [lia|lia|lia|lia|lia| |].
  - intros Hlt. apply step_progress; [lia|lia|].
    unfold unsent in *. simpl in *. lia.
  - intros Hdone. split_and!.
    + simpl. by rewrite bool_decide_false by lia.
    + lia.
    + intros p (v & rest & Hp & Hfull) [q|]; simpl.
      * destruct (pending σ !! q) as [[|w rest']|]; [done| |done].
        by rewrite bool_decide_false by lia.
      * by rewrite bool_decide_false by lia.
Qed.

Lemma launched_drain_progress_witness :
  ∃ σ, exec [Send 0%nat; Send 1%nat; Recv; Recv] (launched 3 2 [[3; 7]; [1]]) = Some σ ∧
    Z.of_nat (length (buffer σ)) + unsent σ + drain_i σ
    = unsent (launched 3 2 [[3; 7]; [1]]) ∧
    Z.of_nat (length (buffer σ)) ≤ 2 ∧ 0 ≤ drain_i σ ≤ 2 ∧
    hist_total (diffs σ) = drain_i σ ∧
    (drain_i σ < 2 → ∃ e σ', step e σ = Some σ') ∧
    (drain_i σ = 2 →
       step Recv σ = None ∧
       Z.of_nat (length (buffer σ)) + unsent σ = unsent (launched 3 2 [[3; 7]; [1]]) - 2 ∧
       ∀ p, blocked_send σ p → ∀ e, step e σ = None).
Proof.
  eexists. split; [reflexivity|].
  apply (launched_drain_progress 3 2 [[3; 7]; [1]] [Send 0%nat; Send 1%nat; Recv; Recv]).
  - lia.
  - reflexivity.
  - repeat constructor.
  - reflexivity.
Defined.

Lemma sumZ_one_place {A} (h : A → Z) (p : A) (l : list A) :
  NoDup l → p ∈ l → (∀ x, x ∈ l → x ≠ p → h x = 0) → sumZ h l = h p.
Proof.
  intros Hnd Hp Hz.
  apply elem_of_Permutation in Hp as [l1 Hl1]. rewrite Hl1 in Hnd.
  apply NoDup_cons in Hnd as [Hp1 _].
  rewrite (sumZ_perm _ _ _ Hl1). simpl.
  rewrite sumZ_zero_in; [lia|].
  intros x Hx. apply Hz; [rewrite Hl1; by right|]. by intros ->.
Qed.

Lemma report_sum size (d : gmap Z Z) :
  sumZ snd (report size d) = sumZ (λ i, default 0 (d !! i)) (seqZ 0 (size * size)).
Proof.
  unfold report. rewrite sumZ_fmap.
  apply (sumZ_perm (snd ∘ (λ i, (i, default 0 (d !! i))))). apply reverse_Permutation.
Qed.

(** Counting a value that is a key of the report adds one to the sum of
    the counts. *)
Lemma report_sum_incr size (d : gmap Z Z) (m : Z) :
  0 ≤ m < size * size →
  sumZ snd (report size (<[m := default 0 (d !! m) + 1]> d)) = sumZ snd (report size d) + 1.
Proof.
  intros Hm. rewrite !report_sum.
  enough (sumZ (λ i, default 0 (<[m := default 0 (d !! m) + 1]> d !! i)
                     - default 0 (d !! i)) (seqZ 0 (size * size)) = 1) as H.
  { rewrite sumZ_sub in H. lia. }
  rewrite (sumZ_one_place _ m).
  - rewrite lookup_insert_eq. simpl. lia.
  - apply NoDup_seqZ.
  - apply elem_of_seqZ. lia.
  - intros i _ Hne. rewrite lookup_insert_ne by done. lia.
Qed.

Lemma step_report size e σ σ' :
  values_in_range (size * size) σ → step e σ = Some σ' →
  (∀ i, 0 ≤ default 0 (diffs σ !! i)) →
  values_in_range (size * size) σ' ∧
  (∀ i, 0 ≤ default 0 (diffs σ' !! i)) ∧
  sumZ snd (report size (diffs σ')) - sumZ snd (report size (diffs σ))
  = drain_i σ' - drain_i σ.
Proof.
  intros [Hbuf Hpend] Hstep Hnn. destruct e as [p|]; simpl in Hstep.
  - destruct (pending σ !! p) as [[|v rest]|] eqn:Hp; [done| |done].
    case_bool_decide; [|done]. injection Hstep as <-. simpl.
    pose proof (Forall_lookup_1 _ _ _ _ Hpend Hp) as Hl.
    apply Forall_cons in Hl as [Hv Hrest].
    split_and!; [split; simpl| |lia].
    + apply Forall_app. split; [done|]. by apply Forall_singleton.
    + by apply Forall_insert.
    + done.
  - case_bool_decide; [|done]. destruct (buffer σ) as [|m buf] eqn:Hb; [done|].
    injection Hstep as <-. simpl. apply Forall_cons in Hbuf as [Hm Hbuf].
    split_and!; [by split| |].
    + intros i. destruct (decide (i = m)) as [->|Hne].
      * rewrite lookup_insert_eq. simpl. specialize (Hnn m). lia.
      * rewrite lookup_insert_ne by done. apply Hnn.
    + rewrite report_sum_incr by done. lia.
Qed.

Lemma exec_report size es σ σ' :
  values_in_range (size * size) σ → exec es σ = Some σ' →
  (∀ i, 0 ≤ default 0 (diffs σ !! i)) →
  (∀ i, 0 ≤ default 0 (diffs σ' !! i)) ∧
  sumZ snd (report size (diffs σ')) - sumZ snd (report size (diffs σ))
  = drain_i σ' - drain_i σ.
Proof.
  revert σ. induction es as [|e es IH]; intros σ Hr; simpl.
  - intros [= <-] Hnn. split; [done|lia].
  - destruct (step e σ) as [σ1|] eqn:Hstep; simpl; [|done]. intros Hexec Hnn.
    destruct (step_report size e σ σ1 Hr Hstep Hnn) as (Hr1 & Hnn1 & Hs1).
    destruct (IH σ1 Hr1 Hexec Hnn1) as (Hnn' & Hs'). split; [done|lia].
Qed.

(** X16. The report of an experiment whose trials send diffs of the board
    size, values between 0 and [size² - 1]: it has one row for each such
    value, from [size² - 1] down to 0, every count is at least 0, and under
    every schedule the counts add up to the number of values the drain
    loop has received. *)
Theorem report_counts :
  ∀ size n sends es σ,
    Forall (Forall (λ v, 0 ≤ v < size * size)) sends →
    exec es (launched size n sends) = Some σ →
    (report size (diffs σ)).*1 = reverse (seqZ 0 (size * size)) ∧
    Forall (λ r, 0 ≤ r.2) (report size (diffs σ)) ∧
    sumZ snd (report size (diffs σ)) = drain_i σ.
Proof.
  intros size n sends es σ Hr Hexec.
  destruct (new_diffs_zero size) as [_ Hz].
  assert (values_in_range (size * size) (launched size n sends)) as Hr0.
  { split; simpl; [constructor|done]. }
  destruct (exec_report size es _ σ Hr0 Hexec) as (Hnn & Hsum).
  { intros i. simpl. by rewrite Hz. }
  split_and!.
  - unfold report. rewrite <- list_fmap_compose. apply list_fmap_id.
  - unfold report. apply Forall_fmap, Forall_forall. intros i _. simpl. apply Hnn.
  - simpl in Hsum.
    rewrite (report_sum size (new_diffs size)) in Hsum.
    rewrite (sumZ_zero_in (λ i, default 0 (new_diffs size !! i))) in Hsum; [lia|].
    intros i _. apply Hz.
Qed.

Lemma report_counts_witness :
  ∃ σ, exec [Send 0%nat; Send 1%nat; Recv; Send 2%nat; Recv]
            (launched 2 3 [[3]; [1]; [3]]) = Some σ ∧
    (report 2 (diffs σ)).*1 = reverse (seqZ 0 (2 * 2)) ∧
    Forall (λ r, 0 ≤ r.2) (report 2 (diffs σ)) ∧
    sumZ snd (report 2 (diffs σ)) = drain_i σ.
Proof.
  eexists. split; [reflexivity|].
  apply (report_counts 2 3 [[3]; [1]; [3]]
           [Send 0%nat; Send 1%nat; Recv; Send 2%nat; Recv]).
  - repeat constructor; lia.
  - reflexivity.
Defined.

Lemma unsent_one_each (sends : list (list Z)) :
  Forall (λ l, length l = 1%nat) sends →
  sumZ (λ l : list Z, Z.of_nat (length l)) sends = Z.of_nat (length sends).
Proof. induction 1 as [|x ls Hx _ IH]; simpl; lia. Qed.

Lemma unsent_zero (pend : list (list Z)) :
  sumZ (λ l : list Z, Z.of_nat (length l)) pend = 0 → Forall (λ l, l = []) pend.
Proof.
  induction pend as [|l pend IH]; simpl; intros Hsum; [constructor|].
  pose proof (sumZ_nonneg (λ l : list Z, Z.of_nat (length l)) pend
                ltac:(intros; simpl; lia)).
  constructor; [|apply IH; lia]. destruct l; [done|]. simpl in Hsum. lia.
Qed.

(** X17. When each of the [n] trials sends exactly one value, as the
    trials of [RunHillClimb] do, the channel of capacity [n] never fills
    up: under every schedule a goroutine that has its value to send can
    send it at once, and when the drain loop has received [n] values every
    value sent has been counted, none is left in the buffer or unsent. *)
Theorem launched_one_each :
  ∀ size n sends es σ,
    Z.of_nat (length sends) = n → Forall (λ l, length l = 1%nat) sends →
    exec es (launched size n sends) = Some σ →
    (∀ p, ¬ blocked_send σ p) ∧
    (∀ p v rest, pending σ !! p = Some (v :: rest) →
                 ∃ σ', step (Send p) σ = Some σ') ∧
    (drain_i σ = n → buffer σ = [] ∧ Forall (λ l, l = []) (pending σ)).
Proof.
  intros size n sends es σ Hlen Hone Hexec.
  pose proof (unsent_one_each sends Hone) as Htotal.
  assert (∀ p, ¬ blocked_send σ p) as Hfree.
  { apply (fits_never_blocks es _ σ Hexec). unfold unsent. simpl. lia. }
  destruct (exec_conserves es _ σ Hexec) as (Hsum & Hcap & _).
  unfold unsent in Hsum. simpl in *.
  split_and!; [done| |].
  - intros p v rest Hp. simpl. rewrite Hp.
    destruct (decide (Z.of_nat (length (buffer σ)) < capacity σ)) as [Hroom|Hfull].
    + rewrite bool_decide_true by done. eauto.
    + exfalso. apply (Hfree p). exists v, rest. split; [done|lia].
  - intros Hdone.
    pose proof (sumZ_nonneg (λ l : list Z, Z.of_nat (length l)) (pending σ)
                  ltac:(intros; simpl; lia)).
    split.
    + destruct (buffer σ); [done|]. simpl in Hsum. lia.
    + apply unsent_zero. lia.
Qed.

Lemma launched_one_each_witness :
  ∃ σ, exec [Send 1%nat; Send 0%nat; Recv; Recv] (launched 3 2 [[3]; [1]]) = Some σ ∧
    (∀ p, ¬ blocked_send σ p) ∧
    (∀ p v rest, pending σ !! p = Some (v :: rest) →
                 ∃ σ', step (Send p) σ = Some σ') ∧
    (drain_i σ = 2 → buffer σ = [] ∧ Forall (λ l, l = []) (pending σ)).
Proof.
  eexists. split; [reflexivity|].
  apply (launched_one_each 3 2 [[3]; [1]] [Send 1%nat; Send 0%nat; Recv; Recv]).
  - reflexivity.
  - repeat constructor.
  - reflexivity.
Defined.
